(** * RAG tutorial notebooks: the algorithmic content, embedded and verified

    The notebooks glue external services together (an LLM, an embedding
    API, UMAP, scikit-learn's Gaussian mixtures, a vector store).  What the
    repository itself contributes is

    - [rrf], reciprocal rank fusion (retrieval notebook),
    - the RAPTOR routine: [perform_clustering], [GMM_cluster],
      [get_optimal_clusters], [embed_cluster_summarize_texts] and
      [recursive_embed_cluster_summarize] (indexing notebook),
    - the CRAG graph wiring with its routing functions (generation notebook),
    - the cells that build the vector stores and the multi-query chain.

    External services are taken as interfaces (type classes); the Python
    functions the properties are about are translated line by line. *)

From Stdlib Require Import ZArith QArith Qround List String Ascii Sorted Permutation Lia Bool.
From Stdlib Require Import SpecFloat.
From stdpp Require Import gmap strings sorting.
Import ListNotations.

(** ** Python exceptions and results *)

Inductive exn : Type :=
| ZeroDivisionError
| KeyError
| ValueError
| IndexError
| TypeError.

Inductive result (A : Type) : Type :=
| Ok (a : A)
| Raise (e : exn).
Arguments Ok {A} a.
Arguments Raise {A} e.

Definition rbind {A B} (r : result A) (f : A -> result B) : result B :=
  match r with
  | Ok a => f a
  | Raise e => Raise e
  end.

(** ** Reciprocal rank fusion

    [rrf] is embedded twice.  [Rrf64] below follows Python's arithmetic,
    with binary64 quotients and sums; what [rrf] returns is stated there.
    [Rrf] reads the same code over exact rationals, for the statements
    about which documents come back and about a single ranked list. *)

Module Rrf.

(** [fused_scores]: a Python dict, which keeps insertion order. *)
Abbreviation dict := (list (string * Q)).

Section Defs.
Context {Document : Type}.

(** [langchain.load.dumps] and [langchain.load.loads]. *)
Variable dumps : Document -> string.
Variable loads : string -> Document.

Fixpoint dict_mem (key : string) (d : dict) : bool :=
  match d with
  | [] => false
  | (k', _) :: d' => if String.eqb key k' then true else dict_mem key d'
  end.

Fixpoint dict_get (key : string) (d : dict) : result Q :=
  match d with
  | [] => Raise KeyError
  | (k', v) :: d' => if String.eqb key k' then Ok v else dict_get key d'
  end.

(** [d[key] = v]: an existing key keeps its position, a new one goes last. *)
Fixpoint dict_set (key : string) (v : Q) (d : dict) : dict :=
  match d with
  | [] => [(key, v)]
  | (k', v') :: d' =>
      if String.eqb key k' then (k', v) :: d' else (k', v') :: dict_set key v d'
  end.

(** [1 / (rank + k)]; Python raises on a zero divisor. *)
Definition reciprocal (rank : nat) (k : Q) : result Q :=
  let d := (inject_Z (Z.of_nat rank) + k)%Q in
  if Qeq_bool d 0 then Raise ZeroDivisionError else Ok (1 / d)%Q.

(** Body of the inner loop, for one [(rank, doc)] of [enumerate(docs)]. *)
Definition rrf_visit (k : Q) (fused_scores : dict) (rank : nat) (doc : Document)
  : result dict :=
  let doc_str := dumps doc in
  let fused_scores :=
    if negb (dict_mem doc_str fused_scores)
    then dict_set doc_str 0%Q fused_scores
    else fused_scores in
  rbind (dict_get doc_str fused_scores) (fun previous_score =>
  rbind (reciprocal rank k) (fun term =>
  Ok (dict_set doc_str (previous_score + term)%Q fused_scores))).

(** [for rank, doc in enumerate(docs)], started at [rank]. *)
Fixpoint rrf_docs (k : Q) (fused_scores : dict) (rank : nat) (docs : list Document)
  : result dict :=
  match docs with
  | [] => Ok fused_scores
  | doc :: rest =>
      rbind (rrf_visit k fused_scores rank doc)
            (fun fused_scores => rrf_docs k fused_scores (S rank) rest)
  end.

(** [for docs in results]. *)
Fixpoint rrf_results (k : Q) (fused_scores : dict) (results : list (list Document))
  : result dict :=
  match results with
  | [] => Ok fused_scores
  | docs :: rest =>
      rbind (rrf_docs k fused_scores 0 docs)
            (fun fused_scores => rrf_results k fused_scores rest)
  end.

(** [sorted(items, key=lambda x: x[1], reverse=True)]: a stable sort, so
    items of equal score keep their order. *)
Fixpoint insert_desc (x : string * Q) (l : dict) : dict :=
  match l with
  | [] => [x]
  | y :: l' => if Qle_bool (snd y) (snd x) then x :: y :: l' else y :: insert_desc x l'
  end.

Definition sorted_desc (items : dict) : dict := fold_right insert_desc [] items.

Definition rrf (results : list (list Document)) (k : Q) : result (list (Document * Q)) :=
  rbind (rrf_results k [] results) (fun fused_scores =>
  Ok (map (fun item => (loads (fst item), snd item)) (sorted_desc fused_scores))).

(** The default [k=60]. *)
Definition rrf_default (results : list (list Document)) := rrf results 60%Q.

(** The formula the fused score is meant to follow: the sum, over every
    occurrence of the serialized document [s], of [1 / (rank + k)]. *)
Fixpoint occurrence_sum (k : Q) (s : string) (rank : nat) (docs : list Document) : Q :=
  match docs with
  | [] => 0%Q
  | doc :: rest =>
      ((if String.eqb (dumps doc) s
        then 1 / (inject_Z (Z.of_nat rank) + k) else 0)
       + occurrence_sum k s (S rank) rest)%Q
  end.

Fixpoint fused_score (k : Q) (s : string) (results : list (list Document)) : Q :=
  match results with
  | [] => 0%Q
  | docs :: rest => (occurrence_sum k s 0 docs + fused_score k s rest)%Q
  end.

Definition occurs (s : string) (results : list (list Document)) : Prop :=
  exists docs doc, docs ∈ results /\ doc ∈ docs /\ dumps doc = s.

(** No occurrence has a zero divisor [rank + k]. *)
Definition divisors_nonzero (k : Q) (results : list (list Document)) : Prop :=
  forall docs rank, docs ∈ results -> (rank < length docs)%nat ->
    ~ (inject_Z (Z.of_nat rank) + k == 0)%Q.

Definition non_increasing (out : list (Document * Q)) : Prop :=
  StronglySorted (fun a b => (snd b <= snd a)%Q) out.

(** The dictionary [d] holds exactly the keys [seen], under each key the
    value of [f], and [f] is still 0 at every key not met. *)
Definition tracks (d : dict) (f : string -> Q) (seen : string -> Prop) : Prop :=
  NoDup d.*1
  /\ (forall s, s ∈ d.*1 <-> seen s)
  /\ (forall s v, (s, v) ∈ d -> (v == f s)%Q)
  /\ (forall s, ~ seen s -> (f s == 0)%Q).

Definition score_ge (a b : string * Q) : Prop := (snd b <= snd a)%Q.
End Defs.

(** Two ranked lists over documents that serialize to themselves. *)
Definition sample_results : list (list string) :=
  [["a"; "b"]; ["b"; "c"]]%string.
End Rrf.

(** ** Reciprocal rank fusion in binary64 *)

Module Rrf64.

(** Python's [float] is IEEE 754 binary64.  Its operations are taken from
    the standard library's specification of floating-point arithmetic:
    the exact result, rounded once to nearest, ties to even. *)
Abbreviation float := spec_float.

Definition prec : Z := 53.
Definition emax : Z := 1024.

(** A Python [int] as an operand of a float operation: its exact value,
    as integer mantissa with exponent 0. *)
Definition of_int (n : Z) : float :=
  match n with
  | Z0 => S754_zero false
  | Zpos p => S754_finite false p 0
  | Zneg p => S754_finite true p 0
  end.

(** [x + y] on floats; an [int] operand is converted first. *)
Definition fadd (x y : float) : float := SFadd prec emax x y.

(** [fused_scores]: a Python dict, which keeps insertion order. *)
Abbreviation dict := (list (string * float)).

Section Defs.
Context {Document : Type}.

(** [langchain.load.dumps] and [langchain.load.loads]. *)
Variable dumps : Document -> string.
Variable loads : string -> Document.

Fixpoint dict_mem (key : string) (d : dict) : bool :=
  match d with
  | [] => false
  | (k', _) :: d' => if String.eqb key k' then true else dict_mem key d'
  end.

Fixpoint dict_get (key : string) (d : dict) : result float :=
  match d with
  | [] => Raise KeyError
  | (k', v) :: d' => if String.eqb key k' then Ok v else dict_get key d'
  end.

(** [d[key] = v]: an existing key keeps its position, a new one goes last. *)
Fixpoint dict_set (key : string) (v : float) (d : dict) : dict :=
  match d with
  | [] => [(key, v)]
  | (k', v') :: d' =>
      if String.eqb key k' then (k', v) :: d' else (k', v') :: dict_set key v d'
  end.

(** The value of [1 / (rank + k)] for ints with [rank + k] not zero: true
    division of ints gives the float nearest to the quotient. *)
Definition quotient (rank : nat) (k : Z) : float :=
  SFdiv prec emax (of_int 1) (of_int (Z.of_nat rank + k)).

(** [1 / (rank + k)]; Python raises on a zero divisor.  [k] is an [int],
    as the default 60 and every call in the notebooks have it. *)
Definition reciprocal (rank : nat) (k : Z) : result float :=
  if (Z.of_nat rank + k =? 0)%Z then Raise ZeroDivisionError
  else Ok (quotient rank k).

(** Body of the inner loop, for one [(rank, doc)] of [enumerate(docs)];
    the [int] 0 a new key starts with is the float zero once it is added
    to. *)
Definition rrf_visit (k : Z) (fused_scores : dict) (rank : nat) (doc : Document)
  : result dict :=
  let doc_str := dumps doc in
  let fused_scores :=
    if negb (dict_mem doc_str fused_scores)
    then dict_set doc_str (of_int 0) fused_scores
    else fused_scores in
  rbind (dict_get doc_str fused_scores) (fun previous_score =>
  rbind (reciprocal rank k) (fun term =>
  Ok (dict_set doc_str (fadd previous_score term) fused_scores))).

(** [for rank, doc in enumerate(docs)], started at [rank]. *)
Fixpoint rrf_docs (k : Z) (fused_scores : dict) (rank : nat) (docs : list Document)
  : result dict :=
  match docs with
  | [] => Ok fused_scores
  | doc :: rest =>
      rbind (rrf_visit k fused_scores rank doc)
            (fun fused_scores => rrf_docs k fused_scores (S rank) rest)
  end.

(** [for docs in results]. *)
Fixpoint rrf_results (k : Z) (fused_scores : dict) (results : list (list Document))
  : result dict :=
  match results with
  | [] => Ok fused_scores
  | docs :: rest =>
      rbind (rrf_docs k fused_scores 0 docs)
            (fun fused_scores => rrf_results k fused_scores rest)
  end.

(** [sorted(items, key=lambda x: x[1], reverse=True)]: a stable sort, so
    items of equal score keep their order. *)
Fixpoint insert_desc (x : string * float) (l : dict) : dict :=
  match l with
  | [] => [x]
  | y :: l' => if SFleb (snd y) (snd x) then x :: y :: l' else y :: insert_desc x l'
  end.

Definition sorted_desc (items : dict) : dict := fold_right insert_desc [] items.

Definition rrf (results : list (list Document)) (k : Z) : result (list (Document * float)) :=
  rbind (rrf_results k [] results) (fun fused_scores =>
  Ok (map (fun item => (loads (fst item), snd item)) (sorted_desc fused_scores))).

(** The default [k=60]. *)
Definition rrf_default (results : list (list Document)) := rrf results 60.

(** The sum the fused score is: starting from [acc], the quotient
    [1 / (rank + k)] of every occurrence of the serialized document [s] is
    added in turn, each addition rounded, in the order the occurrences are
    met. *)
Fixpoint occurrence_sum (k : Z) (s : string) (rank : nat) (docs : list Document)
    (acc : float) : float :=
  match docs with
  | [] => acc
  | doc :: rest =>
      occurrence_sum k s (S rank) rest
        (if String.eqb (dumps doc) s then fadd acc (quotient rank k) else acc)
  end.

Fixpoint fused_score (k : Z) (s : string) (results : list (list Document))
    (acc : float) : float :=
  match results with
  | [] => acc
  | docs :: rest => fused_score k s rest (occurrence_sum k s 0 docs acc)
  end.

Definition occurs (s : string) (results : list (list Document)) : Prop :=
  exists docs doc, docs ∈ results /\ doc ∈ docs /\ dumps doc = s.

(** No occurrence has a zero divisor [rank + k]. *)
Definition divisors_nonzero (k : Z) (results : list (list Document)) : Prop :=
  forall docs rank, docs ∈ results -> (rank < length docs)%nat ->
    (Z.of_nat rank + k <> 0)%Z.

(** [b] is not greater than [a], as Python compares floats. *)
Definition score_ge {A} (a b : A * float) : Prop := SFleb (snd b) (snd a) = true.

Definition non_increasing (out : list (Document * float)) : Prop :=
  StronglySorted score_ge out.

(** The dictionary [d] holds exactly the keys [seen], under each key the
    value of [f], and [f] is still the zero a key starts with at every key
    not met. *)
Definition tracks (d : dict) (f : string -> float) (seen : string -> Prop) : Prop :=
  NoDup d.*1
  /\ (forall s, s ∈ d.*1 <-> seen s)
  /\ (forall s v, (s, v) ∈ d -> v = f s)
  /\ (forall s, ~ seen s -> f s = of_int 0).
End Defs.

(** A float that is a number and, unless it is a zero, has sign [b]. *)
Definition signed (b : bool) (x : float) : Prop :=
  match x with
  | S754_nan => False
  | S754_zero _ => True
  | S754_infinity s | S754_finite s _ _ => s = b
  end.

(** Four ranked lists in which [x] and [y] take the same ranks, in a
    different order. *)
Definition mirrored_results : list (list string) :=
  [["f"; "x"; "y"]; ["f"; "x"; "g"; "y"]; ["f"; "y"; "x"]; ["f"; "y"; "g"; "x"]]%string.

(** A document ranked first by three retrievers. *)
Definition three_firsts : list (list string) := [["a"]; ["a"]; ["a"]]%string.
End Rrf64.

(** ** External services of the indexing notebook *)

Abbreviation matrix := (list (list Q)).

(** What the RAPTOR cell calls outside the repository.  UMAP is built
    without [random_state], so it draws from the process-wide random
    generator, whose state is threaded explicitly; the Gaussian mixtures
    get a fixed seed and the summarizing LLM runs at temperature 0, so
    they are functions of their arguments. *)
Class Backend : Type := {
  rng_state : Type;
  (** [embeddings.embed_documents(texts)] *)
  embed_documents : list string -> matrix;
  (** [umap.UMAP(n_neighbors, n_components, metric, random_state)
      .fit_transform(X)]; [random_state] is [None] unless it is given *)
  UMAP_fit_transform :
    option Z -> nat -> nat -> string -> matrix -> rng_state -> matrix * rng_state;
  (** [GaussianMixture(n_components, random_state).fit(X).bic(X)] *)
  GaussianMixture_bic : nat -> Z -> matrix -> Q;
  (** [GaussianMixture(n_components, random_state).fit(X).predict_proba(X)] *)
  GaussianMixture_predict_proba : nat -> Z -> matrix -> list (list Q);
  (** [(prompt | llm | StrOutputParser()).invoke({"context": context})] *)
  summarize_chain : string -> string
}.

(** Shapes the libraries guarantee: one output row per input row. *)
Class BackendLaws (B : Backend) : Prop := {
  embed_rows : forall texts, length (embed_documents texts) = length texts;
  UMAP_rows : forall n_neighbors dim metric X g,
    length (UMAP_fit_transform None n_neighbors dim metric X g).1 = length X;
  predict_proba_rows : forall n seed X,
    length (GaussianMixture_predict_proba n seed X) = length X
}.

(** Calls to the external services, in the order they happen. *)
Inductive event : Type :=
| EvEmbed (texts : list string)
| EvUMAP (n_neighbors n_components : nat) (metric : string) (X : matrix)
| EvBIC (n_components : nat) (random_state : Z) (X : matrix)
| EvGMM (n_components : nat) (random_state : Z) (X : matrix)
| EvLLM (context : string).

(** ** RAPTOR: recursive embed, cluster, summarize *)

Module Raptor.

Definition RANDOM_SEED : Z := 224.

(** Rows of [df_clusters], of the expanded frame and of [df_summary]. *)
Record cluster_row : Type := { text : string; embd : list Q; cluster : list nat }.

Record expanded_row : Type := { x_text : string; x_embd : list Q; x_cluster : nat }.

Record summary_row : Type := { summaries : string; level : Z; s_cluster : nat }.

(** The dictionary from levels to [(df_clusters, df_summary)]. *)
Abbreviation results_dict := (gmap Z (list cluster_row * list summary_row)).

Section Defs.
Context `{B : Backend}.

(** Computations that call the services: the calls made, the random
    generator's state afterwards, and a value or a raised exception. *)
Definition M (A : Type) : Type := rng_state -> list event * rng_state * result A.

#[export] Instance M_ret : MRet M := fun A a g => ([], g, Ok a).
#[export] Instance M_bind : MBind M := fun A C f m g =>
  let '(t1, g1, r) := m g in
  match r with
  | Ok a => let '(t2, g2, r2) := f a g1 in (t1 ++ t2, g2, r2)
  | Raise e => (t1, g1, Raise e)
  end.

Definition lift {A} (r : result A) : M A := fun g => ([], g, r).

Definition emit (e : event) : M unit := fun g => ([e], g, Ok tt).

Definition umap (n_neighbors dim : nat) (metric : string) (X : matrix) : M matrix :=
  fun g => let '(Y, g') := UMAP_fit_transform None n_neighbors dim metric X g in
           ([EvUMAP n_neighbors dim metric X], g', Ok Y).

Definition global_cluster_embeddings (embeddings : matrix) (dim : nat)
    (n_neighbors : option nat) (metric : string) : M matrix :=
  n_neighbors ← match n_neighbors with
                | Some n => mret n
                | None =>
                    (* int((len(embeddings) - 1) ** 0.5); a negative base
                       gives a complex number, which int() refuses *)
                    if (length embeddings =? 0)%nat then lift (Raise TypeError)
                    else mret (Nat.sqrt (length embeddings - 1))
                end;
  umap n_neighbors dim metric embeddings.

Definition local_cluster_embeddings (embeddings : matrix) (dim : nat)
    (num_neighbors : nat) (metric : string) : M matrix :=
  umap num_neighbors dim metric embeddings.

(** [np.argmin]: the first index of the least value; empty input raises. *)
Fixpoint argmin_from (best_i : nat) (best : Q) (i : nat) (l : list Q) : nat :=
  match l with
  | [] => best_i
  | x :: rest =>
      if Qle_bool best x then argmin_from best_i best (S i) rest
      else argmin_from i x (S i) rest
  end.

Definition argmin (l : list Q) : result nat :=
  match l with
  | [] => Raise ValueError
  | x :: rest => Ok (argmin_from 0 x 1 rest)
  end.

(** [n_clusters[i]] *)
Definition index {A} (l : list A) (i : nat) : result A :=
  match l !! i with
  | Some x => Ok x
  | None => Raise IndexError
  end.

(** The loop of [get_optimal_clusters]: one fit and one BIC per candidate. *)
Fixpoint bic_loop (random_state : Z) (embeddings : matrix) (n_clusters : list nat)
  : M (list Q) :=
  match n_clusters with
  | [] => mret []
  | n :: rest =>
      _ ← emit (EvBIC n random_state embeddings);
      bics ← bic_loop random_state embeddings rest;
      mret (GaussianMixture_bic n random_state embeddings :: bics)
  end.

(** [np.arange(1, max_clusters)] *)
Definition arange_from_1 (max_clusters : nat) : list nat := seq 1 (max_clusters - 1).

Definition get_optimal_clusters (embeddings : matrix) (max_clusters : nat)
    (random_state : Z) : M nat :=
  let max_clusters := Nat.min max_clusters (length embeddings) in
  let n_clusters := arange_from_1 max_clusters in
  bics ← bic_loop random_state embeddings n_clusters;
  i ← lift (argmin bics);
  lift (index n_clusters i).

(** [np.where(prob > threshold)[0]] *)
Fixpoint where_gt_from (j : nat) (prob : list Q) (threshold : Q) : list nat :=
  match prob with
  | [] => []
  | p :: rest =>
      if Qle_bool p threshold then where_gt_from (S j) rest threshold
      else j :: where_gt_from (S j) rest threshold
  end.

Definition where_gt (prob : list Q) (threshold : Q) : list nat :=
  where_gt_from 0 prob threshold.

Definition GMM_cluster (embeddings : matrix) (threshold : Q) (random_state : Z)
  : M (list (list nat) * nat) :=
  n_clusters ← get_optimal_clusters embeddings 50 RANDOM_SEED;
  _ ← emit (EvGMM n_clusters random_state embeddings);
  let probs := GaussianMixture_predict_proba n_clusters random_state embeddings in
  let labels := map (fun prob => where_gt prob threshold) probs in
  mret (labels, n_clusters).

(** [rows[np.array(mask)]]: the mask must be as long as the rows. *)
Fixpoint select {A} (mask : list bool) (rows : list A) : list A :=
  match mask, rows with
  | b :: mask', r :: rows' => if b then r :: select mask' rows' else select mask' rows'
  | _, _ => []
  end.

Definition mask_select {A} (mask : list bool) (rows : list A) : result (list A) :=
  if (length mask =? length rows)%nat then Ok (select mask rows)
  else Raise IndexError.

(** [i in gc] *)
Definition member (i : nat) (gc : list nat) : bool := existsb (Nat.eqb i) gc.

(** [(a == b).all(-1)] on two rows of one matrix. *)
Definition row_eqb (a b : list Q) : bool :=
  (length a =? length b)%nat
  && forallb (fun p => Qeq_bool (fst p) (snd p)) (combine a b).

(** [np.where((embeddings == rows[:, None]).all(-1))[1]]: for each of
    [rows] in turn, the positions of [embeddings] holding an equal row. *)
Fixpoint positions_from (i : nat) (embeddings : matrix) (r : list Q) : list nat :=
  match embeddings with
  | [] => []
  | e :: rest =>
      if row_eqb e r then i :: positions_from (S i) rest r
      else positions_from (S i) rest r
  end.

Definition matching_indices (embeddings rows : matrix) : list nat :=
  flat_map (positions_from 0 embeddings) rows.

(** [for idx in indices: all[idx] = np.append(all[idx], label)] *)
Definition append_label (label : nat) (all_local_clusters : list (list nat))
    (indices : list nat) : list (list nat) :=
  fold_left (fun all idx => alter (fun ids => ids ++ [label]) idx all)
            indices all_local_clusters.

(** [for j in range(n_local_clusters)], over the remaining [js]. *)
Fixpoint assign_local (embeddings global_cluster_embeddings_ : matrix)
    (local_clusters : list (list nat)) (total_clusters : nat)
    (js : list nat) (all_local_clusters : list (list nat))
  : result (list (list nat)) :=
  match js with
  | [] => Ok all_local_clusters
  | j :: rest =>
      rbind (mask_select (map (member j) local_clusters) global_cluster_embeddings_)
        (fun local_cluster_embeddings_ =>
           let indices := matching_indices embeddings local_cluster_embeddings_ in
           assign_local embeddings global_cluster_embeddings_ local_clusters
             total_clusters rest
             (append_label (j + total_clusters) all_local_clusters indices))
  end.

(** The two ways a non-empty global cluster gets its local clusters. *)
Definition local_clustering (global_cluster_embeddings_ : matrix) (dim : nat)
    (threshold : Q) : M (list (list nat) * nat) :=
  if (length global_cluster_embeddings_ <=? dim + 1)%nat
  then mret (map (fun _ => [0%nat]) global_cluster_embeddings_, 1%nat)
  else
    reduced_embeddings_local ←
      local_cluster_embeddings global_cluster_embeddings_ dim 10 "cosine";
    GMM_cluster reduced_embeddings_local threshold 0.

(** [for i in range(n_global_clusters)], over the remaining [is_]. *)
Fixpoint global_loop (embeddings : matrix) (dim : nat) (threshold : Q)
    (global_clusters : list (list nat)) (is_ : list nat)
    (all_local_clusters : list (list nat)) (total_clusters : nat)
  : M (list (list nat)) :=
  match is_ with
  | [] => mret all_local_clusters
  | i :: rest =>
      global_cluster_embeddings_ ←
        lift (mask_select (map (member i) global_clusters) embeddings);
      if (length global_cluster_embeddings_ =? 0)%nat
      then global_loop embeddings dim threshold global_clusters rest
             all_local_clusters total_clusters
      else
        '(local_clusters, n_local_clusters) ←
          local_clustering global_cluster_embeddings_ dim threshold;
        all_local_clusters ←
          lift (assign_local embeddings global_cluster_embeddings_ local_clusters
                  total_clusters (seq 0 n_local_clusters) all_local_clusters);
        global_loop embeddings dim threshold global_clusters rest
          all_local_clusters (total_clusters + n_local_clusters)
  end.

Definition perform_clustering (embeddings : matrix) (dim : nat) (threshold : Q)
  : M (list (list nat)) :=
  if (length embeddings <=? dim + 1)%nat
  then mret (map (fun _ => [0%nat]) embeddings)
  else
    reduced_embeddings_global ←
      global_cluster_embeddings embeddings dim None "cosine";
    '(global_clusters, n_global_clusters) ←
      GMM_cluster reduced_embeddings_global threshold 0;
    global_loop embeddings dim threshold global_clusters (seq 0 n_global_clusters)
      (map (fun _ => []) embeddings) 0.

(** [embed]: the embeddings of the texts, as a matrix. *)
Definition embed (texts : list string) : M matrix :=
  _ ← emit (EvEmbed texts);
  mret (embed_documents texts).

(** Three columns assigned to an empty frame: pandas wants the second
    and third as long as the first. *)
Fixpoint zip_rows (texts : list string) (embs : matrix) (labels : list (list nat))
  : list cluster_row :=
  match texts, embs, labels with
  | t :: texts', e :: embs', c :: labels' =>
      {| text := t; embd := e; cluster := c |} :: zip_rows texts' embs' labels'
  | _, _, _ => []
  end.

Definition make_frame (texts : list string) (embs : matrix) (labels : list (list nat))
  : result (list cluster_row) :=
  if (length embs =? length texts)%nat && (length labels =? length texts)%nat
  then Ok (zip_rows texts embs labels)
  else Raise ValueError.

Definition embed_cluster_texts (texts : list string) : M (list cluster_row) :=
  text_embeddings_np ← embed texts;
  cluster_labels ← perform_clustering text_embeddings_np 10 (1 # 10);
  lift (make_frame texts text_embeddings_np cluster_labels).

Definition delimiter : string := "--- --- " ++ String "010" " --- --- ".

Definition fmt_txt (df : list expanded_row) : string :=
  String.concat delimiter (map x_text df).

(** [Series.unique()]: the distinct values, in order of first appearance. *)
Fixpoint unique (l : list nat) : list nat :=
  match l with
  | [] => []
  | x :: rest => x :: List.filter (fun y => negb (y =? x)%nat) (unique rest)
  end.

(** [Series.nunique()] *)
Definition nunique (l : list nat) : nat := length (unique l).

Definition expand (row : cluster_row) : list expanded_row :=
  map (fun c => {| x_text := text row; x_embd := embd row; x_cluster := c |})
      (cluster row).

(** [for i in all_clusters]: one chain invocation per cluster. *)
Fixpoint summarize_loop (expanded_df : list expanded_row) (all_clusters : list nat)
  : M (list string) :=
  match all_clusters with
  | [] => mret []
  | i :: rest =>
      let df_cluster := List.filter (fun r => (x_cluster r =? i)%nat) expanded_df in
      let formatted_txt := fmt_txt df_cluster in
      _ ← emit (EvLLM formatted_txt);
      summaries ← summarize_loop expanded_df rest;
      mret (summarize_chain formatted_txt :: summaries)
  end.

Definition embed_cluster_summarize_texts (texts : list string) (level : Z)
  : M (list cluster_row * list summary_row) :=
  df_clusters ← embed_cluster_texts texts;
  let expanded_list := flat_map expand df_clusters in
  (* a frame built from an empty list has no "cluster" column *)
  column ← lift (match expanded_list with
                 | [] => Raise KeyError
                 | _ => Ok (map x_cluster expanded_list)
                 end);
  let all_clusters := unique column in
  summaries ← summarize_loop expanded_list all_clusters;
  let df_summary :=
    map (fun p => {| summaries := fst p; level := level; s_cluster := snd p |})
        (combine summaries all_clusters) in
  mret (df_clusters, df_summary).

(** [results.update(next_level_results)] *)
Definition update (results next_level_results : results_dict) : results_dict :=
  next_level_results ∪ results.

Fixpoint recursive_embed_cluster_summarize_fuel (fuel : nat)
    (texts : list string) (level n_levels : Z) (g : rng_state)
  : option (list event * rng_state * result results_dict) :=
  match fuel with
  | O => None
  | S fuel =>
      let '(t1, g1, r) := embed_cluster_summarize_texts texts level g in
      match r with
      | Raise e => Some (t1, g1, Raise e)
      | Ok (df_clusters, df_summary) =>
          let results : results_dict := {[ level := (df_clusters, df_summary) ]} in
          let unique_clusters := nunique (map s_cluster df_summary) in
          if (level <? n_levels)%Z && (1 <? unique_clusters)%nat then
            let new_texts := map summaries df_summary in
            match recursive_embed_cluster_summarize_fuel fuel new_texts
                    (level + 1) n_levels g1 with
            | None => None
            | Some (t2, g2, r2) =>
                Some (t1 ++ t2, g2,
                      rbind r2 (fun next_level_results =>
                                  Ok (update results next_level_results)))
            end
          else Some (t1, g1, Ok results)
      end
  end.

(** Every call raises [level] by one and stops at [n_levels], so this
    much fuel is never used up. *)
Definition recursive_embed_cluster_summarize (texts : list string)
    (level n_levels : Z) (g : rng_state) :=
  recursive_embed_cluster_summarize_fuel (S (Z.to_nat (n_levels - level)))
    texts level n_levels g.

(** The defaults [level=1], [n_levels=3]. *)
Definition recursive_embed_cluster_summarize_default (texts : list string) :=
  recursive_embed_cluster_summarize texts 1 3.

(** The BIC fits [get_optimal_clusters] makes on [X]. *)
Definition bic_events (max_clusters : nat) (random_state : Z) (X : matrix) : list event :=
  map (fun n => EvBIC n random_state X)
      (arange_from_1 (Nat.min max_clusters (length X))).

(** Embedding [idx] equals a row of the global cluster that the local
    clustering put in local cluster [j]. *)
Definition hit (X members : matrix) (local_clusters : list (list nat))
    (j idx : nat) : Prop :=
  exists k r ids e,
    members !! k = Some r /\ local_clusters !! k = Some ids /\ j ∈ ids
    /\ X !! idx = Some e /\ row_eqb e r = true.

(** What the loop did for one non-empty global cluster. *)
Record local_run : Type := {
  lr_members : matrix;              (* global_cluster_embeddings_ *)
  lr_clusters : list (list nat);    (* local_clusters *)
  lr_n : nat;                       (* n_local_clusters *)
  lr_offset : nat;                  (* total_clusters when it started *)
  lr_trace : list event
}.

(** The events of one [GMM_cluster] call on [X] that chose [n]. *)
Definition gmm_events (n : nat) (X : matrix) : list event :=
  bic_events 50 RANDOM_SEED X ++ [EvGMM n 0 X].

(** A cluster of at most [dim + 1] rows is one local cluster, with no
    call; a larger one goes through UMAP, then through [GMM_cluster] on
    UMAP's output. *)
Definition run_ok (dim : nat) (threshold : Q) (run : local_run) : Prop :=
  length (lr_clusters run) = length (lr_members run)
  /\ 1 <= lr_n run
  /\ ((length (lr_members run) <= dim + 1
       /\ lr_trace run = []
       /\ lr_n run = 1
       /\ lr_clusters run = map (fun _ => [0]) (lr_members run))
      \/ (dim + 1 < length (lr_members run)
          /\ exists g reduced,
               reduced = (UMAP_fit_transform None 10 dim "cosine" (lr_members run) g).1
               /\ lr_trace run
                  = EvUMAP 10 dim "cosine" (lr_members run) :: gmm_events (lr_n run) reduced
               /\ lr_clusters run
                  = map (fun prob => where_gt prob threshold)
                        (GaussianMixture_predict_proba (lr_n run) 0 reduced))).

(** Each run starts numbering where the runs before it stopped. *)
Fixpoint offsets_from (total : nat) (runs : list local_run) : Prop :=
  match runs with
  | [] => True
  | run :: rest => lr_offset run = total /\ offsets_from (total + lr_n run) rest
  end.

Definition nonempty_clusters (X : matrix) (global_clusters : list (list nat))
    (is_ : list nat) : list matrix :=
  List.filter (fun m => negb (length m =? 0))
    (map (fun i => select (map (member i) global_clusters) X) is_).

(** Label [c] was given to embedding [idx] by one of the runs. *)
Definition labelled (X : matrix) (runs : list local_run) (idx c : nat) : Prop :=
  exists run j, run ∈ runs /\ j < lr_n run /\ c = j + lr_offset run
                /\ hit X (lr_members run) (lr_clusters run) j idx.

(** The stages of [perform_clustering] on more than [dim + 1] rows:
    global UMAP, then [GMM_cluster] on its output, then one run per
    non-empty global cluster, in order, each obeying [P]; the labels of
    an embedding are those the runs gave it, every run numbering its
    local clusters from the total of the runs before. *)
Definition staged_clustering (P : local_run -> Prop) (X : matrix) (dim : nat)
    (threshold : Q) (g : rng_state) : Prop :=
  exists n runs g' labels,
    let reduced := (UMAP_fit_transform None (Nat.sqrt (length X - 1)) dim "cosine" X g).1 in
    let global_clusters :=
      map (fun prob => where_gt prob threshold)
          (GaussianMixture_predict_proba n 0 reduced) in
    perform_clustering X dim threshold g
      = (EvUMAP (Nat.sqrt (length X - 1)) dim "cosine" X
           :: gmm_events n reduced ++ flat_map lr_trace runs,
         g', Ok labels)
    /\ 1 <= n <= Nat.min 50 (length X) - 1
    /\ length labels = length X
    /\ map lr_members runs = nonempty_clusters X global_clusters (seq 0 n)
    /\ Forall P runs
    /\ offsets_from 0 runs
    /\ forall idx, idx < length X ->
        exists ids, labels !! idx = Some ids
          /\ forall c, c ∈ ids <-> labelled X runs idx c.


(** The keys of a returned dictionary: the levels from [level] up to
    some [top], which is at most [n_levels] unless the call started
    above it. *)
Definition consecutive_levels (level n_levels : Z) (d : results_dict) : Prop :=
  exists top : Z,
    (level <= top)%Z /\ (top <= n_levels \/ top = level)%Z
    /\ forall k : Z, k ∈ dom d <-> (level <= k <= top)%Z.

(** The exception [e] came out of the embed, cluster and summarize step
    of some level between [level] and [n_levels]. *)
Definition step_raised (level n_levels : Z) (e : exn) : Prop :=
  exists texts (level' : Z) g t g',
    (level <= level')%Z /\ (level' <= n_levels \/ level' = level)%Z
    /\ embed_cluster_summarize_texts texts level' g = (t, g', Raise e).

(** The text handed to the chain for cluster [i]. *)
Definition context_of (expanded_df : list expanded_row) (i : nat) : string :=
  fmt_txt (List.filter (fun r => (x_cluster r =? i)%nat) expanded_df).

End Defs.
End Raptor.

(** ** A small stand-in for the services, to run the code on examples *)

Module Sample.

(** The mixture component a one-hot posterior puts a row in. *)
Definition component (n : nat) (row : list Q) : nat :=
  match row with
  | q :: _ => (Z.to_nat (Qfloor q) mod n)%nat
  | [] => 0%nat
  end.

Definition one_hot (n c : nat) : list Q :=
  map (fun j => if (j =? c)%nat then 1%Q else 0%Q) (seq 0 n).

(** Texts embed to their length; UMAP shifts every coordinate by its seed
    or, without one, by the generator's state, which it then steps; two
    components have the least BIC. *)
#[export] Instance backend : Backend := {|
  rng_state := nat;
  embed_documents texts :=
    map (fun t => [inject_Z (Z.of_nat (String.length t))]) texts;
  UMAP_fit_transform random_state _ _ _ X g :=
    match random_state with
    | Some seed => (map (map (Qplus (inject_Z seed))) X, g)
    | None => (map (map (Qplus (inject_Z (Z.of_nat g)))) X, S g)
    end;
  GaussianMixture_bic n _ _ := inject_Z (Z.abs (Z.of_nat n - 2));
  GaussianMixture_predict_proba n _ X := map (fun row => one_hot n (component n row)) X;
  summarize_chain context := context
|}.

Definition four_rows : matrix := [[0%Q]; [1%Q]; [3%Q]; [5%Q]].

Definition twelve_texts : list string :=
  ["a"; "ab"; "abc"; "abcd"; "abcde"; "abcdef"; "abcdefg"; "abcdefgh";
   "abcdefghi"; "abcdefghij"; "abcdefghijk"; "abcdefghijkl"]%string.

(** The embeddings of the twelve texts: one more row than [dim + 1] for
    the notebook's [dim = 10]. *)
Definition twelve_rows : matrix :=
  [[1%Q]; [2%Q]; [3%Q]; [4%Q]; [5%Q]; [6%Q];
   [7%Q]; [8%Q]; [9%Q]; [10%Q]; [11%Q]; [12%Q]].
End Sample.

(** ** The CRAG graph of the generation notebook *)

Module Crag.

(** The chains, retriever and search tool the nodes call.  The language
    model behind every chain runs at temperature 0. *)
Class Services : Type := {
  Document : Type;
  (** The [(name, value)] pairs that iterating over a [Document] yields. *)
  Field : Type;
  (** [list(document)] *)
  fields : Document -> list Field;
  (** [Document(page_content=...)] *)
  make_document : string -> Document;
  (** [query_routing_chain.invoke(...).datasource] *)
  query_routing_chain : string -> string;
  (** [retriever.invoke(question)] *)
  retriever : string -> list Document;
  (** [d["content"] for d in web_search_tool.invoke({"query": question})] *)
  web_search_tool : string -> list string;
  (** [grading_chain.invoke({'document': doc, 'question': question}).grade] *)
  grading_chain : Document -> string -> string;
  (** the same chain, handed a [(name, value)] pair as its document *)
  grading_chain_on_field : Field -> string -> string;
  (** [qa_chain.invoke({"question": question, "context": documents})] *)
  qa_chain : string -> list Document + (Document + list Field) -> string;
  (** [fallback_chain.invoke({"question": question})] *)
  fallback_chain : string -> string;
  (** [hallucination_chain.invoke(...).grade] *)
  hallucination_chain : list Document + (Document + list Field) -> string -> string;
  (** [answer_grader_chain.invoke(...).grade] *)
  answer_grader_chain : string -> string -> string
}.

Inductive node : Type := retrieve | web_search | fallback | generate | grade_documents.

Inductive target : Type :=
| Node (n : node)
| END.

#[export] Instance node_eq_dec : EqDecision node.
Proof. solve_decision. Defined.

Section Defs.
Context `{Sv : Services}.

(** [GraphState]; a run starts from [{"question": question}], the other
    two keys come with the nodes that write them.  Under "documents",
    [retrieve] stores a list of documents and [web_search] a single
    [Document]; [grade_documents] stores the list of what it kept, which
    are documents when it went over a list of documents, and pairs
    otherwise. *)
Record GraphState : Type := {
  question : string;
  generation : option string;
  documents : option (list Document + (Document + list Field))
}.

(** [state[key]] on a key that may be missing. *)
Definition get {A} (field : option A) : result A :=
  match field with
  | Some v => Ok v
  | None => Raise KeyError
  end.

Definition newline : string := String "010" "".

(** *** Nodes *)

Definition retrieve_node (state : GraphState) : result GraphState :=
  let documents := retriever (question state) in
  Ok {| question := question state; generation := generation state;
        documents := Some (inl documents) |}.

Definition web_search_node (state : GraphState) : result GraphState :=
  let docs := web_search_tool (question state) in
  let web_results := make_document (String.concat newline docs) in
  Ok {| question := question state; generation := generation state;
        documents := Some (inr (inl web_results)) |}.

Definition fallback_node (state : GraphState) : result GraphState :=
  let generation := fallback_chain (question state) in
  Ok {| question := question state; generation := Some generation;
        documents := documents state |}.

Definition generate_node (state : GraphState) : result GraphState :=
  rbind (get (documents state)) (fun documents =>
  let generation := qa_chain (question state) documents in
  Ok {| question := question state; generation := Some generation;
        documents := Some documents |}).

(** The loop of [grade_documents]: keep the documents graded 'yes'. *)
Fixpoint filter_relevant (question : string) (documents : list Document)
  : list Document :=
  match documents with
  | [] => []
  | doc :: rest =>
      if String.eqb (grading_chain doc question) "yes"
      then doc :: filter_relevant question rest
      else filter_relevant question rest
  end.

(** The same loop over [(name, value)] pairs. *)
Fixpoint filter_relevant_fields (question : string) (pairs : list Field)
  : list Field :=
  match pairs with
  | [] => []
  | doc :: rest =>
      if String.eqb (grading_chain_on_field doc question) "yes"
      then doc :: filter_relevant_fields question rest
      else filter_relevant_fields question rest
  end.

(** [grade_documents] iterates over whatever is under "documents".  In
    the graph it runs after [retrieve], on a list of documents; over the
    single [Document] that [web_search] leaves, the loop goes through the
    document's [(name, value)] pairs. *)
Definition grade_documents_node (state : GraphState) : result GraphState :=
  rbind (get (documents state)) (fun documents =>
  match documents with
  | inl documents =>
      let filtered_docs := filter_relevant (question state) documents in
      Ok {| question := question state; generation := generation state;
            documents := Some (inl filtered_docs) |}
  | inr (inl document) =>
      let filtered_docs := filter_relevant_fields (question state) (fields document) in
      Ok {| question := question state; generation := generation state;
            documents := Some (inr (inr filtered_docs)) |}
  | inr (inr pairs) =>
      let filtered_docs := filter_relevant_fields (question state) pairs in
      Ok {| question := question state; generation := generation state;
            documents := Some (inr (inr filtered_docs)) |}
  end).

(** *** Conditional edges *)

Definition route_question (state : GraphState) : result string :=
  let route := query_routing_chain (question state) in
  if String.eqb route "vectorstore" then Ok "retrieve"%string
  else if String.eqb route "web_search" then Ok "web_search"%string
  else Ok "fallback"%string.

(** [not filtered_documents]: an empty list is false, an object is true. *)
Definition falsy (documents : list Document + (Document + list Field)) : bool :=
  match documents with
  | inl [] => true
  | inr (inr []) => true
  | _ => false
  end.

Definition decide_to_generate (state : GraphState) : result string :=
  rbind (get (documents state)) (fun filtered_documents =>
  if falsy filtered_documents then Ok "web_search"%string
  else Ok "generate"%string).

Definition evaluate_response (state : GraphState) : result string :=
  rbind (get (documents state)) (fun documents =>
  rbind (get (generation state)) (fun generation =>
  let hallucination_grade := hallucination_chain documents generation in
  if String.eqb hallucination_grade "yes" then
    let answer_grade := answer_grader_chain (question state) generation in
    if String.eqb answer_grade "yes" then Ok "useful"%string
    else Ok "notuseful"%string
  else Ok "not supported"%string)).

(** *** The wiring of [workflow] *)

Definition run_node (n : node) : GraphState -> result GraphState :=
  match n with
  | retrieve => retrieve_node
  | web_search => web_search_node
  | fallback => fallback_node
  | generate => generate_node
  | grade_documents => grade_documents_node
  end.

(** The path map of a conditional edge; a name outside it is an error. *)
Fixpoint path_map (mapping : list (string * target)) (name : string) : result target :=
  match mapping with
  | [] => Raise KeyError
  | (key, t) :: rest => if String.eqb name key then Ok t else path_map rest name
  end.

Definition entry_mapping : list (string * target) :=
  [("retrieve", Node retrieve); ("web_search", Node web_search);
   ("fallback", Node fallback)]%string.

Definition grade_documents_mapping : list (string * target) :=
  [("web_search", Node web_search); ("generate", Node generate)]%string.

Definition generate_mapping : list (string * target) :=
  [("useful", END); ("notuseful", Node web_search);
   ("not supported", Node generate)]%string.

(** [set_conditional_entry_point(route_question, ...)] *)
Definition entry_point (state : GraphState) : result target :=
  rbind (route_question state) (path_map entry_mapping).

(** The edge taken after node [n] has produced [state]. *)
Definition next (n : node) (state : GraphState) : result target :=
  match n with
  | retrieve => Ok (Node grade_documents)
  | web_search => Ok (Node generate)
  | grade_documents =>
      rbind (decide_to_generate state) (path_map grade_documents_mapping)
  | generate => rbind (evaluate_response state) (path_map generate_mapping)
  | fallback => Ok END
  end.

(** How a run of the compiled graph ends. *)
Inductive outcome : Type :=
| Finished (state : GraphState)
| Failed (e : exn)
| GraphRecursionError.

(** The compiled graph from target [t] on, one node per step, while
    [recursion_limit] counts the steps that may still be taken; the nodes
    run, in order, and the end.  The library also spends a step on finding
    that nothing is left to run, so a run of [n] nodes needs a limit of
    [n + 1]. *)
Fixpoint run_from (recursion_limit : nat) (t : target) (state : GraphState)
  : list node * outcome :=
  match recursion_limit with
  | O => ([], GraphRecursionError)
  | S recursion_limit =>
      match t with
      | END => ([], Finished state)
      | Node n =>
          match run_node n state with
          | Raise e => ([n], Failed e)
          | Ok state =>
              match next n state with
              | Raise e => ([n], Failed e)
              | Ok t' =>
                  let '(path, o) := run_from recursion_limit t' state in
                  (n :: path, o)
              end
          end
      end
  end.

(** [app.stream({"question": question}, {"recursion_limit": ...})] *)
Definition run_pipeline (recursion_limit : nat) (question : string)
  : list node * outcome :=
  let inputs := {| question := question; generation := None; documents := None |} in
  match entry_point inputs with
  | Raise e => ([], Failed e)
  | Ok t => run_from recursion_limit t inputs
  end.

(** The library's default for [recursion_limit]. *)
Definition default_recursion_limit : nat := 25.

(** The successor of a node would not depend on what the node produced. *)
Definition no_rerouting : Prop :=
  forall n state1 state2 t1 t2,
    next n state1 = Ok t1 -> next n state2 = Ok t2 -> t1 = t2.
End Defs.
End Crag.

(** Sample services for the graph: the vector store has three documents,
    of which only the one about agents is graded relevant; an answer is
    graded useful only once it draws on the web. *)
Module CragSample.
Import Crag.

#[export] Instance services : Services := {|
  Document := string;
  Field := string * string;
  fields doc := [("page_content", doc); ("type", "Document")];
  make_document s := s;
  query_routing_chain q :=
    if String.eqb q "hello" then "fallback"
    else if String.eqb q "news" then "web_search" else "vectorstore";
  retriever q := ["agents"; "prompts"; "attacks"];
  web_search_tool q := ["web: " ++ q];
  grading_chain doc q :=
    if String.eqb q "agents" then (if String.eqb doc "agents" then "yes" else "no")
    else "no";
  grading_chain_on_field doc q :=
    if String.eqb (fst doc) "page_content" then "yes" else "no";
  qa_chain q docs :=
    match docs with
    | inl _ => "from the store"
    | inr _ => "from the web"
    end;
  fallback_chain q := "hi";
  hallucination_chain docs generation := "yes";
  answer_grader_chain q generation :=
    if String.eqb q "agents" then
      (if String.eqb generation "from the web" then "yes" else "no")
    else "yes"
|}%string.

Definition agents_after_store : GraphState :=
  {| question := "agents"; generation := Some "from the store"%string;
     documents := Some (inl ["agents"%string]) |}.

Definition agents_after_web : GraphState :=
  {| question := "agents"; generation := Some "from the web"%string;
     documents := Some (inr (inl "web: agents"%string)) |}.

Definition nothing_relevant : GraphState :=
  {| question := "other"; generation := None; documents := Some (inl []) |}.
End CragSample.

(** ** The cells that build a vector store *)

Module VectorStore.

(** Loading, splitting and embedding, all from libraries. *)
Class Services : Type := {
  Document : Type;
  (** [DirectoryLoader(path, glob, loader_cls=PyPDFLoader).load()] *)
  directory_loader : string -> string -> list Document;
  (** [PyPDFLoader(file).load()] *)
  pdf_loader : string -> list Document;
  (** [RecursiveCharacterTextSplitter(chunk_size, chunk_overlap).split_documents] *)
  split_documents : nat -> nat -> list Document -> list Document;
  (** [OpenAIEmbeddings()], on one chunk *)
  OpenAIEmbeddings : Document -> list Q
}.

(** What the vector database keeps of a chunk. *)
Abbreviation entry := (Document * list Q)%type.

(** Durable storage: the collections persisted on disk, by directory. *)
Abbreviation disk := (gmap string (list entry)).

Section Defs.
Context `{Sv : Services}.

(** A [Chroma] vector store held in a notebook variable. *)
Record Chroma : Type := {
  collection : list entry;
  persist_directory : option string
}.

(** [Chroma.from_documents(documents, embedding, persist_directory)].
    The database is a library; this is its documented behaviour, which
    the notebooks' recorded output repeats ("Since Chroma 0.4.x ... docs
    are automatically persisted"): with a directory, the collection found
    there is opened, the new entries are added and the collection is
    written back; without one the collection lives in memory. *)
Definition Chroma_from_documents (documents : list Document)
    (persist_directory : option string) (d : disk) : Chroma * disk :=
  let entries := map (fun doc => (doc, OpenAIEmbeddings doc)) documents in
  match persist_directory with
  | Some dir =>
      let stored := default [] (d !! dir) ++ entries in
      ({| collection := stored; persist_directory := Some dir |},
       <[ dir := stored ]> d)
  | None =>
      ({| collection := entries; persist_directory := None |}, d)
  end.

(** [vectorstore.persist()]: writes the collection to its directory;
    without a directory there is nothing to write and it returns. *)
Definition persist (vectorstore : Chroma) (d : disk) : result disk :=
  match persist_directory vectorstore with
  | Some dir => Ok (<[ dir := collection vectorstore ]> d)
  | None => Ok d
  end.

(** The first cell of the basic, retrieval and HyDE notebooks. *)
Definition build_vectorstore (d : disk) : result (Chroma * disk) :=
  let documents := directory_loader "data/" "*.pdf" in
  let text_chunks := split_documents 500 20 documents in
  let '(vectorstore, d) :=
    Chroma_from_documents text_chunks (Some "data/vectorstore"%string) d in
  rbind (persist vectorstore d) (fun d => Ok (vectorstore, d)).

(** [generate_vectorstores(file, dir)] of the routing notebook. *)
Definition generate_vectorstores (file dir : string) (d : disk)
  : result (Chroma * disk) :=
  let documents := pdf_loader file in
  let text_chunks := split_documents 500 20 documents in
  let '(vectorstore, d) := Chroma_from_documents text_chunks (Some dir) d in
  rbind (persist vectorstore d) (fun d => Ok (vectorstore, d)).

(** The generation notebook: [Chroma.from_documents] with a collection
    name and no directory. *)
Definition build_vectorstore_in_memory (doc_splits : list Document) (d : disk)
  : Chroma * disk :=
  Chroma_from_documents doc_splits None d.

(** Nothing of the run is written to durable storage. *)
Definition leaves_disk_alone (cell : disk -> result (Chroma * disk)) : Prop :=
  forall d vectorstore d', cell d = Ok (vectorstore, d') -> d' = d.
End Defs.
End VectorStore.

(** ** The multi-query chain of the retrieval notebook *)

Module MultiQuery.

(** A chat model that samples: besides the prompt it consumes randomness. *)
Class Llm : Type := {
  entropy : Type;
  (** [ChatOpenAI(model, temperature)] followed by [StrOutputParser()] *)
  ChatOpenAI : string -> Q -> string -> entropy -> string
}.

Definition newline : ascii := "010"%char.

(** [x.split("\n")] *)
Fixpoint split_lines (x : string) : list string :=
  match x with
  | EmptyString => [EmptyString]
  | String c rest =>
      if Ascii.eqb c newline then EmptyString :: split_lines rest
      else match split_lines rest with
           | line :: lines => String c line :: lines
           | [] => [String c EmptyString]
           end
  end.

Section Defs.
Context `{M : Llm}.

(** [prompt]: the template with [{question}] filled in. *)
Definition prompt (question : string) : string :=
  (String newline
     "    You are an intelligent assistant. Your task is to generate 4 questions based on the provided question in different wording and different perspectives to retrieve relevant documents from a vector database. By generating multiple perspectives on the user question, your goal is to help the user overcome some of the limitations of the distance-based similarity search. Provide these alternative questions separated by newlines. Original question: "
   ++ question ++ String newline "    ")%string.

Definition generate_queries (question : string) (e : entropy) : list string :=
  split_lines (ChatOpenAI "gpt-4" (7 # 10) (prompt question) e).
End Defs.
End MultiQuery.

Module MultiQuerySample.

(** A model whose sampled completion follows the parity of the entropy. *)
#[export] Instance llm : MultiQuery.Llm := {|
  MultiQuery.entropy := nat;
  MultiQuery.ChatOpenAI _ _ _ e :=
    if Nat.even e then String "a" (String MultiQuery.newline "b")
    else String "c" (String MultiQuery.newline "d")
|}.
End MultiQuerySample.

Module VectorStoreSample.

(** One PDF of two pages, split into one chunk per page. *)
#[export] Instance services : VectorStore.Services := {|
  VectorStore.Document := string;
  VectorStore.directory_loader _ _ := ["page one"; "page two"]%string;
  VectorStore.pdf_loader _ := ["page one"; "page two"]%string;
  VectorStore.split_documents _ _ documents := documents;
  VectorStore.OpenAIEmbeddings doc := [inject_Z (Z.of_nat (String.length doc))]
|}.
End VectorStoreSample.

(** ** Further notions about the RAPTOR routine *)

Module RaptorSpec.

(** The sum of a row of posteriors. *)
Definition row_sum (prob : list Q) : Q := fold_right Qplus 0%Q prob.

(** Component indices in increasing order. *)
Definition increasing (ids : list nat) : Prop := StronglySorted lt ids.

(** A singleton matrix, too small for a mixture. *)
Definition one_row : matrix := [[0%Q]].

(** Posteriors over three components that sum to one. *)
Definition posterior : list Q := [1 # 20; 3 # 4; 1 # 5]%Q.

(** The posteriors of an embedding that is equally likely to belong to
    each of [n] components. *)
Definition uniform (n : nat) : list Q := repeat (1 # Pos.of_nat n)%Q n.
(** Level by level, a returned dictionary chains summaries to texts: the
    summary rows under key [l] carry level [l] and distinct cluster ids,
    and a key [l + 1] exists only below [n_levels], after more than one
    cluster at [l], with the summaries of [l] as its texts. *)
Definition chained (n_levels : Z) (d : Raptor.results_dict) : Prop :=
  forall (l : Z) dfc dfs, d !! l = Some (dfc, dfs) ->
    Forall (fun r => Raptor.level r = l) dfs
    /\ NoDup (map Raptor.s_cluster dfs)
    /\ forall dfc' dfs', d !! (l + 1)%Z = Some (dfc', dfs') ->
         (l < n_levels)%Z
         /\ 1 < Raptor.nunique (map Raptor.s_cluster dfs)
         /\ map Raptor.text dfc' = map Raptor.summaries dfs.

(** Two texts with one embedding, among five. *)
Definition five_rows : matrix := [[0%Q]; [1%Q]; [3%Q]; [1%Q]; [5%Q]].

Definition two_texts : list string := ["alpha"; "beta"]%string.
End RaptorSpec.

(** ** Further notions about the CRAG graph *)

Module CragSpec.
Import Crag.

(** What a target needs of the state to run: [generate] reads the key
    "documents", [grade_documents] iterates over a list under it. *)
Definition ready `{Sv : Services} (t : target) (state : GraphState) : Prop :=
  match t with
  | Node generate => documents state <> None
  | Node grade_documents => exists docs, documents state = Some (inl docs)
  | _ => True
  end.

(** The single [Document] that [web_search] stores for a question. *)
Definition web_documents `{Sv : Services} (q : string)
  : list Document + (Document + list Field) :=
  inr (inl (make_document (String.concat newline (web_search_tool q)))).

(** Services whose answer grader is never satisfied. *)
Definition never_satisfied : Services := {|
  Document := string;
  Field := string * string;
  fields doc := [("page_content"%string, doc)];
  make_document s := s;
  query_routing_chain q := "web_search"%string;
  retriever q := [];
  web_search_tool q := [q];
  grading_chain doc q := "no"%string;
  grading_chain_on_field doc q := "no"%string;
  qa_chain q docs := "an answer"%string;
  fallback_chain q := "hi"%string;
  hallucination_chain docs generation := "yes"%string;
  answer_grader_chain q generation := "no"%string
|}.

Definition asked (q : string) : GraphState (Sv := never_satisfied) :=
  @Build_GraphState never_satisfied q None None.

Definition retrieved : GraphState (Sv := CragSample.services) :=
  @Build_GraphState CragSample.services "agents" None
    (Some (inl ["agents"; "prompts"; "attacks"]%string)).
End CragSpec.

(** ** Further notions about reciprocal rank fusion *)

Module RrfSpec.
Import Rrf.
Section Defs.
Context {Document : Type}.
Variable dumps : Document -> string.



(** The dictionary a single list of distinct documents leaves behind: one
    entry per document, in the order of the list, the value being
    [0 + 1 / (rank + k)] as the loop computes it. *)
Fixpoint ranked (k : Q) (rank : nat) (docs : list Document) : dict :=
  match docs with
  | [] => []
  | doc :: rest =>
      (dumps doc, (0 + 1 / (inject_Z (Z.of_nat rank) + k))%Q)
        :: ranked k (S rank) rest
  end.
End Defs.

End RrfSpec.

(** ** The fusion retrieval chain *)

Module Fusion.
Import MultiQuery.
Section Defs.
Context `{M : Llm} {Document : Type}.
Variable dumps : Document -> string.
Variable loads : string -> Document.

(** [retriever.invoke(query)] *)
Variable retriever : string -> list Document.

(** Python's [repr] of a [str]. *)
Variable repr : string -> string.

(** [{'question': RunnablePassthrough()}] wraps the question in a dict,
    [generate_queries] wraps its input once more, and the prompt template
    formats the value under "question" with [str]: the text pasted into
    the prompt is that of the inner dict. *)
Definition question_dict (question : string) : string :=
  ("{'question': " ++ repr question ++ "}")%string.

(** [{'question': RunnablePassthrough()} | generate_queries
     | retriever.map() | rrf]; [rrf] is called with the default [k]. *)
Definition fusion_retrieval_chain (question : string) (e : entropy)
  : result (list (Document * Q)) :=
  Rrf.rrf_default dumps loads
    (map retriever (generate_queries (question_dict question) e)).
End Defs.
End Fusion.

Module FusionSample.

(** A retriever over two stored texts: the query "b" finds both, every
    other query only the first. *)
Definition retriever (query : string) : list string :=
  if String.eqb query "b" then ["x"; "y"]%string else ["x"]%string.
End FusionSample.

(** ** Multi-representation indexing *)

Module MultiVector.

(** [Document(page_content=s, metadata={"doc_id": doc_id})] *)
Record SummaryDocument : Type := {
  page_content : string;
  doc_id : string
}.

Section Defs.
Context {Document : Type}.

(** [str(uuid.uuid4())], the [i]-th identifier drawn in the cell. *)
Variable uuid4 : nat -> string.

(** [[str(uuid.uuid4()) for _ in docs]] *)
Definition doc_ids (docs : list Document) : list string :=
  map uuid4 (seq 0 (length docs)).

(** [zip] stops at the shorter list. *)
Definition summary_docs (summaries : list string) (doc_ids : list string)
  : list SummaryDocument :=
  map (fun p => {| page_content := fst p; doc_id := snd p |})
      (combine summaries doc_ids).

(** [docstore.mset(pairs)]: the pairs are stored one after the other, a
    later pair replaces an earlier one under the same key. *)
Definition mset (pairs : list (string * Document)) (store : gmap string Document)
  : gmap string Document :=
  fold_left (fun st p => <[ fst p := snd p ]> st) pairs store.

(** The store after [retriever.docstore.mset(list(zip(doc_ids, docs)))] on
    the fresh [InMemoryByteStore()]. *)
Definition docstore (docs : list Document) : gmap string Document :=
  mset (combine (doc_ids docs) docs) ∅.
End Defs.

(** Identifiers that differ, and one that comes back. *)
Definition sample_uuid4 (i : nat) : string :=
  match i with
  | 0 => "id-0"
  | 1 => "id-1"
  | _ => "id-2"
  end%string.
End MultiVector.

(** ** The texts indexed after the RAPTOR run *)

Module AllTexts.
Import Raptor.

(** [sorted(results.keys())] *)
Definition sorted_keys (results : results_dict) : list Z :=
  merge_sort Z.le (map_to_list results).*1.

(** [results[level][1]["summaries"].tolist()]; [level] is one of the keys. *)
Definition summaries_at (results : results_dict) (level : Z) : list string :=
  match results !! level with
  | Some (_, df_summary) => map summaries df_summary
  | None => []
  end.

(** [all_texts = leaf_texts.copy()], then [all_texts.extend(summaries)]
    for every level in ascending order. *)
Definition all_texts (leaf_texts : list string) (results : results_dict)
  : list string :=
  fold_left (fun all_texts level => all_texts ++ summaries_at results level)
            (sorted_keys results) leaf_texts.
End AllTexts.

(** ** Further notions about the generated queries *)

Module MultiQuerySpec.

(** [x.count(c)] for a single character. *)
Fixpoint count_char (c : ascii) (x : string) : nat :=
  match x with
  | EmptyString => 0
  | String c' rest => (if Ascii.eqb c' c then 1 else 0) + count_char c rest
  end.

(** [c in x] for a single character. *)
Fixpoint has_char (c : ascii) (x : string) : bool :=
  match x with
  | EmptyString => false
  | String c' rest => Ascii.eqb c' c || has_char c rest
  end.
End MultiQuerySpec.

(** ** What is known of the services' randomness *)

Module Sampling.
Import MultiQuery.

(** The chat model's contract: at temperature 0 it decodes greedily, so
    the completion does not depend on the randomness it is given. *)
Class LlmLaws (M : Llm) : Prop := {
  greedy : forall model prompt e1 e2,
    ChatOpenAI model 0 prompt e1 = ChatOpenAI model 0 prompt e2
}.

(** UMAP's contract: built with a [random_state], it seeds a generator
    of its own; its output does not depend on the process-wide generator
    and that generator is left as it was. *)
Class SeedLaws (B : Backend) : Prop := {
  seeded : forall seed n_neighbors dim metric X g1 g2,
    (UMAP_fit_transform (Some seed) n_neighbors dim metric X g1).1
    = (UMAP_fit_transform (Some seed) n_neighbors dim metric X g2).1;
  generator_untouched : forall seed n_neighbors dim metric X g,
    (UMAP_fit_transform (Some seed) n_neighbors dim metric X g).2 = g
}.

(** A chat model of which only the contract is known: at temperature 0
    it returns one fixed completion per prompt, at any other temperature
    the completion is whatever the sampling produced. *)
#[export] Instance sampler : Llm := {|
  entropy := string;
  ChatOpenAI _ temperature prompt sampled :=
    if Qeq_bool temperature 0 then prompt else sampled
|}.

(** What a run of the RAPTOR routine returns, without the calls made and
    the generator's final state. *)
Definition returned `{B : Backend}
    (run : option (list event * rng_state * result Raptor.results_dict))
  : option (result Raptor.results_dict) :=
  option_map snd run.
(** The unseeded UMAP would give the same output whatever the state of
    the process-wide generator. *)
Definition generator_ignored `{B : Backend} : Prop :=
  forall n_neighbors dim metric X g1 g2,
    (UMAP_fit_transform None n_neighbors dim metric X g1).1
    = (UMAP_fit_transform None n_neighbors dim metric X g2).1.

(** A computation makes the same calls and gives the same result
    whatever the state of the generator it starts from. *)
Definition repeats `{B : Backend} {A} (m : Raptor.M A) : Prop :=
  forall g1 g2, (m g1).1.1 = (m g2).1.1 /\ (m g1).2 = (m g2).2.
End Sampling.

(** * Theorems *)

(** ** Lists: the standard [map] under stdpp's lookup and membership *)

Lemma lookup_map {A C} (f : A -> C) (l : list A) (i : nat) :
  map f l !! i = f <$> (l !! i).
Proof.
  revert i. induction l as [|x l IH]; intros [|i]; simpl; auto.
Qed.

Lemma elem_of_map {A C} (f : A -> C) (l : list A) (y : C) :
  y ∈ map f l <-> exists x, y = f x /\ x ∈ l.
Proof.
  rewrite list_elem_of_In, in_map_iff. split.
  - intros (x & <- & H). exists x. split; [reflexivity | apply list_elem_of_In, H].
  - intros (x & -> & H). exists x. split; [reflexivity | apply list_elem_of_In, H].
Qed.

(** ** Reciprocal rank fusion *)

Module RrfFacts.
Import Rrf.
Section Facts.
Context {Document : Type}.
Variable dumps : Document -> string.
Variable loads : string -> Document.

















End Facts.


End RrfFacts.

(** ** Reciprocal rank fusion in binary64 *)
Module Rrf64Facts.
Import Rrf64.

(** *** Rounding never produces NaN and keeps the sign *)

Lemma shr_1_nonneg (mrs : shr_record) :
  (0 <= shr_m mrs)%Z -> (0 <= shr_m (shr_1 mrs))%Z.
Proof.
  destruct mrs as [m r s]. destruct m as [|p|p]; simpl; intros H;
    try destruct p; simpl; lia.
Qed.

Lemma iter_shr_1_nonneg (p : positive) : forall mrs,
  (0 <= shr_m mrs)%Z -> (0 <= shr_m (SpecFloat.iter_pos shr_1 p mrs))%Z.
Proof.
  induction p as [p IH|p IH|]; intros mrs H; simpl.
  - apply IH, IH, shr_1_nonneg, H.
  - apply IH, IH, H.
  - apply shr_1_nonneg, H.
Qed.

Lemma shr_fexp_nonneg (m e : Z) (l : location) :
  (0 <= m)%Z -> (0 <= shr_m (shr_fexp prec emax m e l).1)%Z.
Proof.
  intros H. unfold shr_fexp, shr.
  assert (H0 : (0 <= shr_m (shr_record_of_loc m l))%Z).
  { destruct l as [|[]]; exact H. }
  destruct (fexp prec emax (Zdigits2 m + e) - e)%Z; simpl;
    [exact H0 | apply iter_shr_1_nonneg, H0 | exact H0].
Qed.

Lemma round_nearest_even_nonneg (m : Z) (l : location) :
  (0 <= m)%Z -> (0 <= round_nearest_even m l)%Z.
Proof.
  intros H. destruct l as [|[]]; simpl; try lia. destruct (Z.even m); lia.
Qed.

Lemma binary_round_aux_signed (sx : bool) (mx ex : Z) (lx : location) :
  (0 <= mx)%Z -> signed sx (binary_round_aux prec emax sx mx ex lx).
Proof.
  intros H. unfold binary_round_aux.
  pose proof (shr_fexp_nonneg mx ex lx H) as H1.
  destruct (shr_fexp prec emax mx ex lx) as [mrs' e']. simpl in H1.
  pose proof (shr_fexp_nonneg _ e' loc_Exact
                (round_nearest_even_nonneg _ (loc_of_shr_record mrs') H1)) as H2.
  destruct (shr_fexp prec emax _ e' loc_Exact) as [mrs'' e'']. simpl in H2.
  destruct (shr_m mrs'') as [|m|m]; [exact I | | lia].
  destruct (e'' <=? emax - prec)%Z; reflexivity.
Qed.

Lemma binary_round_signed (sx : bool) (mx : positive) (ex : Z) :
  signed sx (binary_round prec emax sx mx ex).
Proof.
  unfold binary_round. destruct (shl_align mx ex _) as [mz ez].
  apply binary_round_aux_signed. lia.
Qed.

(** Adding two numbers of one sign gives a number of that sign. *)
Lemma fadd_signed (b : bool) (x y : float) :
  signed b x -> signed b y -> signed b (fadd x y).
Proof.
  destruct x as [sx|sx| |sx mx ex], y as [sy|sy| |sy my ey]; simpl;
    intros Hx Hy; try contradiction; subst; try reflexivity; try exact I.
  - destruct sx, sy; exact I.
  - destruct b; reflexivity.
  - destruct b; simpl; apply binary_round_signed.
Qed.

(** A quotient [1 / d] has the sign of [d]. *)
Lemma quotient_signed (rank : nat) (k : Z) :
  (Z.of_nat rank + k <> 0)%Z ->
  signed (Z.of_nat rank + k <? 0)%Z (quotient rank k).
Proof.
  intros Hnz. unfold quotient.
  destruct (Z.of_nat rank + k)%Z as [|p|p] eqn:E; [congruence| |];
    cbn [of_int SFdiv xorb Z.ltb Z.compare];
    unfold SFdiv_core_binary;
    match goal with
    | |- context [Z.div_eucl ?a ?c] =>
        pose proof (Z.div_pos a c) as Hq; unfold Z.div in Hq;
        destruct (Z.div_eucl a c) as [q r]
    end;
    apply binary_round_aux_signed; apply Hq; try lia;
    match goal with
    | |- (0 <= match ?s with _ => _ end)%Z =>
        destruct s; [lia | apply Z.shiftl_nonneg; lia | lia]
    end.
Qed.

(** *** Python's comparison of floats that are numbers *)

Lemma SFleb_total (x y : float) :
  x <> S754_nan -> y <> S754_nan -> SFleb x y = false -> SFleb y x = true.
Proof.
  unfold SFleb, SFcompare.
  destruct x as [sx|sx| |sx mx ex], y as [sy|sy| |sy my ey];
    intros Hx Hy; try congruence;
    try (destruct sx); try (destruct sy); try discriminate; try reflexivity;
    change (Pos.compare_cont Eq mx my) with (Pos.compare mx my);
    change (Pos.compare_cont Eq my mx) with (Pos.compare my mx);
    rewrite (Z.compare_antisym ex ey), (Pos.compare_antisym mx my);
    destruct (ex ?= ey)%Z; simpl; try discriminate; try reflexivity;
    destruct (mx ?= my)%positive; simpl; try discriminate; reflexivity.
Qed.

Lemma SFleb_number (x y : float) :
  SFleb x y = true -> x <> S754_nan /\ y <> S754_nan.
Proof.
  unfold SFleb, SFcompare.
  destruct x as [sx|sx| |sx mx ex], y as [sy|sy| |sy my ey];
    intros H; try discriminate; split; discriminate.
Qed.

Lemma SFleb_trans (x y z : float) :
  SFleb x y = true -> SFleb y z = true -> SFleb x z = true.
Proof.
  unfold SFleb, SFcompare.
  destruct x as [sx|sx| |sx mx ex], y as [sy|sy| |sy my ey],
           z as [sz|sz| |sz mz ez];
    try discriminate;
    try (destruct sx); try (destruct sy); try (destruct sz);
    try discriminate; try reflexivity;
    change (Pos.compare_cont Eq mx my) with (Pos.compare mx my);
    change (Pos.compare_cont Eq my mz) with (Pos.compare my mz);
    change (Pos.compare_cont Eq mx mz) with (Pos.compare mx mz);
    destruct (Z.compare_spec ex ey); try discriminate;
    destruct (Z.compare_spec ey ez); try discriminate;
    destruct (Z.compare_spec ex ez); try reflexivity; try lia;
    subst;
    destruct (Pos.compare_spec mx my); simpl; try discriminate;
    destruct (Pos.compare_spec my mz); simpl; try discriminate;
    destruct (Pos.compare_spec mx mz); simpl; try reflexivity; lia.
Qed.

(** *** The dictionary of fused scores *)

Section Facts.
Context {Document : Type}.
Variable dumps : Document -> string.
Variable loads : string -> Document.

Lemma key_present (s : string) (d : dict) :
  dict_mem s d = true <-> s ∈ d.*1.
Proof.
  induction d as [|[k' v'] d IH]; simpl.
  - split; [discriminate | intros H; inversion H].
  - rewrite elem_of_cons. destruct (String.eqb_spec s k') as [->|Hne].
    + split; auto.
    + rewrite IH. split; [auto | intros [?|?]; [congruence | auto]].
Qed.

Lemma keys_after_set (s : string) (v : float) (d : dict) :
  (dict_set s v d).*1 = if dict_mem s d then d.*1 else d.*1 ++ [s].
Proof.
  induction d as [|[k' v'] d IH]; [reflexivity|]. cbn [dict_set dict_mem].
  destruct (String.eqb_spec s k') as [->|Hne]; [reflexivity|].
  rewrite !fmap_cons, IH. destruct (dict_mem s d); reflexivity.
Qed.

Lemma entry_after_set (s : string) (v : float) (d : dict) (s' : string) (v' : float) :
  NoDup d.*1 ->
  (s', v') ∈ dict_set s v d ->
  (s' = s /\ v' = v) \/ (s' <> s /\ (s', v') ∈ d).
Proof.
  induction d as [|[k' w] d IH]; simpl; intros Hnd Hin.
  - apply list_elem_of_singleton in Hin. inversion Hin. auto.
  - apply NoDup_cons in Hnd as [Hnotin Hnd'].
    destruct (String.eqb_spec s k') as [->|Hne];
      apply elem_of_cons in Hin as [Heq|Hin].
    + inversion Heq; auto.
    + right. split; [|apply elem_of_cons; auto]. intros ->. apply Hnotin.
      apply (list_elem_of_fmap_2 fst) in Hin. exact Hin.
    + inversion Heq; subst. right. split; [congruence | apply elem_of_cons; auto].
    + destruct (IH Hnd' Hin) as [?|[? ?]]; [auto|].
      right. split; [auto | apply elem_of_cons; auto].
Qed.

Lemma entry_of_key (s : string) (d : dict) :
  s ∈ d.*1 -> exists v, dict_get s d = Ok v /\ (s, v) ∈ d.
Proof.
  induction d as [|[k' w] d IH]; simpl; [intros H; inversion H|].
  intros Hin. destruct (String.eqb_spec s k') as [->|Hne].
  - exists w. split; [reflexivity | apply elem_of_cons; auto].
  - apply elem_of_cons in Hin as [?|Hin]; [congruence|].
    destruct (IH Hin) as (v & ? & ?). exists v.
    split; [assumption | apply elem_of_cons; auto].
Qed.

Lemma tracks_pointwise d f g seen seen' :
  tracks d f seen ->
  (forall s, f s = g s) -> (forall s, seen s <-> seen' s) ->
  tracks d g seen'.
Proof.
  intros (Hnd & Hk & Hv & Hz) Hfg Hss. repeat split.
  - exact Hnd.
  - intros H. apply Hss, Hk, H.
  - intros H. apply Hk, Hss, H.
  - intros s v Hin. rewrite <- Hfg. apply Hv, Hin.
  - intros s Hs. rewrite <- Hfg. apply Hz. intros H. apply Hs, Hss, H.
Qed.

Lemma reciprocal_value (rank : nat) (k : Z) :
  (Z.of_nat rank + k <> 0)%Z -> reciprocal rank k = Ok (quotient rank k).
Proof.
  intros Hnz. unfold reciprocal.
  destruct (Z.eqb_spec (Z.of_nat rank + k) 0); [contradiction | reflexivity].
Qed.

Lemma visit_prepares_key (key : string) (d : dict) :
  let d0 := if negb (dict_mem key d) then dict_set key (of_int 0) d else d in
  NoDup d.*1 ->
  NoDup d0.*1 /\ (key ∈ d0.*1)
  /\ (forall s, s ∈ d0.*1 <-> s ∈ d.*1 \/ key = s)
  /\ (forall s v, (s, v) ∈ d0 ->
        (s, v) ∈ d \/ (s = key /\ (key ∉ d.*1) /\ v = of_int 0)).
Proof.
  intros d0 Hnd. subst d0. destruct (dict_mem key d) eqn:Em; simpl.
  - apply key_present in Em. repeat split; auto.
    intros [H| <-]; auto.
  - assert (Hnotin : key ∉ d.*1).
    { intros H. apply key_present in H. congruence. }
    rewrite keys_after_set, Em. repeat split.
    + apply NoDup_app. repeat split; [exact Hnd | | apply NoDup_singleton].
      intros x Hx Hx'. apply list_elem_of_singleton in Hx'. congruence.
    + apply elem_of_app. right. apply list_elem_of_singleton. reflexivity.
    + intros H. apply elem_of_app in H as [H|H]; [auto|].
      apply list_elem_of_singleton in H. auto.
    + intros [H|H]; apply elem_of_app; [auto|].
      right. apply list_elem_of_singleton. auto.
    + intros s v H. apply entry_after_set in H; [|exact Hnd].
      destruct H as [[-> ->]|[_ H]]; auto.
Qed.

Lemma visit_tracks k d f seen rank doc :
  tracks d f seen ->
  (Z.of_nat rank + k <> 0)%Z ->
  exists d', rrf_visit dumps k d rank doc = Ok d'
    /\ tracks d'
         (fun s => if String.eqb (dumps doc) s
                   then fadd (f s) (quotient rank k) else f s)
         (fun s => seen s \/ dumps doc = s).
Proof.
  intros (Hnd & Hk & Hv & Hz) Hnz. unfold rrf_visit.
  set (key := dumps doc).
  destruct (visit_prepares_key key d Hnd) as (Hnd0 & Hin0 & Hk0 & Hv0).
  set (d0 := if negb (dict_mem key d) then dict_set key (of_int 0) d else d) in *.
  destruct (entry_of_key key d0 Hin0) as (prev & Hget & Hprev).
  rewrite Hget. simpl. rewrite (reciprocal_value rank k Hnz). simpl.
  eexists. split; [reflexivity|].
  assert (Hmem : dict_mem key d0 = true) by (apply key_present; exact Hin0).
  assert (Hold : forall s v, (s, v) ∈ d0 -> v = f s).
  { intros s v H. destruct (Hv0 s v H) as [H'|(-> & Hnew & ->)]; [apply Hv, H'|].
    symmetry. apply Hz. intros Hs. apply Hnew, Hk, Hs. }
  repeat split.
  - rewrite keys_after_set, Hmem. exact Hnd0.
  - rewrite keys_after_set, Hmem. intros H. apply Hk0 in H as [H|H]; [|auto].
    left. apply Hk, H.
  - rewrite keys_after_set, Hmem. intros [H|H]; apply Hk0; [|auto].
    left. apply Hk, H.
  - intros s v Hin. apply entry_after_set in Hin; [|exact Hnd0].
    destruct Hin as [[-> ->]|[Hne Hin]].
    + rewrite String.eqb_refl, (Hold key prev Hprev). reflexivity.
    + destruct (String.eqb_spec key s) as [<-|_]; [congruence|].
      apply Hold, Hin.
  - intros s Hs. destruct (String.eqb_spec key s) as [<-|_]; [tauto|].
    apply Hz. tauto.
Qed.

Lemma docs_track k docs : forall d f seen rank,
  tracks d f seen ->
  (forall i, (i < length docs)%nat -> (Z.of_nat (rank + i) + k <> 0)%Z) ->
  exists d', rrf_docs dumps k d rank docs = Ok d'
    /\ tracks d' (fun s => occurrence_sum dumps k s rank docs (f s))
                 (fun s => seen s \/ exists doc, doc ∈ docs /\ dumps doc = s).
Proof.
  induction docs as [|doc rest IH]; intros d f seen rank Ht Hnz; simpl.
  - exists d. split; [reflexivity|].
    apply (tracks_pointwise d f _ seen _ Ht).
    + reflexivity.
    + intros s. split; [auto | intros [H|(doc & H & _)]; [auto | inversion H]].
  - assert (Hnz0 : (Z.of_nat rank + k <> 0)%Z).
    { specialize (Hnz 0%nat). rewrite Nat.add_0_r in Hnz. apply Hnz. simpl. lia. }
    destruct (visit_tracks k d f seen rank doc Ht Hnz0) as (d1 & Hvis & Ht1).
    rewrite Hvis. simpl.
    destruct (IH d1 _ _ (S rank) Ht1) as (d2 & Hrest & Ht2).
    { intros i Hi. replace (S rank + i)%nat with (rank + S i)%nat by lia.
      apply Hnz. simpl. lia. }
    exists d2. split; [exact Hrest|].
    apply (tracks_pointwise _ _ _ _ _ Ht2).
    + reflexivity.
    + intros s. split.
      * intros [[H|H]|(doc' & H & Heq)]; [auto | |].
        -- right. exists doc. split; [apply elem_of_cons; auto | exact H].
        -- right. exists doc'. split; [apply elem_of_cons; auto | exact Heq].
      * intros [H|(doc' & H & Heq)]; [auto|].
        apply elem_of_cons in H as [->|H]; [auto|].
        right. exists doc'. auto.
Qed.

Lemma results_track k results : forall d f seen,
  tracks d f seen ->
  divisors_nonzero k results ->
  exists d', rrf_results dumps k d results = Ok d'
    /\ tracks d' (fun s => fused_score dumps k s results (f s))
                 (fun s => seen s \/ occurs dumps s results).
Proof.
  induction results as [|docs rest IH]; intros d f seen Ht Hnz; simpl.
  - exists d. split; [reflexivity|].
    apply (tracks_pointwise d f _ seen _ Ht).
    + reflexivity.
    + intros s. split; [auto | intros [H|(docs & doc & H & _)]; [auto | inversion H]].
  - destruct (docs_track k docs d f seen 0 Ht) as (d1 & Hdocs & Ht1).
    { intros i Hi. simpl. apply (Hnz docs i); [apply elem_of_cons; auto | exact Hi]. }
    rewrite Hdocs. simpl.
    destruct (IH d1 _ _ Ht1) as (d2 & Hrest & Ht2).
    { intros docs' rank H. apply Hnz. apply elem_of_cons. auto. }
    exists d2. split; [exact Hrest|].
    apply (tracks_pointwise _ _ _ _ _ Ht2).
    + reflexivity.
    + intros s. split.
      * intros [[H|(doc & H & Heq)]|(docs' & doc & H & H' & Heq)]; [auto | |].
        -- right. exists docs, doc. split; [apply elem_of_cons; auto | auto].
        -- right. exists docs', doc. split; [apply elem_of_cons; auto | auto].
      * intros [H|(docs' & doc & H & H' & Heq)]; [auto|].
        apply elem_of_cons in H as [->|H].
        -- left. right. exists doc. auto.
        -- right. exists docs', doc. auto.
Qed.

Lemma tracks_empty : tracks [] (fun _ => of_int 0) (fun _ => False).
Proof.
  split; [constructor|]. split; [|split].
  - intros s. split; [intros H; inversion H | intros []].
  - intros s v H. inversion H.
  - reflexivity.
Qed.

(** *** Every score has the sign of the divisors *)

Lemma occurrence_sum_signed (b : bool) (k : Z) (s : string) (docs : list Document) :
  forall rank acc,
    (forall i, (i < length docs)%nat ->
       (Z.of_nat (rank + i) + k <> 0)%Z
       /\ (Z.of_nat (rank + i) + k <? 0)%Z = b) ->
    signed b acc -> signed b (occurrence_sum dumps k s rank docs acc).
Proof.
  induction docs as [|doc rest IH]; intros rank acc Hdiv Hacc; simpl; [exact Hacc|].
  apply IH.
  - intros i Hi. replace (S rank + i)%nat with (rank + S i)%nat by lia.
    apply Hdiv. simpl. lia.
  - destruct (String.eqb (dumps doc) s); [|exact Hacc].
    destruct (Hdiv 0%nat) as [Hnz Hb]; [simpl; lia|].
    rewrite Nat.add_0_r in Hnz, Hb.
    apply fadd_signed; [exact Hacc|]. rewrite <- Hb. apply quotient_signed, Hnz.
Qed.

(** Without a zero divisor every divisor has the sign of [k]: the ranks
    of a list start at 0 and leave no gap, so they cannot step over [-k]. *)
Lemma divisors_sign (k : Z) (results : list (list Document)) :
  divisors_nonzero k results ->
  forall docs rank, docs ∈ results -> (rank < length docs)%nat ->
    (Z.of_nat rank + k <? 0)%Z = (k <? 0)%Z.
Proof.
  intros Hnz docs rank Hin Hlt.
  destruct (Z.ltb_spec k 0) as [Hk|Hk]; [|apply Z.ltb_ge; lia].
  apply Z.ltb_lt. destruct (Z.lt_ge_cases (Z.of_nat rank + k) 0) as [H|H]; [exact H|].
  exfalso. apply (Hnz docs (Z.to_nat (- k)) Hin); lia.
Qed.

Lemma fused_score_signed (k : Z) (s : string) (results : list (list Document)) :
  divisors_nonzero k results ->
  forall acc, signed (k <? 0)%Z acc ->
    signed (k <? 0)%Z (fused_score dumps k s results acc).
Proof.
  induction results as [|docs rest IH]; intros Hnz acc Hacc; simpl; [exact Hacc|].
  apply IH.
  - intros docs' rank H. apply Hnz, elem_of_cons. auto.
  - apply occurrence_sum_signed; [|exact Hacc].
    intros i Hi. simpl. split.
    + apply (Hnz docs i); [apply elem_of_cons; auto | exact Hi].
    + apply (divisors_sign k (docs :: rest) Hnz docs i); [apply elem_of_cons; auto | exact Hi].
Qed.

Lemma signed_number (b : bool) (x : float) : signed b x -> x <> S754_nan.
Proof. intros H ->. exact H. Qed.

(** *** The stable descending sort *)

Lemma insert_desc_permutes (x : string * float) (l : dict) :
  insert_desc x l ≡ₚ x :: l.
Proof.
  induction l as [|y l IH]; simpl; [reflexivity|].
  destruct (SFleb (snd y) (snd x)); [reflexivity|].
  rewrite IH. apply Permutation_swap.
Qed.

Lemma sorted_desc_permutes (l : dict) : sorted_desc l ≡ₚ l.
Proof.
  induction l as [|x l IH]; simpl; [reflexivity|].
  rewrite insert_desc_permutes, IH. reflexivity.
Qed.

Lemma insert_desc_orders (x : string * float) (l : dict) :
  snd x <> S754_nan -> Forall (fun y => snd y <> S754_nan) l ->
  StronglySorted score_ge l -> StronglySorted score_ge (insert_desc x l).
Proof.
  intros Hx Hnum Hsorted. induction Hsorted as [|y l Hs IH Hall]; simpl.
  - repeat constructor.
  - apply Forall_cons in Hnum as [Hy Hnum].
    destruct (SFleb (snd y) (snd x)) eqn:E.
    + constructor; [constructor; assumption|].
      constructor; [exact E|].
      eapply Forall_impl; [exact Hall|]. unfold score_ge.
      intros z Hz. eapply SFleb_trans; eassumption.
    + constructor; [exact (IH Hnum)|].
      rewrite insert_desc_permutes. constructor; [|exact Hall].
      unfold score_ge. apply SFleb_total; assumption.
Qed.

Lemma sorted_desc_orders (l : dict) :
  Forall (fun y => snd y <> S754_nan) l -> StronglySorted score_ge (sorted_desc l).
Proof.
  induction l as [|x l IH]; simpl; intros Hnum; [constructor|].
  apply Forall_cons in Hnum as [Hx Hnum].
  apply insert_desc_orders; [exact Hx | | apply IH, Hnum].
  rewrite sorted_desc_permutes. exact Hnum.
Qed.

Lemma order_kept_by_loads (items : dict) :
  StronglySorted score_ge items ->
  non_increasing (map (fun item => (loads (fst item), snd item)) items).
Proof.
  unfold non_increasing. induction 1 as [|y l Hs IH Hall]; simpl; constructor.
  - exact IH.
  - apply Forall_forall. intros z Hz. apply list_elem_of_In, in_map_iff in Hz.
    destruct Hz as (w & <- & Hw). unfold score_ge. simpl.
    rewrite Forall_forall in Hall. apply Hall, list_elem_of_In, Hw.
Qed.

(** What a run without zero divisor leaves in the dictionary. *)
Lemma rrf_results_scores (results : list (list Document)) (k : Z) :
  divisors_nonzero k results ->
  exists d : dict,
    rrf_results dumps k [] results = Ok d
    /\ NoDup d.*1
    /\ (forall s, s ∈ d.*1 <-> occurs dumps s results)
    /\ (forall s score, (s, score) ∈ d ->
          score = fused_score dumps k s results (of_int 0)
          /\ signed (k <? 0)%Z score).
Proof.
  intros Hnz.
  destruct (results_track k results [] _ _ tracks_empty Hnz)
    as (d & Hrun & Hnd & Hk & Hv & _).
  exists d. split; [exact Hrun|]. split; [exact Hnd|]. split.
  - intros s. rewrite Hk. split; [intros [[]|H]; exact H | auto].
  - intros s score H. rewrite (Hv s score H). split; [reflexivity|].
    apply fused_score_signed; [exact Hnz | exact I].
Qed.

(** C8, amended: whenever no occurrence has a zero divisor [rank + k]
    (so for every int [k > 0], and for the default 60), [rrf] returns one
    [(document, score)] pair per distinct serialized document; the score
    is the sum over the document's occurrences of [1 / (rank + k)], [rank]
    the 0-based position in its list, as Python computes it: every
    quotient and every addition rounded to binary64, the additions made in
    the order the occurrences are met; no score is NaN and the pairs are
    in non-increasing order of score. *)
Theorem rrf_fuses_and_sorts (results : list (list Document)) (k : Z) :
  divisors_nonzero k results ->
  exists items : dict,
    rrf dumps loads results k
      = Ok (map (fun item => (loads (fst item), snd item)) items)
    /\ NoDup items.*1
    /\ (forall s, s ∈ items.*1 <-> occurs dumps s results)
    /\ (forall s score, (s, score) ∈ items ->
          score = fused_score dumps k s results (of_int 0)
          /\ score <> S754_nan)
    /\ non_increasing (map (fun item => (loads (fst item), snd item)) items)
    /\ rrf_default dumps loads results = rrf dumps loads results 60.
Proof.
  intros Hnz.
  destruct (rrf_results_scores results k Hnz) as (d & Hrun & Hnd & Hk & Hv).
  exists (sorted_desc d). unfold rrf. rewrite Hrun. simpl.
  pose proof (sorted_desc_permutes d) as Hperm.
  repeat split.
  - rewrite Hperm. exact Hnd.
  - rewrite Hperm. apply Hk.
  - rewrite Hperm. apply Hk.
  - rewrite Hperm in H. apply (Hv s score H).
  - rewrite Hperm in H. destruct (Hv s score H) as [_ Hs].
    exact (signed_number _ _ Hs).
  - apply order_kept_by_loads, sorted_desc_orders.
    apply Forall_forall. intros [s v] Hin. simpl.
    destruct (Hv s v Hin) as [_ Hs]. exact (signed_number _ _ Hs).
Qed.
End Facts.

Lemma positive_k_no_zero_divisor {Document : Type}
    (results : list (list Document)) (k : Z) :
  (0 < k)%Z -> divisors_nonzero k results.
Proof. intros Hk docs rank _ _. lia. Qed.

Lemma rrf_fuses_and_sorts_witness :
  divisors_nonzero 60 Rrf.sample_results
  /\ exists items : dict,
      rrf id id Rrf.sample_results 60
        = Ok (map (fun item => (id (fst item), snd item)) items)
      /\ NoDup items.*1
      /\ (forall s, s ∈ items.*1 <-> occurs id s Rrf.sample_results)
      /\ (forall s score, (s, score) ∈ items ->
            score = fused_score id 60 s Rrf.sample_results (of_int 0)
            /\ score <> S754_nan)
      /\ non_increasing (map (fun item => (id (fst item), snd item)) items)
      /\ rrf_default id id Rrf.sample_results = rrf id id Rrf.sample_results 60.
Proof.
  assert (H : divisors_nonzero 60 Rrf.sample_results).
  { apply positive_k_no_zero_divisor. reflexivity. }
  split; [exact H | exact (rrf_fuses_and_sorts id id Rrf.sample_results 60 H)].
Defined.

(** C8 as stated, for every [k]: with [k = 0] the first document of a list
    has the divisor [0 + 0], Python raises [ZeroDivisionError] and no list
    of pairs is returned. *)
Lemma rrf_k_zero_raises :
  rrf (Document := string) id id [["a"%string]] 0 = Raise ZeroDivisionError
  /\ ~ exists out, rrf (Document := string) id id [["a"%string]] 0 = Ok out.
Proof.
  split; [reflexivity|]. intros [out H]. discriminate H.
Qed.

(** The two sample lists: the document found by both comes first, with
    the score 0.03306010928961749 that Python prints. *)
Example rrf_sample_results :
  rrf id id Rrf.sample_results 60
  = Ok [("b"%string, S754_finite false 4764463868081574 (-57));
        ("a"%string, S754_finite false 4803839602528529 (-58));
        ("c"%string, S754_finite false 4725088133634619 (-58))].
Proof. vm_compute. reflexivity. Qed.

(** Rounding decides between documents whose exact sums are equal: [x]
    and [y] take the ranks 1, 1, 2 and 3, in a different order, and [y]
    ends one unit in the last place above [x]. *)
Example rrf_mirrored_results :
  rrf id id mirrored_results 60
  = Ok [("f"%string, S754_finite false 4803839602528529 (-56));
        ("y"%string, S754_finite false 4668534659428931 (-56));
        ("x"%string, S754_finite false 4668534659428930 (-56));
        ("g"%string, S754_finite false 4648877034705028 (-57))].
Proof. vm_compute. reflexivity. Qed.
End Rrf64Facts.

(** ** RAPTOR *)

Module RaptorFacts.
Import Raptor.
Section Facts.
Context `{B : Backend}.

Lemma bind_ok {A C} (m : M A) (f : A -> M C) g t1 g1 a t2 g2 r :
  m g = (t1, g1, Ok a) -> f a g1 = (t2, g2, r) ->
  (m ≫= f) g = (t1 ++ t2, g2, r).
Proof.
  intros Hm Hf. unfold mbind, M_bind. rewrite Hm, Hf. reflexivity.
Qed.

Lemma bind_raise {A C} (m : M A) (f : A -> M C) g t1 g1 e :
  m g = (t1, g1, Raise e) -> (m ≫= f) g = (t1, g1, Raise e).
Proof.
  intros Hm. unfold mbind, M_bind. rewrite Hm. reflexivity.
Qed.

Lemma global_cluster_embeddings_run (X : matrix) (dim : nat) (g : rng_state) :
  X <> [] ->
  global_cluster_embeddings X dim None "cosine" g
  = ([EvUMAP (Nat.sqrt (length X - 1)) dim "cosine" X],
     (UMAP_fit_transform None (Nat.sqrt (length X - 1)) dim "cosine" X g).2,
     Ok (UMAP_fit_transform None (Nat.sqrt (length X - 1)) dim "cosine" X g).1).
Proof.
  intros Hne. unfold global_cluster_embeddings.
  destruct X as [|x X]; [congruence|]. cbn [length Nat.eqb].
  unfold mbind, M_bind, mret, M_ret, umap.
  destruct (UMAP_fit_transform None _ dim "cosine" (x :: X) g) as [Y g1]. reflexivity.
Qed.

Lemma bic_loop_run (random_state : Z) (X : matrix) (ns : list nat) (g : rng_state) :
  bic_loop random_state X ns g
  = (map (fun n => EvBIC n random_state X) ns, g,
     Ok (map (fun n => GaussianMixture_bic n random_state X) ns)).
Proof.
  induction ns as [|n ns IH]; [reflexivity|].
  cbn [bic_loop map]. unfold mbind, M_bind, emit.
  rewrite IH. unfold mret, M_ret. simpl. rewrite app_nil_r. reflexivity.
Qed.

Lemma argmin_from_least (l : list Q) : forall pre best_i best,
  pre !! best_i = Some best ->
  (forall y, y ∈ pre -> (best <= y)%Q) ->
  exists v, (pre ++ l) !! argmin_from best_i best (length pre) l = Some v
            /\ forall y, y ∈ pre ++ l -> (v <= y)%Q.
Proof.
  induction l as [|x l IH]; intros pre best_i best Hlook Hleast; simpl.
  - exists best. rewrite app_nil_r. auto.
  - replace (pre ++ x :: l) with ((pre ++ [x]) ++ l) by (rewrite <- app_assoc; reflexivity).
    replace (S (length pre)) with (length (pre ++ [x])) by (rewrite length_app; simpl; lia).
    destruct (Qle_bool best x) eqn:E.
    + apply Qle_bool_iff in E. apply IH.
      * apply lookup_app_l_Some, Hlook.
      * intros y Hy. apply elem_of_app in Hy as [Hy|Hy]; [auto|].
        apply list_elem_of_singleton in Hy. subst. exact E.
    + assert (Hlt : (x < best)%Q).
      { destruct (Qlt_le_dec x best) as [H|H]; [exact H|].
        apply Qle_bool_iff in H. congruence. }
      apply IH.
      * rewrite lookup_app_r by lia. rewrite Nat.sub_diag. reflexivity.
      * intros y Hy. apply elem_of_app in Hy as [Hy|Hy].
        -- apply Qlt_le_weak. eapply Qlt_le_trans; [exact Hlt | auto].
        -- apply list_elem_of_singleton in Hy. subst. apply Qle_refl.
Qed.

Lemma argmin_least (l : list Q) :
  l <> [] ->
  exists i v, argmin l = Ok i /\ l !! i = Some v /\ forall y, y ∈ l -> (v <= y)%Q.
Proof.
  destruct l as [|x l]; [congruence|]. intros _.
  destruct (argmin_from_least l [x] 0 x eq_refl) as (v & Hv & Hleast).
  { intros y Hy. apply list_elem_of_singleton in Hy. subst. apply Qle_refl. }
  exists (argmin_from 0 x 1 l), v. auto.
Qed.

Lemma where_gt_from_spec (prob : list Q) (threshold : Q) : forall j0 j,
  j ∈ where_gt_from j0 prob threshold
  <-> exists k p, j = (j0 + k)%nat /\ prob !! k = Some p /\ (threshold < p)%Q.
Proof.
  induction prob as [|p prob IH]; intros j0 j; simpl.
  - split; [intros H; inversion H | intros (k & q & _ & H & _); discriminate].
  - assert (Hp : Qle_bool p threshold = false <-> (threshold < p)%Q).
    { split.
      - intros E. destruct (Qlt_le_dec threshold p) as [H|H]; [exact H|].
        apply Qle_bool_iff in H. congruence.
      - intros H. destruct (Qle_bool p threshold) eqn:E; [|reflexivity].
        apply Qle_bool_iff in E. exfalso. exact (Qlt_not_le _ _ H E). }
    destruct (Qle_bool p threshold) eqn:E.
    + rewrite IH. split.
      * intros (k & q & -> & Hk & Hq). exists (S k), q. split; [lia | auto].
      * intros (k & q & -> & Hk & Hq). destruct k as [|k].
        -- simpl in Hk. inversion Hk; subst. apply Hp in Hq. congruence.
        -- exists k, q. split; [lia | auto].
    + rewrite elem_of_cons, IH. split.
      * intros [->|(k & q & -> & Hk & Hq)].
        -- exists 0%nat, p. split; [lia | split; [reflexivity | apply Hp; reflexivity]].
        -- exists (S k), q. split; [lia | auto].
      * intros (k & q & -> & Hk & Hq). destruct k as [|k].
        -- left. lia.
        -- right. exists k, q. split; [lia | auto].
Qed.

Lemma get_optimal_clusters_run (X : matrix) (max_clusters : nat) (random_state : Z)
    (g : rng_state) :
  2 <= Nat.min max_clusters (length X) ->
  exists n,
    get_optimal_clusters X max_clusters random_state g
      = (bic_events max_clusters random_state X, g, Ok n)
    /\ 1 <= n <= Nat.min max_clusters (length X) - 1
    /\ forall c, 1 <= c <= Nat.min max_clusters (length X) - 1 ->
         (GaussianMixture_bic n random_state X
          <= GaussianMixture_bic c random_state X)%Q.
Proof.
  intros Hsize. unfold get_optimal_clusters, bic_events.
  set (cands := arange_from_1 (Nat.min max_clusters (length X))).
  assert (Hc : forall c, c ∈ cands <-> 1 <= c <= Nat.min max_clusters (length X) - 1).
  { intros c. unfold cands, arange_from_1. rewrite elem_of_seq. lia. }
  destruct (argmin_least (map (fun n => GaussianMixture_bic n random_state X) cands))
    as (i & v & Harg & Hi & Hleast).
  { unfold cands, arange_from_1.
    destruct (Nat.min max_clusters (length X) - 1) eqn:E; [lia | discriminate]. }
  rewrite lookup_map in Hi.
  destruct (cands !! i) as [n|] eqn:Hn; [|discriminate]. simpl in Hi.
  inversion Hi; subst v. clear Hi.
  exists n. split; [|split].
  - unfold mbind, M_bind. rewrite bic_loop_run. unfold lift. rewrite Harg.
    unfold index. rewrite Hn. simpl. rewrite !app_nil_r. reflexivity.
  - apply Hc. eapply list_elem_of_lookup_2, Hn.
  - intros c Hin. apply Hleast. apply Hc in Hin.
    apply elem_of_map. exists c. auto.
Qed.

(** C3: on at least two embeddings, [GMM_cluster] uses the number of
    components that [get_optimal_clusters] finds, which is a candidate
    of [1 .. min(50, len) - 1] of least BIC, and gives each embedding
    every component index whose posterior exceeds the threshold. *)
Theorem GMM_cluster_soft_assignment (X : matrix) (threshold : Q) (random_state : Z)
    (g : rng_state) :
  2 <= length X ->
  exists n labels,
    get_optimal_clusters X 50 RANDOM_SEED g = (bic_events 50 RANDOM_SEED X, g, Ok n)
    /\ GMM_cluster X threshold random_state g
       = (bic_events 50 RANDOM_SEED X ++ [EvGMM n random_state X], g, Ok (labels, n))
    /\ 1 <= n <= Nat.min 50 (length X) - 1
    /\ (forall c, 1 <= c <= Nat.min 50 (length X) - 1 ->
          (GaussianMixture_bic n RANDOM_SEED X <= GaussianMixture_bic c RANDOM_SEED X)%Q)
    /\ length labels = length (GaussianMixture_predict_proba n random_state X)
    /\ forall i prob, GaussianMixture_predict_proba n random_state X !! i = Some prob ->
         exists ids, labels !! i = Some ids
           /\ forall j, j ∈ ids <-> exists p, prob !! j = Some p /\ (threshold < p)%Q.
Proof.
  intros Hsize.
  destruct (get_optimal_clusters_run X 50 RANDOM_SEED g) as (n & Hrun & Hn & Hleast);
    [lia|].
  exists n, (map (fun prob => where_gt prob threshold)
                 (GaussianMixture_predict_proba n random_state X)).
  split; [exact Hrun|]. split; [|split; [exact Hn|split; [exact Hleast|split]]].
  - unfold GMM_cluster, mbind, M_bind. rewrite Hrun. reflexivity.
  - apply length_map.
  - intros i prob Hi. exists (where_gt prob threshold). split.
    + rewrite lookup_map, Hi. reflexivity.
    + intros j. unfold where_gt. rewrite where_gt_from_spec. split.
      * intros (k & p & -> & Hk & Hp). exists p. auto.
      * intros (p & Hk & Hp). exists j, p. auto.
Qed.

(** *** Masks, matching rows and label assignment *)

Lemma member_elem (i : nat) (gc : list nat) : member i gc = true <-> i ∈ gc.
Proof.
  unfold member. rewrite existsb_exists, list_elem_of_In. split.
  - intros (x & Hx & E). apply Nat.eqb_eq in E. subst. exact Hx.
  - intros H. exists i. split; [exact H | apply Nat.eqb_refl].
Qed.

Lemma select_elem {A} (mask : list bool) : forall (rows : list A) (r : A),
  r ∈ select mask rows
  <-> exists k, mask !! k = Some true /\ rows !! k = Some r.
Proof.
  induction mask as [|b mask IH]; intros [|x rows] r; simpl.
  - split; [intros H; inversion H | intros (k & H & _); discriminate].
  - split; [intros H; inversion H | intros (k & H & _); discriminate].
  - split; [intros H; destruct b; inversion H | intros (k & _ & H); discriminate].
  - destruct b.
    + rewrite elem_of_cons, IH. split.
      * intros [->|(k & Hm & Hr)]; [exists 0%nat; auto | exists (S k); auto].
      * intros ([|k] & Hm & Hr); simpl in *; [left; congruence | right; eauto].
    + rewrite IH. split.
      * intros (k & Hm & Hr). exists (S k). auto.
      * intros ([|k] & Hm & Hr); simpl in *; [discriminate | eauto].
Qed.

Lemma select_length {A} (mask : list bool) : forall rows : list A,
  length (select mask rows) <= length rows.
Proof.
  induction mask as [|b mask IH]; intros [|x rows]; simpl; try lia.
  specialize (IH rows). destruct b; simpl; lia.
Qed.

Lemma mask_select_ok {A C} (f : C -> bool) (marks : list C) (rows : list A) :
  length marks = length rows ->
  mask_select (map f marks) rows = Ok (select (map f marks) rows).
Proof.
  intros Hlen. unfold mask_select. rewrite length_map, Hlen, Nat.eqb_refl. reflexivity.
Qed.

(** A row of [rows] chosen by the marks [f], told by its position. *)
Lemma select_map_elem {A C} (f : C -> bool) (marks : list C) (rows : list A) (r : A) :
  r ∈ select (map f marks) rows
  <-> exists k m, marks !! k = Some m /\ f m = true /\ rows !! k = Some r.
Proof.
  rewrite select_elem. split.
  - intros (k & Hm & Hr). rewrite lookup_map in Hm.
    destruct (marks !! k) as [m|] eqn:E; [|discriminate]. simpl in Hm.
    exists k, m. split; [exact E|]. split; [congruence | exact Hr].
  - intros (k & m & Hk & Hf & Hr). exists k. rewrite lookup_map, Hk. simpl.
    split; [congruence | exact Hr].
Qed.

Lemma positions_from_spec (X : matrix) (r : list Q) : forall i0 idx,
  idx ∈ positions_from i0 X r
  <-> exists k e, idx = (i0 + k)%nat /\ X !! k = Some e /\ row_eqb e r = true.
Proof.
  induction X as [|e X IH]; intros i0 idx; simpl.
  - split; [intros H; inversion H | intros (k & e & _ & H & _); discriminate].
  - destruct (row_eqb e r) eqn:E.
    + rewrite elem_of_cons, IH. split.
      * intros [->|(k & e' & -> & Hk & He)].
        -- exists 0%nat, e. split; [lia | auto].
        -- exists (S k), e'. split; [lia | auto].
      * intros ([|k] & e' & -> & Hk & He); [left; lia|].
        right. exists k, e'. split; [lia | auto].
    + rewrite IH. split.
      * intros (k & e' & -> & Hk & He). exists (S k), e'. split; [lia | auto].
      * intros ([|k] & e' & -> & Hk & He); simpl in Hk.
        -- inversion Hk; subst. congruence.
        -- exists k, e'. split; [lia | auto].
Qed.

Lemma matching_indices_spec (X rows : matrix) (idx : nat) :
  idx ∈ matching_indices X rows
  <-> exists r e, r ∈ rows /\ X !! idx = Some e /\ row_eqb e r = true.
Proof.
  unfold matching_indices. rewrite list_elem_of_In, in_flat_map. split.
  - intros (r & Hr & Hin). apply list_elem_of_In, positions_from_spec in Hin.
    destruct Hin as (k & e & -> & Hk & He). exists r, e.
    split; [apply list_elem_of_In, Hr | auto].
  - intros (r & e & Hr & Hk & He). exists r. split; [apply list_elem_of_In, Hr|].
    apply list_elem_of_In, positions_from_spec. exists idx, e. auto.
Qed.

Lemma append_label_spec (label : nat) (indices : list nat) :
  forall all : list (list nat),
    length (append_label label all indices) = length all
    /\ forall idx ids, all !! idx = Some ids ->
        exists ids', append_label label all indices !! idx = Some ids'
          /\ forall c, c ∈ ids' <-> c ∈ ids \/ (c = label /\ idx ∈ indices).
Proof.
  unfold append_label.
  induction indices as [|i indices IH]; intros all; simpl.
  - split; [reflexivity|]. intros idx ids H. exists ids. split; [exact H|].
    intros c. split; [auto | intros [?|[_ Hin]]; [auto | inversion Hin]].
  - destruct (IH (alter (fun ids => ids ++ [label]) i all)) as (Hlen & Hspec).
    split; [rewrite Hlen; apply length_alter|].
    intros idx ids Hidx. destruct (decide (i = idx)) as [->|Hne].
    + destruct (Hspec idx (ids ++ [label])) as (ids' & Hlook & Hmem).
      { rewrite list_lookup_alter_eq, Hidx. reflexivity. }
      exists ids'. split; [exact Hlook|]. intros c. rewrite Hmem, elem_of_app,
        list_elem_of_singleton, elem_of_cons. tauto.
    + destruct (Hspec idx ids) as (ids' & Hlook & Hmem).
      { rewrite list_lookup_alter_ne by exact Hne. exact Hidx. }
      exists ids'. split; [exact Hlook|]. intros c. rewrite Hmem, elem_of_cons.
      split; [tauto|]. intros [?|[? [?|?]]]; [tauto | congruence | tauto].
Qed.

Lemma assign_local_spec (X members : matrix) (local_clusters : list (list nat))
    (total : nat) (js : list nat) :
  length local_clusters = length members ->
  forall all : list (list nat),
  exists all',
    assign_local X members local_clusters total js all = Ok all'
    /\ length all' = length all
    /\ forall idx ids, all !! idx = Some ids ->
        exists ids', all' !! idx = Some ids'
          /\ forall c, c ∈ ids' <->
               c ∈ ids \/ exists j, j ∈ js /\ c = (j + total)%nat
                                    /\ hit X members local_clusters j idx.
Proof.
  intros Hlen. induction js as [|j js IH]; intros all; simpl.
  - exists all. split; [reflexivity|]. split; [reflexivity|].
    intros idx ids H. exists ids. split; [exact H|]. intros c.
    split; [auto | intros [?|(j & Hj & _)]; [auto | inversion Hj]].
  - rewrite (mask_select_ok (member j) local_clusters members Hlen). simpl.
    set (indices := matching_indices X (select (map (member j) local_clusters) members)).
    destruct (append_label_spec (j + total) indices all) as (Hlen1 & Hspec1).
    destruct (IH (append_label (j + total) all indices)) as (all' & Hrun & Hlen2 & Hspec2).
    exists all'. split; [exact Hrun|]. split; [lia|].
    intros idx ids Hidx.
    destruct (Hspec1 idx ids Hidx) as (ids1 & Hlook1 & Hmem1).
    destruct (Hspec2 idx ids1 Hlook1) as (ids2 & Hlook2 & Hmem2).
    exists ids2. split; [exact Hlook2|]. intros c. rewrite Hmem2, Hmem1.
    assert (Hhit : idx ∈ indices <-> hit X members local_clusters j idx).
    { unfold indices. rewrite matching_indices_spec. split.
      - intros (r & e & Hr & He & Heq). apply select_map_elem in Hr.
        destruct Hr as (k & ids0 & Hk & Hm & Hr). apply member_elem in Hm.
        exists k, r, ids0, e. auto.
      - intros (k & r & ids0 & e & Hr & Hk & Hm & He & Heq). exists r, e.
        split; [|auto]. apply select_map_elem. exists k, ids0.
        split; [exact Hk|]. split; [apply member_elem, Hm | exact Hr]. }
    split.
    + intros [[?|[-> Hin]]|(j' & Hj' & -> & Hh)]; [auto | |].
      * right. exists j. split; [apply elem_of_cons; auto|]. split; [reflexivity|].
        apply Hhit, Hin.
      * right. exists j'. split; [apply elem_of_cons; auto | auto].
    + intros [?|(j' & Hj' & -> & Hh)]; [auto|].
      apply elem_of_cons in Hj' as [->|Hj'].
      * left. right. split; [reflexivity | apply Hhit, Hh].
      * right. exists j'. auto.
Qed.

(** *** The clustering of one global cluster, and the loop over them *)

Context {L : BackendLaws B}.

Lemma GMM_cluster_run (X : matrix) (threshold : Q) (g : rng_state) :
  2 <= length X ->
  exists n,
    GMM_cluster X threshold 0 g
      = (gmm_events n X, g,
         Ok (map (fun prob => where_gt prob threshold)
                 (GaussianMixture_predict_proba n 0 X), n))
    /\ 1 <= n <= Nat.min 50 (length X) - 1.
Proof.
  intros Hsize.
  destruct (get_optimal_clusters_run X 50 RANDOM_SEED g) as (n & Hrun & Hn & _); [lia|].
  exists n. split; [|exact Hn].
  unfold GMM_cluster, mbind, M_bind. rewrite Hrun. reflexivity.
Qed.

Lemma local_clustering_run (members : matrix) (dim : nat) (threshold : Q)
    (g : rng_state) :
  exists t g' local_clusters n,
    local_clustering members dim threshold g = (t, g', Ok (local_clusters, n))
    /\ run_ok dim threshold
         {| lr_members := members; lr_clusters := local_clusters; lr_n := n;
            lr_offset := 0; lr_trace := t |}.
Proof.
  unfold local_clustering, run_ok. simpl.
  destruct (length members <=? dim + 1) eqn:E.
  - apply Nat.leb_le in E. exists [], g, (map (fun _ => [0]) members), 1.
    split; [reflexivity|]. rewrite length_map. split; [reflexivity|].
    split; [lia|]. left. auto.
  - apply Nat.leb_gt in E.
    unfold local_cluster_embeddings, umap, mbind, M_bind.
    pose proof (UMAP_rows 10 dim "cosine" members g) as Hrows.
    destruct (UMAP_fit_transform None 10 dim "cosine" members g) as [reduced g1] eqn:EU.
    simpl in Hrows.
    destruct (GMM_cluster_run reduced threshold g1) as (n & Hrun & Hn); [lia|].
    rewrite Hrun. eexists _, g1, _, n. split; [reflexivity|].
    rewrite length_map, predict_proba_rows. split; [exact Hrows|].
    split; [lia|]. right. split; [exact E|].
    exists g, reduced. rewrite EU. auto.
Qed.

Lemma global_loop_run (X : matrix) (dim : nat) (threshold : Q)
    (global_clusters : list (list nat)) :
  length global_clusters = length X ->
  forall (is_ : list nat) (all : list (list nat)) (total : nat) (g : rng_state),
  exists runs g' all',
    global_loop X dim threshold global_clusters is_ all total g
      = (flat_map lr_trace runs, g', Ok all')
    /\ length all' = length all
    /\ map lr_members runs = nonempty_clusters X global_clusters is_
    /\ Forall (run_ok dim threshold) runs
    /\ offsets_from total runs
    /\ forall idx ids, all !! idx = Some ids ->
        exists ids', all' !! idx = Some ids'
          /\ forall c, c ∈ ids' <-> c ∈ ids \/ labelled X runs idx c.
Proof.
  intros Hlen. induction is_ as [|i is_ IH]; intros all total g.
  - exists [], g, all. simpl. repeat split; auto.
    intros idx ids H. exists ids. split; [exact H|]. intros c.
    split; [auto | intros [?|(run & j & Hin & _)]; [auto | inversion Hin]].
  - cbn [global_loop]. unfold mbind at 1, M_bind at 1, lift at 1.
    rewrite (mask_select_ok (member i) global_clusters X Hlen).
    set (members := select (map (member i) global_clusters) X).
    unfold nonempty_clusters. cbn [map List.filter]. fold members.
    destruct (length members =? 0) eqn:E0; cbn [negb].
    + destruct (IH all total g) as (runs & g' & all' & Hrun & H).
      exists runs, g', all'. rewrite Hrun. split; [reflexivity | exact H].
    + destruct (local_clustering_run members dim threshold g)
        as (t & g1 & lc & n & Hlocal & Hok).
      unfold mbind at 1, M_bind at 1. rewrite Hlocal.
      pose proof Hok as (Hlc & Hn & _). simpl in Hlc, Hn.
      destruct (assign_local_spec X members lc total (seq 0 n) Hlc all)
        as (all1 & Hassign & Hlen1 & Hspec1).
      unfold mbind at 1, M_bind at 1, lift at 1. rewrite Hassign.
      destruct (IH all1 (total + n) g1)
        as (runs & g' & all' & Hrun & Hlen2 & Hmem & Hoks & Hoff & Hspec2).
      rewrite Hrun.
      exists ({| lr_members := members; lr_clusters := lc; lr_n := n;
                 lr_offset := total; lr_trace := t |} :: runs), g', all'.
      split; [reflexivity|].
      split; [lia|]. split; [simpl; f_equal; exact Hmem|].
      split; [constructor; [exact Hok | exact Hoks]|].
      split; [simpl; auto|].
      intros idx ids Hidx.
      destruct (Hspec1 idx ids Hidx) as (ids1 & Hlook1 & Hmem1).
      destruct (Hspec2 idx ids1 Hlook1) as (ids2 & Hlook2 & Hmem2).
      exists ids2. split; [exact Hlook2|]. intros c. rewrite Hmem2, Hmem1.
      split.
      * intros [[?|(j & Hj & -> & Hh)]|(run & j & Hin & Hj & -> & Hh)]; [auto | |].
        -- right. eexists _, j. split; [apply elem_of_cons; left; reflexivity|].
           apply elem_of_seq in Hj. simpl. split; [lia | auto].
        -- right. exists run, j. split; [apply elem_of_cons; auto | auto].
      * intros [?|(run & j & Hin & Hj & -> & Hh)]; [auto|].
        apply elem_of_cons in Hin as [->|Hin]; simpl in *.
        -- left. right. exists j. split; [apply elem_of_seq; lia | auto].
        -- right. exists run, j. auto.
Qed.

Lemma perform_clustering_small (X : matrix) (dim : nat) (threshold : Q) (g : rng_state) :
  length X <= dim + 1 ->
  perform_clustering X dim threshold g = ([], g, Ok (map (fun _ => [0]) X)).
Proof.
  intros Hsmall. unfold perform_clustering.
  apply Nat.leb_le in Hsmall. rewrite Hsmall. reflexivity.
Qed.

Lemma perform_clustering_run (X : matrix) (dim : nat) (threshold : Q) (g : rng_state) :
  dim + 1 < length X ->
  staged_clustering (run_ok dim threshold) X dim threshold g.
Proof.
  intros Hbig. unfold staged_clustering, perform_clustering.
  assert (E : (length X <=? dim + 1) = false) by (apply Nat.leb_gt; exact Hbig).
  rewrite E.
  assert (Hne : X <> []) by (intros ->; simpl in Hbig; lia).
  pose proof (global_cluster_embeddings_run X dim g Hne) as Hglobal.
  pose proof (UMAP_rows (Nat.sqrt (length X - 1)) dim "cosine" X g) as Hrows.
  destruct (UMAP_fit_transform None (Nat.sqrt (length X - 1)) dim "cosine" X g)
    as [reduced g1] eqn:EU.
  cbn [fst snd] in *.
  destruct (GMM_cluster_run reduced threshold g1) as (n & Hgmm & Hn); [lia|].
  set (gcs := map (fun prob => where_gt prob threshold)
                  (GaussianMixture_predict_proba n 0 reduced)) in *.
  assert (Hlen : length gcs = length X).
  { unfold gcs. rewrite length_map, predict_proba_rows. exact Hrows. }
  destruct (global_loop_run X dim threshold gcs Hlen (seq 0 n)
              (map (fun _ => []) X) 0 g1)
    as (runs & g' & labels & Hloop & Hlen' & Hmem & Hoks & Hoff & Hspec).
  exists n, runs, g', labels.
  split.
  { eapply (bind_ok _ _ _ _ _ _ _ _ _ Hglobal).
    eapply (bind_ok _ _ _ _ _ _ _ _ _ Hgmm). exact Hloop. }
  split; [rewrite <- Hrows; exact Hn|].
  split; [rewrite Hlen', length_map; reflexivity|].
  split; [exact Hmem|]. split; [exact Hoks|]. split; [exact Hoff|].
  intros idx Hidx.
  destruct (Hspec idx []) as (ids & Hlook & Hids).
  { rewrite lookup_map. destruct (lookup_lt_is_Some_2 X idx Hidx) as [e ->].
    reflexivity. }
  exists ids. split; [exact Hlook|]. intros c. rewrite Hids.
  split; [intros [H|H]; [inversion H | exact H] | auto].
Qed.

(** Every mixture fitted on behalf of a run is fitted on two rows or more. *)
Lemma run_fits_two_rows (dim : nat) (threshold : Q) (run : local_run)
    (n : nat) (seed : Z) (Y : matrix) :
  run_ok dim threshold run ->
  EvBIC n seed Y ∈ lr_trace run \/ EvGMM n seed Y ∈ lr_trace run ->
  2 <= length Y.
Proof.
  intros (_ & _ & [(_ & Ht & _)|(Hbig & g & reduced & Hred & Ht & _)]) Hin.
  - rewrite Ht in Hin. destruct Hin as [H|H]; inversion H.
  - assert (Hrows : length reduced = length (lr_members run)).
    { rewrite Hred. apply UMAP_rows. }
    rewrite Ht in Hin. unfold gmm_events, bic_events in Hin.
    assert (HY : Y = reduced).
    { destruct Hin as [H|H]; apply elem_of_cons in H as [H|H]; try discriminate;
        apply elem_of_app in H as [H|H].
      - apply elem_of_map in H as (c & Heq & _). congruence.
      - apply list_elem_of_singleton in H. discriminate.
      - apply elem_of_map in H as (c & Heq & _). discriminate.
      - apply list_elem_of_singleton in H. congruence. }
    subst Y. lia.
Qed.

(** C9: with at most [dim + 1] rows, [perform_clustering] gives every
    embedding the single label 0 and calls neither UMAP nor a Gaussian
    mixture.  So every mixture it ever fits, and with it every call of
    [get_optimal_clusters], is on at least two rows, where the range of
    candidates is not empty and the argmin over the BIC values exists. *)
Theorem small_inputs_skip_clustering (X : matrix) (dim : nat) (threshold : Q)
    (g : rng_state) :
  (length X <= dim + 1 ->
     perform_clustering X dim threshold g = ([], g, Ok (map (fun _ => [0]) X)))
  /\ (exists t g' labels,
        perform_clustering X dim threshold g = (t, g', Ok labels)
        /\ forall n seed Y, EvBIC n seed Y ∈ t \/ EvGMM n seed Y ∈ t ->
             2 <= length Y
             /\ arange_from_1 (Nat.min 50 (length Y)) <> []
             /\ forall g0, exists k,
                  get_optimal_clusters Y 50 RANDOM_SEED g0
                    = (bic_events 50 RANDOM_SEED Y, g0, Ok k)).
Proof.
  split; [apply perform_clustering_small|].
  assert (Hwell : forall Y : matrix, 2 <= length Y ->
            2 <= length Y
            /\ arange_from_1 (Nat.min 50 (length Y)) <> []
            /\ forall g0, exists k,
                 get_optimal_clusters Y 50 RANDOM_SEED g0
                   = (bic_events 50 RANDOM_SEED Y, g0, Ok k)).
  { intros Y HY. split; [exact HY|]. split.
    - unfold arange_from_1. destruct (Nat.min 50 (length Y) - 1) eqn:E; [lia | discriminate].
    - intros g0. destruct (get_optimal_clusters_run Y 50 RANDOM_SEED g0) as (k & Hk & _);
        [lia | eauto]. }
  destruct (Nat.le_gt_cases (length X) (dim + 1)) as [Hsmall|Hbig].
  - exists [], g, (map (fun _ => [0]) X).
    split; [apply perform_clustering_small, Hsmall|].
    intros n seed Y [H|H]; inversion H.
  - destruct (perform_clustering_run X dim threshold g Hbig)
      as (n & runs & g' & labels & Hrun & _ & _ & _ & Hoks & _).
    cbn zeta in Hrun. eexists _, g', labels. split; [exact Hrun|].
    intros k seed Y Hin. apply Hwell.
    pose proof (UMAP_rows (Nat.sqrt (length X - 1)) dim "cosine" X g) as Hrows.
    set (reduced := (UMAP_fit_transform None (Nat.sqrt (length X - 1)) dim "cosine" X g).1)
      in *.
    assert (Hcases : (EvBIC k seed Y ∈ gmm_events n reduced
                      \/ EvGMM k seed Y ∈ gmm_events n reduced)
                     \/ exists run, run ∈ runs
                          /\ (EvBIC k seed Y ∈ lr_trace run
                              \/ EvGMM k seed Y ∈ lr_trace run)).
    { assert (Hsplit : forall e, e ∈ flat_map lr_trace runs ->
                exists run, run ∈ runs /\ e ∈ lr_trace run).
      { intros e He. apply list_elem_of_In, in_flat_map in He.
        destruct He as (run & H1 & H2). exists run.
        split; apply list_elem_of_In; assumption. }
      destruct Hin as [H|H]; apply elem_of_cons in H as [H|H]; try discriminate;
        apply elem_of_app in H as [H|H]; auto;
        destruct (Hsplit _ H) as (run & H1 & H2); right; exists run; auto. }
    destruct Hcases as [Hglobal|(run & Hrun_in & Hev)].
    + assert (HY : Y = reduced).
      { unfold gmm_events, bic_events in Hglobal.
        destruct Hglobal as [H|H]; apply elem_of_app in H as [H|H].
        - apply elem_of_map in H as (c & Heq & _). congruence.
        - apply list_elem_of_singleton in H. discriminate.
        - apply elem_of_map in H as (c & Heq & _). discriminate.
        - apply list_elem_of_singleton in H. congruence. }
      subst Y. lia.
    + rewrite Forall_forall in Hoks.
      exact (run_fits_two_rows dim threshold run k seed Y (Hoks run Hrun_in) Hev).
Qed.

(** *** The recursion over levels *)

Lemma bind_head {A C} (m : M A) (f : A -> M C) (g : rng_state) (e : event) :
  (exists t, (m g).1.1 = e :: t) -> exists t, ((m ≫= f) g).1.1 = e :: t.
Proof.
  intros (t & Ht). unfold mbind, M_bind.
  destruct (m g) as [[t1 g1] [a|x]]; simpl in *; subst t1.
  - destruct (f a g1) as [[t2 g2] r2]. simpl. eauto.
  - eauto.
Qed.

Lemma embed_cluster_summarize_texts_head (texts : list string) (level : Z)
    (g : rng_state) :
  exists t, (embed_cluster_summarize_texts texts level g).1.1 = EvEmbed texts :: t.
Proof.
  unfold embed_cluster_summarize_texts, embed_cluster_texts.
  apply bind_head, bind_head. exists []. reflexivity.
Qed.

Lemma recursive_fuel_head (fuel : nat) (texts : list string) (level n_levels : Z)
    (g : rng_state) t g' r :
  recursive_embed_cluster_summarize_fuel fuel texts level n_levels g = Some (t, g', r) ->
  exists t', t = EvEmbed texts :: t'.
Proof.
  destruct fuel as [|fuel]; [discriminate|]. simpl.
  destruct (embed_cluster_summarize_texts_head texts level g) as (t1' & Hhead).
  destruct (embed_cluster_summarize_texts texts level g) as [[t1 g1] [[dfc dfs]|e]];
    simpl in Hhead; subst t1.
  - destruct (_ && _).
    + destruct (recursive_embed_cluster_summarize_fuel fuel _ _ _ g1)
        as [[[t2 g2] r2]|]; [|discriminate].
      intros H. inversion H. simpl. eauto.
    + intros H. inversion H. eauto.
  - intros H. inversion H. eauto.
Qed.

Lemma recursive_fuel_enough (fuel : nat) :
  forall (texts : list string) (level n_levels : Z) (g : rng_state),
    Z.to_nat (n_levels - level) < fuel ->
    exists t g' r,
      recursive_embed_cluster_summarize_fuel fuel texts level n_levels g
        = Some (t, g', r)
      /\ (forall d, r = Ok d -> consecutive_levels level n_levels d)
      /\ (forall e, r = Raise e -> step_raised level n_levels e).
Proof.
  induction fuel as [|fuel IH]; intros texts level n_levels g Hfuel; [lia|].
  simpl.
  destruct (embed_cluster_summarize_texts texts level g)
    as [[t1 g1] [[dfc dfs]|e]] eqn:Estep.
  - assert (Hsingle : consecutive_levels level n_levels {[ level := (dfc, dfs) ]}).
    { exists level. split; [lia|]. split; [auto|].
      intros k. rewrite dom_singleton_L, elem_of_singleton. lia. }
    destruct (level <? n_levels)%Z eqn:Elt; simpl.
    + apply Z.ltb_lt in Elt. destruct (1 <? nunique (map s_cluster dfs)) eqn:Eu.
      * destruct (IH (map summaries dfs) (level + 1)%Z n_levels g1)
          as (t2 & g2 & r2 & Hrec & Hkeys & Hraise); [lia|].
        rewrite Hrec. eexists _, g2, _. split; [reflexivity|]. split.
        -- intros d Hd. destruct r2 as [next|e]; [|discriminate]. simpl in Hd.
           inversion Hd; subst d. clear Hd.
           destruct (Hkeys next eq_refl) as (top & Hle & Hbound & Hdom).
           exists top. split; [lia|]. split; [left; lia|].
           intros k. unfold update. rewrite dom_union_L, elem_of_union, Hdom,
             dom_singleton_L, elem_of_singleton. lia.
        -- intros e He. destruct r2 as [next|e2]; [discriminate|]. simpl in He.
           inversion He; subst e2. clear He.
           destruct (Hraise e eq_refl)
             as (texts' & level' & g0 & t0 & g3 & Hle & Hbound & Hstep).
           exists texts', level', g0, t0, g3. split; [lia|].
           split; [left; lia | exact Hstep].
      * eexists _, g1, _. split; [reflexivity|]. split; [|discriminate].
        intros d Hd. inversion Hd; subst d. exact Hsingle.
    + eexists _, g1, _. split; [reflexivity|]. split; [|discriminate].
      intros d Hd. inversion Hd; subst d. exact Hsingle.
  - eexists _, g1, _. split; [reflexivity|]. split; [discriminate|].
    intros e' He. inversion He; subst e'.
    exists texts, level, g, t1, g1. split; [lia|]. split; [auto | exact Estep].
Qed.

Lemma recursive_fuel_mono (fuel : nat) :
  forall (fuel' : nat) (texts : list string) (level n_levels : Z) (g : rng_state) out,
    fuel <= fuel' ->
    recursive_embed_cluster_summarize_fuel fuel texts level n_levels g = Some out ->
    recursive_embed_cluster_summarize_fuel fuel' texts level n_levels g = Some out.
Proof.
  induction fuel as [|fuel IH]; intros fuel' texts level n_levels g out Hle;
    [discriminate|].
  destruct fuel' as [|fuel']; [lia|]. simpl.
  destruct (embed_cluster_summarize_texts texts level g) as [[t1 g1] [[dfc dfs]|e]];
    [|auto].
  destruct (_ && _); [|auto].
  destruct (recursive_embed_cluster_summarize_fuel fuel _ _ _ g1) as [out2|] eqn:E;
    [|discriminate].
  rewrite (IH fuel' _ _ _ _ out2 ltac:(lia) E). auto.
Qed.

(** C1: after the current level's embed, cluster and summarize step,
    the function calls itself on that level's summaries, one level up,
    exactly when [level < n_levels] and the summaries have more than one
    distinct cluster; otherwise it returns the current level alone. *)
Theorem recursion_condition (texts : list string) (level n_levels : Z)
    (g : rng_state) :
  match embed_cluster_summarize_texts texts level g with
  | (t1, g1, Raise e) =>
      recursive_embed_cluster_summarize texts level n_levels g
      = Some (t1, g1, Raise e)
  | (t1, g1, Ok (df_clusters, df_summary)) =>
      let results : results_dict := {[ level := (df_clusters, df_summary) ]} in
      let new_texts := map summaries df_summary in
      if decide ((level < n_levels)%Z /\ 1 < nunique (map s_cluster df_summary))
      then exists t2 g2 r2,
          recursive_embed_cluster_summarize new_texts (level + 1) n_levels g1
            = Some (EvEmbed new_texts :: t2, g2, r2)
          /\ recursive_embed_cluster_summarize texts level n_levels g
             = Some (t1 ++ EvEmbed new_texts :: t2, g2,
                     rbind r2 (fun next_level_results =>
                                 Ok (update results next_level_results)))
      else recursive_embed_cluster_summarize texts level n_levels g
           = Some (t1, g1, Ok results)
  end.
Proof.
  unfold recursive_embed_cluster_summarize. simpl.
  destruct (embed_cluster_summarize_texts texts level g) as [[t1 g1] [[dfc dfs]|e]];
    [|reflexivity].
  cbn zeta. destruct (decide _) as [[Hlt Hu]|Hno].
  - apply Z.ltb_lt in Hlt as Elt. apply Nat.ltb_lt in Hu as Eu. rewrite Elt, Eu. simpl.
    replace (Z.to_nat (n_levels - level))
      with (S (Z.to_nat (n_levels - (level + 1)))) by lia.
    destruct (recursive_fuel_enough (S (Z.to_nat (n_levels - (level + 1))))
                (map summaries dfs) (level + 1)%Z n_levels g1)
      as (t2 & g2 & r2 & Hrec & _ & _); [lia|].
    destruct (recursive_fuel_head _ _ _ _ _ _ _ _ Hrec) as (t2' & ->).
    rewrite Hrec. exists t2', g2, r2. auto.
  - destruct (level <? n_levels)%Z eqn:Elt; simpl; [|reflexivity].
    destruct (1 <? nunique (map s_cluster dfs)) eqn:Eu; [|reflexivity].
    exfalso. apply Hno. split; [apply Z.ltb_lt, Elt | apply Nat.ltb_lt, Eu].
Qed.

(** C4: started at level 1 with [n_levels >= 1], the recursion ends
    (every call is one level higher and none starts above [n_levels],
    so the fuel of [n_levels] calls is never used up), and the returned
    dictionary has exactly the keys [1 .. top] for some [top <= n_levels].
    The recursion itself never fails: when no dictionary is returned, the
    step of one of the levels [1 .. n_levels] raised. *)
Theorem recursion_terminates_with_consecutive_levels (texts : list string)
    (n_levels : Z) (g : rng_state) :
  (1 <= n_levels)%Z ->
  exists t g' r,
    recursive_embed_cluster_summarize texts 1 n_levels g = Some (t, g', r)
    /\ (forall fuel, Z.to_nat n_levels <= fuel ->
          recursive_embed_cluster_summarize_fuel fuel texts 1 n_levels g
          = Some (t, g', r))
    /\ (forall d, r = Ok d ->
          exists top : Z, (1 <= top <= n_levels)%Z
            /\ forall k : Z, k ∈ dom d <-> (1 <= k <= top)%Z)
    /\ (forall e, r = Raise e ->
          exists texts' (level' : Z) g0 t0 g1,
            (1 <= level' <= n_levels)%Z
            /\ embed_cluster_summarize_texts texts' level' g0 = (t0, g1, Raise e)).
Proof.
  intros Hn. unfold recursive_embed_cluster_summarize.
  destruct (recursive_fuel_enough (S (Z.to_nat (n_levels - 1))) texts 1 n_levels g)
    as (t & g' & r & Hrun & Hkeys & Hraise); [lia|].
  exists t, g', r. split; [exact Hrun|]. split; [|split].
  - intros fuel Hfuel. eapply recursive_fuel_mono; [|exact Hrun]. lia.
  - intros d Hd. destruct (Hkeys d Hd) as (top & Hle & Hbound & Hdom).
    exists top. split; [lia | exact Hdom].
  - intros e He.
    destruct (Hraise e He) as (texts' & level' & g0 & t0 & g1 & Hle & Hbound & Hstep).
    exists texts', level', g0, t0, g1. split; [lia | exact Hstep].
Qed.

(** *** Summaries: one chain invocation per distinct cluster *)

Lemma filter_elem {A} (f : A -> bool) (l : list A) (x : A) :
  x ∈ List.filter f l <-> x ∈ l /\ f x = true.
Proof. rewrite !list_elem_of_In. apply filter_In. Qed.

Lemma filter_NoDup {A} (f : A -> bool) (l : list A) :
  NoDup l -> NoDup (List.filter f l).
Proof.
  induction 1 as [|x l Hx Hnd IH]; simpl; [constructor|].
  destruct (f x); [|exact IH]. constructor; [|exact IH].
  rewrite filter_elem. tauto.
Qed.


Lemma unique_NoDup (l : list nat) : NoDup (unique l).
Proof.
  induction l as [|y l IH]; simpl; constructor.
  - rewrite filter_elem, Nat.eqb_refl. simpl. intros [_ H]. discriminate.
  - apply filter_NoDup, IH.
Qed.

Lemma summarize_loop_run (expanded_df : list expanded_row) (all_clusters : list nat)
    (g : rng_state) :
  summarize_loop expanded_df all_clusters g
  = (map (fun i => EvLLM (context_of expanded_df i)) all_clusters, g,
     Ok (map (fun i => summarize_chain (context_of expanded_df i)) all_clusters)).
Proof.
  induction all_clusters as [|i cs IH]; [reflexivity|].
  cbn [summarize_loop map]. unfold mbind, M_bind, emit.
  rewrite IH. unfold mret, M_ret. simpl. rewrite app_nil_r. reflexivity.
Qed.

Lemma zip_rows_columns (texts : list string) : forall (embs : matrix)
    (labels : list (list nat)),
  length embs = length texts -> length labels = length texts ->
  map text (zip_rows texts embs labels) = texts
  /\ map embd (zip_rows texts embs labels) = embs
  /\ map cluster (zip_rows texts embs labels) = labels.
Proof.
  induction texts as [|t texts IH]; intros [|e embs] [|c labels] He Hc;
    simpl in *; try lia; auto.
  destruct (IH embs labels) as (H1 & H2 & H3); [lia | lia |].
  rewrite H1, H2, H3. auto.
Qed.

Lemma expand_clusters (df : list cluster_row) :
  map x_cluster (flat_map expand df) = concat (map cluster df).
Proof.
  induction df as [|row df IH]; simpl; [reflexivity|].
  rewrite map_app, IH. f_equal. unfold expand. rewrite map_map. simpl.
  apply map_id.
Qed.

Lemma summary_columns (level : Z) (ss : list string) : forall cs : list nat,
  length ss = length cs ->
  let df := map (fun p => {| summaries := fst p; level := level; s_cluster := snd p |})
                (combine ss cs) in
  map summaries df = ss /\ map s_cluster df = cs.
Proof.
  induction ss as [|x ss IH]; intros [|c cs] Hlen; simpl in *; try lia; auto.
  destruct (IH cs) as (H1 & H2); [lia|]. simpl in H1, H2. rewrite H1, H2. auto.
Qed.

Lemma perform_clustering_total (X : matrix) (dim : nat) (threshold : Q)
    (g : rng_state) :
  exists t g' labels,
    perform_clustering X dim threshold g = (t, g', Ok labels)
    /\ length labels = length X.
Proof.
  destruct (Nat.le_gt_cases (length X) (dim + 1)) as [Hsmall|Hbig].
  - exists [], g, (map (fun _ => [0]) X).
    split; [apply perform_clustering_small, Hsmall | apply length_map].
  - destruct (perform_clustering_run X dim threshold g Hbig)
      as (n & runs & g' & labels & Hrun & _ & Hlen & _).
    cbn zeta in Hrun. eexists _, g', labels. split; [exact Hrun | exact Hlen].
Qed.

Lemma summarize_after_clustering (texts : list string) (level : Z)
    (g : rng_state) t g1 df :
  embed_cluster_texts texts g = (t, g1, Ok df) ->
  embed_cluster_summarize_texts texts level g
  = match flat_map expand df with
    | [] => (t, g1, Raise KeyError)
    | _ :: _ =>
        let all_clusters := unique (map x_cluster (flat_map expand df)) in
        let contexts := map (context_of (flat_map expand df)) all_clusters in
        (t ++ map EvLLM contexts, g1,
         Ok (df,
             map (fun p => {| summaries := fst p; level := level; s_cluster := snd p |})
                 (combine (map summarize_chain contexts) all_clusters)))
    end.
Proof.
  intros Hframe. unfold embed_cluster_summarize_texts, mbind at 1, M_bind at 1.
  rewrite Hframe.
  destruct (flat_map expand df) as [|r rs] eqn:E.
  - unfold mbind, M_bind, lift. rewrite app_nil_r. reflexivity.
  - unfold mbind, M_bind, lift. rewrite summarize_loop_run.
    unfold mret, M_ret. cbn zeta. rewrite !map_map. simpl.
    rewrite app_nil_r. reflexivity.
Qed.


End Facts.

#[local] Existing Instance Sample.backend.

Lemma sample_laws : BackendLaws Sample.backend.
Proof.
  split; simpl; intros; rewrite ?length_map; reflexivity.
Qed.

(** Twelve texts of lengths 1 to 12: more than [dim + 1 = 11], so the
    first level really clusters; its two summaries then form one cluster. *)
Example recursion_two_levels :
  exists t d,
    recursive_embed_cluster_summarize_default (B := Sample.backend) Sample.twelve_texts 0%nat
      = Some (t, 1%nat, Ok d)
    /\ dom d = {[ 1%Z; 2%Z ]}.
Proof.
  eexists _, _. split; [vm_compute; reflexivity|]. vm_compute. reflexivity.
Qed.

(** Without any text there is no cluster id, the expanded frame has no
    "cluster" column and the first step raises. *)
Example no_texts_no_cluster_column :
  recursive_embed_cluster_summarize_default (B := Sample.backend) [] 0%nat
  = Some ([EvEmbed []], 0%nat, Raise KeyError).
Proof. reflexivity. Qed.

Lemma recursion_terminates_with_consecutive_levels_witness :
  (1 <= 3)%Z
  /\ exists t g' r,
      recursive_embed_cluster_summarize (B := Sample.backend) Sample.twelve_texts 1 3 0%nat = Some (t, g', r)
      /\ (forall fuel, Z.to_nat 3 <= fuel ->
            recursive_embed_cluster_summarize_fuel (B := Sample.backend) fuel Sample.twelve_texts 1 3 0%nat
            = Some (t, g', r))
      /\ (forall d, r = Ok d ->
            exists top : Z, (1 <= top <= 3)%Z
              /\ forall k : Z, k ∈ dom d <-> (1 <= k <= top)%Z)
      /\ (forall e, r = Raise e ->
            exists texts' (level' : Z) g0 t0 g1,
              (1 <= level' <= 3)%Z
              /\ embed_cluster_summarize_texts (B := Sample.backend) texts' level' g0
                 = (t0, g1, Raise e)).
Proof.
  split; [lia|].
  apply (recursion_terminates_with_consecutive_levels (B := Sample.backend) Sample.twelve_texts 3 0%nat). lia.
Defined.

Lemma small_inputs_skip_clustering_witness :
  BackendLaws Sample.backend
  /\ length Sample.four_rows <= 10 + 1
  /\ perform_clustering Sample.four_rows 10 (1 # 10) 0%nat
     = ([], 0%nat, Ok (map (fun _ => [0]) Sample.four_rows))
  /\ (exists t g' labels,
        perform_clustering Sample.twelve_rows 10 (1 # 10) 0%nat = (t, g', Ok labels)
        /\ forall n seed Y, EvBIC n seed Y ∈ t \/ EvGMM n seed Y ∈ t ->
             2 <= length Y
             /\ arange_from_1 (Nat.min 50 (length Y)) <> []
             /\ forall g0 : nat, exists k,
                  get_optimal_clusters Y 50 RANDOM_SEED g0
                    = (bic_events 50 RANDOM_SEED Y, g0, Ok k)).
Proof.
  assert (Hsmall : length Sample.four_rows <= 10 + 1) by (simpl; lia).
  split; [exact sample_laws|]. split; [exact Hsmall|]. split.
  - exact (proj1 (small_inputs_skip_clustering (L := sample_laws)
                    Sample.four_rows 10 (1 # 10) 0%nat) Hsmall).
  - exact (proj2 (small_inputs_skip_clustering (L := sample_laws)
                    Sample.twelve_rows 10 (1 # 10) 0%nat)).
Defined.


Lemma GMM_cluster_soft_assignment_witness :
  2 <= length Sample.four_rows
  /\ exists n labels,
      get_optimal_clusters (B := Sample.backend) Sample.four_rows 50 RANDOM_SEED 0%nat
        = (bic_events 50 RANDOM_SEED Sample.four_rows, 0%nat, Ok n)
      /\ GMM_cluster (B := Sample.backend) Sample.four_rows (1 # 10) 0 0%nat
         = (bic_events 50 RANDOM_SEED Sample.four_rows ++ [EvGMM n 0 Sample.four_rows],
            0%nat, Ok (labels, n))
      /\ 1 <= n <= Nat.min 50 (length Sample.four_rows) - 1
      /\ (forall c, 1 <= c <= Nat.min 50 (length Sample.four_rows) - 1 ->
            (GaussianMixture_bic n RANDOM_SEED Sample.four_rows
             <= GaussianMixture_bic c RANDOM_SEED Sample.four_rows)%Q)
      /\ length labels = length (GaussianMixture_predict_proba n 0 Sample.four_rows)
      /\ forall i prob, GaussianMixture_predict_proba n 0 Sample.four_rows !! i = Some prob ->
           exists ids, labels !! i = Some ids
             /\ forall j, j ∈ ids <-> exists p, prob !! j = Some p /\ (1 # 10 < p)%Q.
Proof.
  split; [simpl; lia|].
  apply (GMM_cluster_soft_assignment (B := Sample.backend) Sample.four_rows (1 # 10) 0 0%nat). simpl. lia.
Defined.



Example GMM_cluster_four_rows :
  GMM_cluster (B := Sample.backend) Sample.four_rows (1 # 10) 0 0%nat
  = ([EvBIC 1 224 Sample.four_rows; EvBIC 2 224 Sample.four_rows;
      EvBIC 3 224 Sample.four_rows; EvGMM 2 0 Sample.four_rows],
     0%nat, Ok ([[0]; [1]; [1]; [1]], 2))%nat.
Proof. reflexivity. Qed.
End RaptorFacts.

(** ** The CRAG graph *)

Module CragFacts.
Import Crag.
Section Facts.
Context `{Sv : Services}.

(** The three answers of [evaluate_response]. *)
Lemma evaluate_response_cases (state : GraphState) (r : string) :
  evaluate_response state = Ok r ->
  r = "useful"%string \/ r = "notuseful"%string \/ r = "not supported"%string.
Proof.
  unfold evaluate_response.
  destruct (documents state) as [docs|]; [|discriminate].
  destruct (generation state) as [gen|]; [|discriminate]. simpl.
  destruct (String.eqb _ "yes"); [destruct (String.eqb _ "yes")|];
    intros H; inversion H; auto.
Qed.

Lemma evaluate_response_useful (state : GraphState) :
  evaluate_response state = Ok "useful"%string
  <-> exists docs gen,
        documents state = Some docs /\ generation state = Some gen
        /\ hallucination_chain docs gen = "yes"%string
        /\ answer_grader_chain (question state) gen = "yes"%string.
Proof.
  unfold evaluate_response. split.
  - destruct (documents state) as [docs|]; [|discriminate].
    destruct (generation state) as [gen|]; [|discriminate]. simpl.
    destruct (String.eqb_spec (hallucination_chain docs gen) "yes") as [Hh|_];
      [|discriminate].
    destruct (String.eqb_spec (answer_grader_chain (question state) gen) "yes")
      as [Ha|_]; [|discriminate].
    intros _. exists docs, gen. auto.
  - intros (docs & gen & -> & -> & Hh & Ha). simpl. rewrite Hh, Ha. reflexivity.
Qed.

(** The only edges into [END]. *)
Lemma next_END (n : node) (state : GraphState) :
  next n state = Ok END
  <-> n = fallback \/ (n = generate /\ evaluate_response state = Ok "useful"%string).
Proof.
  split.
  - destruct n; simpl; try discriminate; auto.
    + destruct (evaluate_response state) as [r|e] eqn:E; [|discriminate].
      destruct (evaluate_response_cases state r E) as [-> | [-> | ->]];
        simpl; try discriminate. auto.
    + unfold decide_to_generate.
      destruct (documents state) as [docs|]; [|discriminate]. simpl.
      destruct (falsy docs); discriminate.
  - intros [-> | [-> H]]; simpl; [reflexivity|]. rewrite H. reflexivity.
Qed.

Lemma entry_point_not_END (state : GraphState) : entry_point state <> Ok END.
Proof.
  unfold entry_point, route_question.
  destruct (String.eqb _ "vectorstore"); [discriminate|].
  destruct (String.eqb _ "web_search"); discriminate.
Qed.

Lemma run_from_finished (recursion_limit : nat) :
  forall (n : node) (state : GraphState) path final,
    run_from recursion_limit (Node n) state = (path, Finished final) ->
    exists l, last path = Some l
      /\ (l = fallback
          \/ (l = generate /\ evaluate_response final = Ok "useful"%string)).
Proof.
  induction recursion_limit as [|limit IH]; intros n state path final; simpl;
    [discriminate|].
  destruct (run_node n state) as [state1|e]; [|discriminate].
  destruct (next n state1) as [t'|e] eqn:En; [|discriminate].
  destruct t' as [n'|].
  - destruct (run_from limit (Node n') state1) as [p o] eqn:Er.
    intros H. inversion H; subst. clear H.
    destruct (IH n' state1 p final Er) as (l & Hlast & Hl).
    exists l. split; [|exact Hl].
    destruct p as [|x p]; [discriminate|]. exact Hlast.
  - destruct limit; simpl; intros H; inversion H; subst;
      exists n; (split; [reflexivity | apply next_END, En]).
Qed.

(** C10: a run of the compiled graph that reaches [END] does so right
    after [fallback], or right after [generate] with [evaluate_response]
    answering 'useful', which is when the generation is graded grounded
    in the documents and graded as answering the question; no other edge
    leads to [END].  And when [grade_documents] leaves an empty list of
    documents, the edge taken goes to [web_search]. *)
Theorem end_after_fallback_or_useful_generation :
  (forall recursion_limit question path final,
      run_pipeline recursion_limit question = (path, Finished final) ->
      exists l, last path = Some l
        /\ (l = fallback
            \/ (l = generate /\ evaluate_response final = Ok "useful"%string)))
  /\ (forall n state,
        next n state = Ok END
        <-> n = fallback
            \/ (n = generate /\ evaluate_response state = Ok "useful"%string))
  /\ (forall state,
        evaluate_response state = Ok "useful"%string
        <-> exists docs gen,
              documents state = Some docs /\ generation state = Some gen
              /\ hallucination_chain docs gen = "yes"%string
              /\ answer_grader_chain (question state) gen = "yes"%string)
  /\ (forall state state',
        grade_documents_node state = Ok state' ->
        documents state' = Some (inl []) ->
        next grade_documents state' = Ok (Node web_search)
        /\ next grade_documents state' <> Ok (Node generate)).
Proof.
  split; [|split; [exact next_END|split; [exact evaluate_response_useful|]]].
  - intros limit q path final. unfold run_pipeline.
    destruct (entry_point _) as [t|e] eqn:E; [|discriminate].
    destruct t as [n|]; [apply run_from_finished|].
    exfalso. exact (entry_point_not_END _ E).
  - intros state state' _ Hdocs. simpl. unfold decide_to_generate.
    rewrite Hdocs. simpl. split; [reflexivity | discriminate].
Qed.

(** C6, amended: the repository handles no exception, a node that
    raises ends the run with that exception; but the graph does detect
    unsatisfactory steps and re-routes: with no relevant document left
    it searches the web, a generation graded as not grounded is generated
    again, and one graded as grounded but not answering the question is
    generated again after a web search. *)
Theorem unsatisfactory_steps_are_rerouted :
  (forall recursion_limit n state e,
      run_node n state = Raise e ->
      run_from (S recursion_limit) (Node n) state = ([n], Failed e))
  /\ (forall state,
        documents state = Some (inl []) ->
        next grade_documents state = Ok (Node web_search))
  /\ (forall state,
        evaluate_response state = Ok "not supported"%string ->
        next generate state = Ok (Node generate))
  /\ (forall state,
        evaluate_response state = Ok "notuseful"%string ->
        next generate state = Ok (Node web_search)
        /\ next web_search state = Ok (Node generate)).
Proof.
  repeat split.
  - intros limit n state e H. simpl. rewrite H. reflexivity.
  - intros state H. simpl. unfold decide_to_generate. rewrite H. reflexivity.
  - intros state H. simpl. rewrite H. reflexivity.
  - simpl. rewrite H. reflexivity.
Qed.
End Facts.

#[local] Existing Instance CragSample.services.
Import CragSample.

(** A question about agents: the first answer, from the store, is graded
    as not answering; the graph searches the web and generates again. *)
Example run_agents :
  exists final,
    run_pipeline default_recursion_limit "agents"
    = ([retrieve; grade_documents; generate; web_search; generate], Finished final)
    /\ generation final = Some "from the web"%string.
Proof. eexists. split; reflexivity. Qed.

(** No retrieved document is relevant: the graph goes to the web. *)
Example run_other :
  exists final,
    run_pipeline default_recursion_limit "other"
    = ([retrieve; grade_documents; web_search; generate], Finished final).
Proof. eexists. reflexivity. Qed.

Example run_hello :
  exists final,
    run_pipeline default_recursion_limit "hello" = ([fallback], Finished final).
Proof. eexists. reflexivity. Qed.

Lemma end_after_fallback_or_useful_generation_witness :
  exists final,
    run_pipeline default_recursion_limit "agents"
    = ([retrieve; grade_documents; generate; web_search; generate], Finished final)
    /\ exists l, last [retrieve; grade_documents; generate; web_search; generate] = Some l
         /\ (l = fallback
             \/ (l = generate /\ evaluate_response final = Ok "useful"%string)).
Proof.
  eexists. split; [reflexivity|].
  apply (proj1 end_after_fallback_or_useful_generation
           default_recursion_limit "agents"%string). reflexivity.
Defined.

(** C6 as stated: in the sample run the node [generate] is followed by
    [web_search] when its answer is graded as not answering the question
    and by [END] when it is graded useful, so the route does depend on the
    grading of the step. *)
Lemma generation_graded_and_rerouted :
  next generate agents_after_store = Ok (Node web_search)
  /\ next generate agents_after_web = Ok END
  /\ ~ no_rerouting (Sv := CragSample.services).
Proof.
  split; [reflexivity|]. split; [reflexivity|].
  intros H.
  specialize (H generate agents_after_store agents_after_web
                (Node web_search) END eq_refl eq_refl).
  discriminate H.
Qed.

Lemma unsatisfactory_steps_are_rerouted_witness :
  documents nothing_relevant = Some (inl [])
  /\ next grade_documents nothing_relevant = Ok (Node web_search)
  /\ evaluate_response agents_after_store = Ok "notuseful"%string
  /\ next generate agents_after_store = Ok (Node web_search)
  /\ next web_search agents_after_store = Ok (Node generate).
Proof.
  pose proof (unsatisfactory_steps_are_rerouted (Sv := CragSample.services))
    as (_ & Hgrade & _ & Huseless).
  split; [reflexivity|]. split; [apply Hgrade; reflexivity|].
  split; [reflexivity|]. apply Huseless. reflexivity.
Defined.
End CragFacts.

(** ** Vector stores and durable storage *)

Module VectorStoreFacts.
Import VectorStore.
Section Facts.
Context `{Sv : Services}.

Lemma persisted_build (text_chunks : list Document) (dir : string) (d : disk) :
  let '(vectorstore, d1) := Chroma_from_documents text_chunks (Some dir) d in
  exists d',
    persist vectorstore d1 = Ok d'
    /\ persist_directory vectorstore = Some dir
    /\ d' !! dir = Some (collection vectorstore)
    /\ (forall chunk, chunk ∈ text_chunks ->
          (chunk, OpenAIEmbeddings chunk) ∈ collection vectorstore)
    /\ (forall old, old ∈ default [] (d !! dir) -> old ∈ collection vectorstore)
    /\ forall other, other <> dir -> d' !! other = d !! other.
Proof.
  simpl. eexists. split; [reflexivity|]. split; [reflexivity|].
  split; [apply lookup_insert_eq|]. split; [|split].
  - intros chunk Hin. apply elem_of_app. right.
    apply elem_of_map. exists chunk. auto.
  - intros old Hin. apply elem_of_app. auto.
  - intros other Hne. rewrite !lookup_insert_ne by congruence. reflexivity.
Qed.

(** C5, amended: a vector store built without a directory lives in a
    notebook variable only and leaves the disk as it was; the stores
    built with [persist_directory] and persisted (the first cell of the
    basic, retrieval and HyDE notebooks, and [generate_vectorstores])
    write every chunk with its embedding into the collection under that
    directory, next to what the directory held before, and touch no
    other directory. *)
Theorem directory_decides_persistence (d : disk) :
  (forall doc_splits,
      (build_vectorstore_in_memory doc_splits d).2 = d
      /\ persist_directory (build_vectorstore_in_memory doc_splits d).1 = None)
  /\ (exists vectorstore d',
        build_vectorstore d = Ok (vectorstore, d')
        /\ d' !! "data/vectorstore"%string = Some (collection vectorstore)
        /\ (forall chunk,
              chunk ∈ split_documents 500 20 (directory_loader "data/" "*.pdf") ->
              (chunk, OpenAIEmbeddings chunk) ∈ collection vectorstore)
        /\ (forall old, old ∈ default [] (d !! "data/vectorstore"%string) ->
              old ∈ collection vectorstore)
        /\ forall other, other <> "data/vectorstore"%string ->
             d' !! other = d !! other)
  /\ (forall file dir, exists vectorstore d',
        generate_vectorstores file dir d = Ok (vectorstore, d')
        /\ d' !! dir = Some (collection vectorstore)
        /\ (forall chunk, chunk ∈ split_documents 500 20 (pdf_loader file) ->
              (chunk, OpenAIEmbeddings chunk) ∈ collection vectorstore)
        /\ (forall old, old ∈ default [] (d !! dir) -> old ∈ collection vectorstore)
        /\ forall other, other <> dir -> d' !! other = d !! other).
Proof.
  split; [intros; split; reflexivity|]. split.
  - unfold build_vectorstore.
    pose proof (persisted_build
                  (split_documents 500 20 (directory_loader "data/" "*.pdf"))
                  "data/vectorstore" d) as H.
    destruct (Chroma_from_documents _ _ d) as [vectorstore d1].
    destruct H as (d' & Hp & _ & H). rewrite Hp. simpl. eauto.
  - intros file dir. unfold generate_vectorstores.
    pose proof (persisted_build (split_documents 500 20 (pdf_loader file)) dir d) as H.
    destruct (Chroma_from_documents _ _ d) as [vectorstore d1].
    destruct H as (d' & Hp & _ & H). rewrite Hp. simpl. eauto.
Qed.
End Facts.

#[local] Existing Instance VectorStoreSample.services.

Lemma directory_decides_persistence_witness :
  exists vectorstore d',
    build_vectorstore ∅ = Ok (vectorstore, d')
    /\ d' !! "data/vectorstore"%string = Some (collection vectorstore)
    /\ ("page one"%string, [8%Q]) ∈ collection vectorstore.
Proof.
  destruct (directory_decides_persistence (Sv := VectorStoreSample.services) ∅)
    as (_ & (vectorstore & d' & Hrun & Hdisk & Hchunks & _) & _).
  exists vectorstore, d'. split; [exact Hrun|]. split; [exact Hdisk|].
  apply (Hchunks "page one"%string). simpl. apply elem_of_cons. left. reflexivity.
Defined.

(** C5 as stated: the first cell of the retrieval notebook, run on an
    empty disk, leaves both chunks and their embeddings in the collection
    stored under [data/vectorstore]. *)
Lemma chunks_written_to_disk :
  (exists vectorstore d',
      build_vectorstore (Sv := VectorStoreSample.services) ∅ = Ok (vectorstore, d')
      /\ d' !! "data/vectorstore"%string
         = Some [("page one"%string, [8%Q]); ("page two"%string, [8%Q])])
  /\ ~ leaves_disk_alone (build_vectorstore (Sv := VectorStoreSample.services)).
Proof.
  split.
  - eexists _, _. split; [reflexivity|]. vm_compute. reflexivity.
  - intros H.
    destruct (build_vectorstore (Sv := VectorStoreSample.services) ∅)
      as [[vectorstore d']|e] eqn:E; [|discriminate E].
    pose proof (H ∅ vectorstore d' E) as Hsame.
    unfold build_vectorstore in E. simpl in E. inversion E as [[Hv Hd]].
    rewrite Hsame in Hd.
    apply (f_equal (fun m => m !! "data/vectorstore"%string)) in Hd.
    rewrite lookup_insert_eq, lookup_empty in Hd. discriminate Hd.
Qed.
End VectorStoreFacts.

(** ** Runs that differ *)

Module NondeterminismFacts.
Import MultiQuery Sampling.

Lemma split_lines_nonempty (x : string) : split_lines x <> [].
Proof.
  destruct x as [|c rest]; simpl; [discriminate|].
  destruct (Ascii.eqb c newline); [discriminate|].
  destruct (split_lines rest); discriminate.
Qed.

(** Joining the lines again gives the text back, so [split] loses nothing. *)
Lemma concat_split_lines (x : string) :
  String.concat (String newline EmptyString) (split_lines x) = x.
Proof.
  induction x as [|c rest IH]; [reflexivity|]. simpl.
  destruct (Ascii.eqb_spec c newline) as [->|Hne].
  - pose proof (split_lines_nonempty rest) as Hne.
    destruct (split_lines rest) as [|line lines]; [congruence|].
    simpl in *. rewrite IH. reflexivity.
  - pose proof (split_lines_nonempty rest) as Hne'.
    destruct (split_lines rest) as [|line lines]; [congruence|].
    simpl in *. destruct lines as [|l2 lines]; simpl in *; rewrite <- IH; reflexivity.
Qed.

Lemma split_lines_inj (x y : string) : split_lines x = split_lines y -> x = y.
Proof.
  intros H. rewrite <- (concat_split_lines x), <- (concat_split_lines y), H.
  reflexivity.
Qed.

(** *** The only randomness the RAPTOR routine consumes is UMAP's *)

Section Repeats.
Import Raptor.
Context `{B : Backend}.
Hypothesis Hignored : generator_ignored.

Lemma mret_repeats {A} (a : A) : repeats (mret a : M A).
Proof. intros g1 g2. split; reflexivity. Qed.

Lemma lift_repeats {A} (r : result A) : repeats (lift r).
Proof. intros g1 g2. split; reflexivity. Qed.

Lemma emit_repeats (e : event) : repeats (emit e).
Proof. intros g1 g2. split; reflexivity. Qed.

Lemma bind_repeats {A C} (m : M A) (f : A -> M C) :
  repeats m -> (forall a, repeats (f a)) -> repeats (m ≫= f).
Proof.
  intros Hm Hf g1 g2. unfold mbind, M_bind.
  destruct (Hm g1 g2) as [Ht Hr].
  destruct (m g1) as [[t1 g1'] r1], (m g2) as [[t2 g2'] r2]. simpl in Ht, Hr.
  subst t2 r2. destruct r1 as [a|e]; [|split; reflexivity].
  destruct (Hf a g1' g2') as [Ht Hr].
  destruct (f a g1') as [[t3 g3] r3], (f a g2') as [[t4 g4] r4]. simpl in *.
  subst. split; reflexivity.
Qed.

Lemma umap_repeats n dim metric X : repeats (umap n dim metric X).
Proof.
  intros g1 g2. unfold umap.
  pose proof (Hignored n dim metric X g1 g2) as H.
  destruct (UMAP_fit_transform None n dim metric X g1),
           (UMAP_fit_transform None n dim metric X g2).
  simpl in *. subst. split; reflexivity.
Qed.

Lemma bic_loop_repeats seed X ns : repeats (bic_loop seed X ns).
Proof.
  induction ns as [|n ns IH]; simpl; [apply mret_repeats|].
  apply bind_repeats; [apply emit_repeats|]. intros _.
  apply bind_repeats; [exact IH|]. intros bics. apply mret_repeats.
Qed.

Lemma get_optimal_clusters_repeats X m seed : repeats (get_optimal_clusters X m seed).
Proof.
  unfold get_optimal_clusters.
  apply bind_repeats; [apply bic_loop_repeats|]. intros bics.
  apply bind_repeats; [apply lift_repeats|]. intros i. apply lift_repeats.
Qed.

Lemma GMM_cluster_repeats X threshold seed : repeats (GMM_cluster X threshold seed).
Proof.
  unfold GMM_cluster.
  apply bind_repeats; [apply get_optimal_clusters_repeats|]. intros n.
  apply bind_repeats; [apply emit_repeats|]. intros _. apply mret_repeats.
Qed.

Lemma local_clustering_repeats members dim threshold :
  repeats (local_clustering members dim threshold).
Proof.
  unfold local_clustering. destruct (_ <=? _); [apply mret_repeats|].
  apply bind_repeats; [apply umap_repeats|]. intros reduced.
  apply GMM_cluster_repeats.
Qed.

Lemma global_loop_repeats X dim threshold gcs is_ : forall all total,
  repeats (global_loop X dim threshold gcs is_ all total).
Proof.
  induction is_ as [|i is_ IH]; intros all total; simpl; [apply mret_repeats|].
  apply bind_repeats; [apply lift_repeats|]. intros members.
  destruct (_ =? 0); [apply IH|].
  apply bind_repeats; [apply local_clustering_repeats|]. intros [lcs n].
  apply bind_repeats; [apply lift_repeats|]. intros all'. apply IH.
Qed.

Lemma perform_clustering_repeats X dim threshold :
  repeats (perform_clustering X dim threshold).
Proof.
  unfold perform_clustering. destruct (_ <=? _); [apply mret_repeats|].
  apply bind_repeats.
  - unfold global_cluster_embeddings.
    apply bind_repeats; [|intros n; apply umap_repeats].
    destruct (_ =? 0); [apply lift_repeats | apply mret_repeats].
  - intros reduced. apply bind_repeats; [apply GMM_cluster_repeats|].
    intros [gcs n]. apply global_loop_repeats.
Qed.

Lemma summarize_loop_repeats df cs : repeats (summarize_loop df cs).
Proof.
  induction cs as [|c cs IH]; simpl; [apply mret_repeats|].
  apply bind_repeats; [apply emit_repeats|]. intros _.
  apply bind_repeats; [exact IH|]. intros ss. apply mret_repeats.
Qed.

Lemma embed_cluster_summarize_texts_repeats texts level :
  repeats (embed_cluster_summarize_texts texts level).
Proof.
  unfold embed_cluster_summarize_texts.
  apply bind_repeats.
  - unfold embed_cluster_texts.
    apply bind_repeats.
    + unfold embed. apply bind_repeats; [apply emit_repeats|].
      intros _. apply mret_repeats.
    + intros embs. apply bind_repeats; [apply perform_clustering_repeats|].
      intros labels. apply lift_repeats.
  - intros df. apply bind_repeats; [apply lift_repeats|]. intros column.
    apply bind_repeats; [apply summarize_loop_repeats|]. intros ss.
    apply mret_repeats.
Qed.

Lemma recursive_fuel_repeats (fuel : nat) : forall texts level n_levels g1 g2,
  option_map (fun x => (x.1.1, x.2))
    (recursive_embed_cluster_summarize_fuel fuel texts level n_levels g1)
  = option_map (fun x => (x.1.1, x.2))
    (recursive_embed_cluster_summarize_fuel fuel texts level n_levels g2).
Proof.
  induction fuel as [|fuel IH]; intros texts level n_levels g1 g2; [reflexivity|].
  simpl.
  destruct (embed_cluster_summarize_texts_repeats texts level g1 g2) as [Ht Hr].
  destruct (embed_cluster_summarize_texts texts level g1) as [[t1 g1'] r1],
           (embed_cluster_summarize_texts texts level g2) as [[t2 g2'] r2].
  simpl in Ht, Hr. subst t2 r2.
  destruct r1 as [[dfc dfs]|e]; [|reflexivity].
  destruct (_ && _); [|reflexivity].
  specialize (IH (map summaries dfs) (level + 1)%Z n_levels g1' g2').
  destruct (recursive_embed_cluster_summarize_fuel fuel _ _ _ g1') as [[[t3 g3] r3]|],
           (recursive_embed_cluster_summarize_fuel fuel _ _ _ g2') as [[[t4 g4] r4]|];
    simpl in IH; try discriminate; [|reflexivity].
  inversion IH; subst. reflexivity.
Qed.
End Repeats.

(** C7: the pipelines are non-deterministic where the code leaves the
    services' randomness open.  [generate_queries] calls the chat model at
    temperature 0.7 and hands its completion on, split into lines: two
    runs give the same queries exactly when they sampled the same
    completion, and a model that keeps the contract (greedy at temperature
    0) can give different queries for one question.  The RAPTOR routine
    builds UMAP without [random_state]: the reduced embeddings are UMAP's
    output under the current state of the process-wide generator, and a
    backend that keeps the contract (seeded UMAP ignores that generator)
    can return different cluster trees for the same texts.  Nothing else
    in the routine consumes randomness: were the unseeded UMAP to ignore
    the generator, every run on the same texts would return the same. *)
Theorem same_input_different_runs :
  (forall (M : Llm) (question : string) (e1 e2 : entropy),
      generate_queries question e1 = generate_queries question e2
      <-> ChatOpenAI "gpt-4" (7 # 10) (prompt question) e1
          = ChatOpenAI "gpt-4" (7 # 10) (prompt question) e2)
  /\ (exists (M : Llm), LlmLaws M
        /\ exists (question : string) (e1 e2 : entropy),
             generate_queries question e1 <> generate_queries question e2)
  /\ (forall (B : Backend) (X : matrix) (dim : nat) (g : rng_state),
        X <> [] ->
        Raptor.global_cluster_embeddings X dim None "cosine" g
        = ([EvUMAP (Nat.sqrt (length X - 1)) dim "cosine" X],
           (UMAP_fit_transform None (Nat.sqrt (length X - 1)) dim "cosine" X g).2,
           Ok (UMAP_fit_transform None (Nat.sqrt (length X - 1)) dim "cosine" X g).1))
  /\ (exists (B : Backend), BackendLaws B /\ SeedLaws B
        /\ exists (texts : list string) (g1 g2 : rng_state),
             returned (Raptor.recursive_embed_cluster_summarize texts 1 3 g1)
             <> returned (Raptor.recursive_embed_cluster_summarize texts 1 3 g2))
  /\ (forall (B : Backend), generator_ignored ->
        forall (texts : list string) (level n_levels : Z) (g1 g2 : rng_state),
          returned (Raptor.recursive_embed_cluster_summarize texts level n_levels g1)
          = returned (Raptor.recursive_embed_cluster_summarize texts level n_levels g2)).
Proof.
  split; [|split; [|split; [|split]]].
  - intros M question e1 e2. unfold generate_queries. split.
    + apply split_lines_inj.
    + intros ->. reflexivity.
  - exists sampler. split.
    + constructor. reflexivity.
    + exists "What is QLoRA?"%string, "a"%string, "b"%string.
      vm_compute. discriminate.
  - intros B X dim g Hne. apply RaptorFacts.global_cluster_embeddings_run, Hne.
  - exists Sample.backend. split; [exact RaptorFacts.sample_laws|]. split.
    + constructor; reflexivity.
    + exists Sample.twelve_texts, 0%nat, 1%nat. intros H.
      apply (f_equal (fun r => match r with
                               | Some (Ok d) =>
                                   option_map (fun frames => map Raptor.cluster (fst frames))
                                              (d !! 1%Z)
                               | _ => None
                               end)) in H.
      vm_compute in H. discriminate H.
  - intros B Hignored texts level n_levels g1 g2.
    unfold returned, Raptor.recursive_embed_cluster_summarize.
    pose proof (recursive_fuel_repeats Hignored (S (Z.to_nat (n_levels - level)))
                  texts level n_levels g1 g2) as H.
    destruct (Raptor.recursive_embed_cluster_summarize_fuel _ _ _ _ g1) as [[[t1 h1] r1]|],
             (Raptor.recursive_embed_cluster_summarize_fuel _ _ _ _ g2) as [[[t2 h2] r2]|];
      simpl in *; congruence.
Qed.

Lemma same_input_different_runs_witness :
  (generate_queries (M := sampler) "What is QLoRA?" "a"
   = generate_queries (M := sampler) "What is QLoRA?" "b"
   <-> ChatOpenAI (Llm := sampler) "gpt-4" (7 # 10) (prompt "What is QLoRA?") "a"
       = ChatOpenAI (Llm := sampler) "gpt-4" (7 # 10) (prompt "What is QLoRA?") "b")
  /\ (Sample.twelve_rows <> []
      /\ Raptor.global_cluster_embeddings (B := Sample.backend)
           Sample.twelve_rows 10 None "cosine" 1%nat
         = ([EvUMAP 3 10 "cosine" Sample.twelve_rows], 2%nat,
            Ok (map (map (Qplus 1)) Sample.twelve_rows))).
Proof.
  destruct same_input_different_runs as (Hqueries & _ & Humap & _ & _).
  split.
  - exact (Hqueries sampler "What is QLoRA?"%string "a"%string "b"%string).
  - assert (Hne : Sample.twelve_rows <> []) by discriminate.
    split; [exact Hne|].
    exact (Humap Sample.backend Sample.twelve_rows 10 1%nat Hne).
Defined.

(** What the theorem rules out: with the temperature at 0 a model that
    keeps its contract gives the same queries in every run. *)
Lemma greedy_queries_repeat `{M : Llm} {L : LlmLaws M}
    (question : string) (e1 e2 : entropy) :
  split_lines (ChatOpenAI "gpt-4" 0 (prompt question) e1)
  = split_lines (ChatOpenAI "gpt-4" 0 (prompt question) e2).
Proof. rewrite (greedy _ _ e1 e2). reflexivity. Qed.

Example generate_queries_sample :
  generate_queries (M := MultiQuerySample.llm) "What is QLoRA?" 0%nat = ["a"; "b"]%string
  /\ generate_queries (M := MultiQuerySample.llm) "What is QLoRA?" 1%nat = ["c"; "d"]%string.
Proof. split; reflexivity. Qed.
End NondeterminismFacts.


(** ** RAPTOR: edge cases and invariants *)

Module RaptorMore.
Import Raptor RaptorSpec.
Section Facts.
Context `{B : Backend}.

(** X1: on fewer than two embeddings (or with [max_clusters] at most 1)
    there is no candidate, [np.argmin] gets an empty list and
    [get_optimal_clusters] raises [ValueError] before any mixture is
    fitted; [GMM_cluster] passes the exception on. *)
Theorem get_optimal_clusters_needs_two_rows (X : matrix) (max_clusters : nat)
    (threshold : Q) (random_state : Z) (g : rng_state) :
  Nat.min max_clusters (length X) <= 1 ->
  get_optimal_clusters X max_clusters random_state g = ([], g, Raise ValueError)
  /\ (length X <= 1 ->
      GMM_cluster X threshold random_state g = ([], g, Raise ValueError)).
Proof.
  intros Hsmall.
  assert (Hgen : forall m, Nat.min m (length X) <= 1 ->
            get_optimal_clusters X m random_state g = ([], g, Raise ValueError)).
  { intros m Hm. unfold get_optimal_clusters, arange_from_1.
    replace (Nat.min m (length X) - 1) with 0 by lia. reflexivity. }
  split; [apply Hgen, Hsmall|].
  intros Hlen. unfold GMM_cluster.
  apply RaptorFacts.bind_raise.
  unfold get_optimal_clusters, arange_from_1.
  replace (Nat.min 50 (length X) - 1) with 0 by lia. reflexivity.
Qed.

Lemma argmin_from_first (l : list Q) : forall pre best_i best,
  pre !! best_i = Some best ->
  (forall y, y ∈ pre -> (best <= y)%Q) ->
  (forall k y, k < best_i -> pre !! k = Some y -> (best < y)%Q) ->
  exists v, (pre ++ l) !! argmin_from best_i best (length pre) l = Some v
    /\ forall k y, k < argmin_from best_i best (length pre) l ->
         (pre ++ l) !! k = Some y -> (v < y)%Q.
Proof.
  induction l as [|x l IH]; intros pre best_i best Hlook Hleast Hfirst; simpl.
  - exists best. rewrite app_nil_r. auto.
  - replace (pre ++ x :: l) with ((pre ++ [x]) ++ l) by (rewrite <- app_assoc; reflexivity).
    replace (S (length pre)) with (length (pre ++ [x])) by (rewrite length_app; simpl; lia).
    pose proof (lookup_lt_Some _ _ _ Hlook) as Hbi.
    destruct (Qle_bool best x) eqn:E.
    + apply Qle_bool_iff in E. apply IH.
      * apply lookup_app_l_Some, Hlook.
      * intros y Hy. apply elem_of_app in Hy as [Hy|Hy]; [auto|].
        apply list_elem_of_singleton in Hy. subst. exact E.
      * intros k y Hk Hy. rewrite lookup_app_l in Hy by lia. eauto.
    + assert (Hlt : (x < best)%Q).
      { destruct (Qlt_le_dec x best) as [H|H]; [exact H|].
        apply Qle_bool_iff in H. congruence. }
      apply IH.
      * rewrite lookup_app_r by lia. rewrite Nat.sub_diag. reflexivity.
      * intros y Hy. apply elem_of_app in Hy as [Hy|Hy].
        -- apply Qlt_le_weak. eapply Qlt_le_trans; [exact Hlt | auto].
        -- apply list_elem_of_singleton in Hy. subst. apply Qle_refl.
      * intros k y Hk Hy. rewrite lookup_app_l in Hy by lia.
        eapply Qlt_le_trans; [exact Hlt|]. apply Hleast.
        eapply list_elem_of_lookup_2, Hy.
Qed.

(** X2: among the candidates of least BIC, [get_optimal_clusters] returns
    the smallest: every candidate below the returned one has a strictly
    greater BIC ([np.argmin] takes the first minimum). *)
Theorem get_optimal_clusters_first_minimum (X : matrix) (max_clusters : nat)
    (random_state : Z) (g : rng_state) t g' n :
  get_optimal_clusters X max_clusters random_state g = (t, g', Ok n) ->
  forall c, 1 <= c < n ->
    (GaussianMixture_bic n random_state X < GaussianMixture_bic c random_state X)%Q.
Proof.
  unfold get_optimal_clusters, mbind, M_bind. rewrite RaptorFacts.bic_loop_run.
  set (cands := arange_from_1 (Nat.min max_clusters (length X))).
  set (bics := map (fun n => GaussianMixture_bic n random_state X) cands).
  unfold lift. destruct bics as [|b0 rest] eqn:Eb; simpl; [discriminate|].
  destruct (argmin_from_first rest [b0] 0 b0 eq_refl) as (v & Hv & Hfirst).
  { intros y Hy. apply list_elem_of_singleton in Hy. subst. apply Qle_refl. }
  { intros k y Hk. lia. }
  simpl in Hv, Hfirst. set (i := argmin_from 0 b0 1 rest) in *.
  unfold index. destruct (cands !! i) as [n'|] eqn:Hn; simpl; [|discriminate].
  intros H. inversion H; subst n'. clear H.
  intros c Hc.
  assert (Hci : forall j m, cands !! j = Some m -> m = S j).
  { intros j m Hj. unfold cands, arange_from_1 in Hj.
    apply lookup_seq in Hj. lia. }
  pose proof (Hci i n Hn) as Hni.
  assert (Hcc : cands !! (c - 1) = Some c).
  { unfold cands, arange_from_1. apply lookup_seq.
    apply lookup_lt_Some in Hn. unfold cands, arange_from_1 in Hn.
    rewrite length_seq in Hn. lia. }
  assert (Hbn : (b0 :: rest) !! i = Some (GaussianMixture_bic n random_state X)).
  { rewrite <- Eb. unfold bics. rewrite lookup_map, Hn. reflexivity. }
  assert (Hbc : (b0 :: rest) !! (c - 1) = Some (GaussianMixture_bic c random_state X)).
  { rewrite <- Eb. unfold bics. rewrite lookup_map, Hcc. reflexivity. }
  change ((b0 :: rest) !! i = Some v) in Hv. rewrite Hbn in Hv. inversion Hv; subst v.
  apply (Hfirst (c - 1)); [lia | exact Hbc].
Qed.

Lemma where_gt_from_increasing (prob : list Q) (threshold : Q) : forall j0,
  increasing (where_gt_from j0 prob threshold)
  /\ forall j, j ∈ where_gt_from j0 prob threshold -> j0 <= j < j0 + length prob.
Proof.
  induction prob as [|p prob IH]; intros j0; simpl.
  - split; [constructor | intros j H; inversion H].
  - destruct (IH (S j0)) as (Hs & Hb).
    destruct (Qle_bool p threshold).
    + split; [exact Hs|]. intros j Hj. specialize (Hb j Hj). lia.
    + split.
      * constructor; [exact Hs|]. apply Forall_forall. intros j Hj.
        specialize (Hb j Hj). lia.
      * intros j Hj. apply elem_of_cons in Hj as [->|Hj]; [lia|].
        specialize (Hb j Hj). lia.
Qed.

Lemma row_sum_bound (prob : list Q) (threshold : Q) :
  (forall p, p ∈ prob -> (p <= threshold)%Q) ->
  (row_sum prob <= inject_Z (Z.of_nat (length prob)) * threshold)%Q.
Proof.
  induction prob as [|p prob IH]; intros Hall.
  - simpl. unfold Qle. simpl. lia.
  - cbn [row_sum fold_right length]. fold (row_sum prob).
    rewrite Nat2Z.inj_succ, <- Z.add_1_l, inject_Z_plus.
    assert (E : ((inject_Z 1 + inject_Z (Z.of_nat (length prob))) * threshold
                 == threshold + inject_Z (Z.of_nat (length prob)) * threshold)%Q) by ring.
    rewrite E. apply Qplus_le_compat.
    + apply Hall. apply elem_of_cons. auto.
    + apply IH. intros q Hq. apply Hall. apply elem_of_cons. auto.
Qed.

Lemma row_sum_repeat (q : Q) (n : nat) :
  (row_sum (repeat q n) == inject_Z (Z.of_nat n) * q)%Q.
Proof.
  induction n as [|n IH].
  - simpl. ring.
  - cbn [repeat row_sum fold_right]. fold (row_sum (repeat q n)).
    rewrite IH, Nat2Z.inj_succ, <- Z.add_1_l, inject_Z_plus. ring.
Qed.

Lemma where_gt_from_none (prob : list Q) (threshold : Q) : forall j0,
  (forall p, p ∈ prob -> (p <= threshold)%Q) ->
  where_gt_from j0 prob threshold = [].
Proof.
  induction prob as [|p prob IH]; intros j0 Hall; [reflexivity|]. simpl.
  assert (Hp : Qle_bool p threshold = true).
  { apply Qle_bool_iff, Hall, elem_of_cons. auto. }
  rewrite Hp. apply IH. intros q Hq. apply Hall, elem_of_cons. auto.
Qed.

Lemma pos_of_nat_Z (n : nat) : 0 < n -> Zpos (Pos.of_nat n) = Z.of_nat n.
Proof.
  intros Hn. rewrite <- (positive_nat_Z (Pos.of_nat n)), Nat2Pos.id by lia.
  reflexivity.
Qed.

Lemma uniform_share_inv (n : nat) :
  0 < n -> (/ inject_Z (Z.of_nat n) == 1 # Pos.of_nat n)%Q.
Proof.
  intros Hn. unfold inject_Z. rewrite <- (pos_of_nat_Z n Hn). reflexivity.
Qed.

Lemma uniform_share (n : nat) :
  0 < n -> (inject_Z (Z.of_nat n) * (1 # Pos.of_nat n) == 1)%Q.
Proof.
  intros Hn. rewrite <- (uniform_share_inv n Hn). apply Qmult_inv_r.
  unfold inject_Z, Qeq. cbn [Qnum Qden]. lia.
Qed.

(** X3: the labels of an embedding are component indices in increasing
    order, each below the number of posteriors of its row; a row of [n]
    posteriors that sum to 1 gets at least one label whenever
    [n * threshold < 1] (with the notebook's threshold 0.1: whenever there
    are at most nine components); and this bound is sharp: as soon as
    [n * threshold >= 1] (from ten components on at 0.1) the row that
    spreads its mass evenly over the [n] components sums to 1 and gets no
    label at all. *)
Theorem soft_labels_increasing_and_nonempty (prob : list Q) (threshold : Q) :
  increasing (where_gt prob threshold)
  /\ (forall j, j ∈ where_gt prob threshold -> j < length prob)
  /\ ((row_sum prob == 1)%Q ->
      (inject_Z (Z.of_nat (length prob)) * threshold < 1)%Q ->
      where_gt prob threshold <> [])
  /\ (forall n, 0 < n -> (1 <= inject_Z (Z.of_nat n) * threshold)%Q ->
      length (uniform n) = n
      /\ (row_sum (uniform n) == 1)%Q
      /\ where_gt (uniform n) threshold = []).
Proof.
  unfold where_gt. destruct (where_gt_from_increasing prob threshold 0) as (Hs & Hb).
  split; [exact Hs|]. split; [intros j Hj; specialize (Hb j Hj); lia|].
  split; [|intros n Hn Hth; unfold uniform;
           split; [apply repeat_length|];
           split; [rewrite row_sum_repeat; apply uniform_share, Hn|]].
  2:{ apply where_gt_from_none. intros p Hp. apply list_elem_of_In, repeat_spec in Hp.
      subst p.
      assert (H : (1 / inject_Z (Z.of_nat n) <= threshold)%Q).
      { apply Qle_shift_div_r; [|rewrite Qmult_comm; exact Hth].
        unfold Qlt, inject_Z. cbn [Qnum Qden]. lia. }
      unfold Qdiv in H. rewrite Qmult_1_l in H.
      rewrite <- (uniform_share_inv n Hn). exact H. }
  intros Hsum Hn Hnil.
  assert (Hall : forall p, p ∈ prob -> (p <= threshold)%Q).
  { intros p Hp. destruct (Qlt_le_dec threshold p) as [Hlt|Hle]; [|exact Hle].
    exfalso. apply list_elem_of_lookup_1 in Hp as (k & Hk).
    assert (Hin : k ∈ where_gt_from 0 prob threshold).
    { apply RaptorFacts.where_gt_from_spec. exists k, p. auto. }
    rewrite Hnil in Hin. inversion Hin. }
  pose proof (row_sum_bound prob threshold Hall) as Hbound.
  rewrite Hsum in Hbound. exact (Qlt_not_le _ _ Hn Hbound).
Qed.
End Facts.

#[local] Existing Instance Sample.backend.

Lemma get_optimal_clusters_needs_two_rows_witness :
  Nat.min 50 (length one_row) <= 1
  /\ get_optimal_clusters (B := Sample.backend) one_row 50 RANDOM_SEED 0%nat
     = ([], 0%nat, Raise ValueError)
  /\ GMM_cluster (B := Sample.backend) one_row (1 # 10) 0 0%nat
     = ([], 0%nat, Raise ValueError).
Proof.
  assert (H : Nat.min 50 (length one_row) <= 1) by (simpl; lia).
  destruct (get_optimal_clusters_needs_two_rows (B := Sample.backend)
              one_row 50 (1 # 10) 0 0%nat H) as [H1 H2].
  split; [exact H|]. split; [exact H1 | apply H2; simpl; lia].
Defined.

Lemma get_optimal_clusters_first_minimum_witness :
  get_optimal_clusters (B := Sample.backend) Sample.four_rows 50 RANDOM_SEED 0%nat
    = (bic_events 50 RANDOM_SEED Sample.four_rows, 0%nat, Ok 2)
  /\ (GaussianMixture_bic 2 RANDOM_SEED Sample.four_rows
      < GaussianMixture_bic 1 RANDOM_SEED Sample.four_rows)%Q.
Proof.
  assert (H : get_optimal_clusters (B := Sample.backend) Sample.four_rows 50
                RANDOM_SEED 0%nat
              = (bic_events 50 RANDOM_SEED Sample.four_rows, 0%nat, Ok 2))
    by reflexivity.
  split; [exact H|].
  apply (get_optimal_clusters_first_minimum (B := Sample.backend) _ _ _ _ _ _ _ H 1).
  lia.
Defined.

Lemma soft_labels_increasing_and_nonempty_witness :
  (row_sum posterior == 1)%Q
  /\ (inject_Z (Z.of_nat (length posterior)) * (1 # 10) < 1)%Q
  /\ where_gt posterior (1 # 10) <> []
  /\ 0 < 10
  /\ (1 <= inject_Z (Z.of_nat 10) * (1 # 10))%Q
  /\ length (uniform 10) = 10
  /\ (row_sum (uniform 10) == 1)%Q
  /\ where_gt (uniform 10) (1 # 10) = [].
Proof.
  assert (H1 : (row_sum posterior == 1)%Q) by reflexivity.
  assert (H2 : (inject_Z (Z.of_nat (length posterior)) * (1 # 10) < 1)%Q) by reflexivity.
  assert (H3 : 0 < 10) by lia.
  assert (H4 : (1 <= inject_Z (Z.of_nat 10) * (1 # 10))%Q) by (vm_compute; discriminate).
  destruct (soft_labels_increasing_and_nonempty posterior (1 # 10))
    as (_ & _ & Hsome & Hnone).
  split; [exact H1|]. split; [exact H2|]. split; [exact (Hsome H1 H2)|].
  split; [exact H3|]. split; [exact H4|]. exact (Hnone 10 H3 H4).
Defined.
End RaptorMore.


(** ** RAPTOR: frames, small inputs and the chain of levels *)

Module RaptorLevels.
Import Raptor RaptorSpec.
Section Facts.
Context `{B : Backend}.

Lemma bind_inv {A C} (m : M A) (f : A -> M C) g t g' c :
  (m ≫= f) g = (t, g', Ok c) ->
  exists t1 g1 a t2,
    m g = (t1, g1, Ok a) /\ f a g1 = (t2, g', Ok c) /\ t = t1 ++ t2.
Proof.
  unfold mbind, M_bind. destruct (m g) as [[t1 g1] [a|e]]; [|discriminate].
  destruct (f a g1) as [[t2 g2] r2] eqn:Ef. intros H. inversion H; subst.
  exists t1, g1, a, t2. auto.
Qed.

Lemma make_frame_columns texts embs labels df :
  make_frame texts embs labels = Ok df ->
  map text df = texts /\ map embd df = embs /\ map cluster df = labels.
Proof.
  unfold make_frame.
  destruct (length embs =? length texts) eqn:E1; [|discriminate].
  destruct (length labels =? length texts) eqn:E2; [|discriminate].
  apply Nat.eqb_eq in E1, E2. simpl. intros H. inversion H; subst.
  apply RaptorFacts.zip_rows_columns; assumption.
Qed.

Lemma embed_cluster_texts_inv texts g t g' df :
  embed_cluster_texts texts g = (t, g', Ok df) ->
  exists t_clustering,
    t = EvEmbed texts :: t_clustering
    /\ perform_clustering (embed_documents texts) 10 (1 # 10) g
       = (t_clustering, g', Ok (map cluster df))
    /\ map text df = texts /\ map embd df = embed_documents texts.
Proof.
  unfold embed_cluster_texts. intros H.
  apply bind_inv in H as (t1 & g1 & X & t2 & Hembed & H & ->).
  unfold embed, mbind, M_bind, emit, mret, M_ret in Hembed. simpl in Hembed.
  inversion Hembed; subst. clear Hembed.
  apply bind_inv in H as (t3 & g3 & labels & t4 & Hpc & Hframe & ->).
  unfold lift in Hframe. inversion Hframe; subst. clear Hframe.
  match goal with H : make_frame _ _ _ = Ok df |- _ =>
    destruct (make_frame_columns _ _ _ _ H) as (Ht & He & Hc) end.
  exists t3. rewrite Hc, app_nil_r. auto.
Qed.

(** The summary frame built for the distinct cluster ids. *)
Lemma step_inv texts lvl g t g' dfc dfs :
  embed_cluster_summarize_texts texts lvl g = (t, g', Ok (dfc, dfs)) ->
  map text dfc = texts
  /\ Forall (fun r => level r = lvl) dfs
  /\ map s_cluster dfs = unique (concat (map cluster dfc))
  /\ dfs <> [].
Proof.
  intros H. pose proof H as H0. unfold embed_cluster_summarize_texts in H0.
  apply bind_inv in H0 as (t1 & g1 & df & t2 & Hframe & _ & _).
  rewrite (RaptorFacts.summarize_after_clustering texts lvl g _ _ _ Hframe) in H.
  destruct (embed_cluster_texts_inv _ _ _ _ _ Hframe) as (tc & _ & _ & Htext & _).
  pose proof (RaptorFacts.expand_clusters df) as Hcol.
  destruct (flat_map expand df) as [|r rs] eqn:E; [discriminate|].
  cbn zeta in H.
  remember (unique (map x_cluster (r :: rs))) as cs eqn:Ecs.
  remember (map summarize_chain (map (context_of (r :: rs)) cs)) as ss eqn:Ess.
  remember (map (fun p : string * nat =>
                   {| summaries := p.1; level := lvl; s_cluster := p.2 |})
                (combine ss cs)) as frame eqn:Eframe.
  injection H as H_t H_g H_dfc H_dfs. clear H_t H_g. subst dfc dfs.
  destruct (RaptorFacts.summary_columns lvl ss cs) as (H1 & H2);
    [rewrite Ess, !length_map; reflexivity|].
  cbn zeta in H1, H2. rewrite <- Eframe in H1, H2.
  split; [exact Htext|]. split; [|split].
  - rewrite Eframe. apply Forall_forall. intros x Hx.
    apply elem_of_map in Hx as (q & -> & _). reflexivity.
  - rewrite H2, Ecs, Hcol. reflexivity.
  - intros Hnil. rewrite Hnil in H2. simpl in H2. rewrite Ecs in H2.
    simpl in H2. discriminate.
Qed.

Lemma recursive_fuel_chained (fuel : nat) :
  forall texts (lvl n_levels : Z) g t g' d,
    recursive_embed_cluster_summarize_fuel fuel texts lvl n_levels g
      = Some (t, g', Ok d) ->
    (exists dfc dfs, d !! lvl = Some (dfc, dfs) /\ map text dfc = texts)
    /\ (forall k, is_Some (d !! k) -> (lvl <= k)%Z)
    /\ chained n_levels d.
Proof.
  induction fuel as [|fuel IH]; intros texts lvl n_levels g t g' d; [discriminate|].
  simpl.
  destruct (embed_cluster_summarize_texts texts lvl g)
    as [[t1 g1] [[dfc dfs]|e]] eqn:Estep; [|discriminate].
  destruct (step_inv _ _ _ _ _ _ _ Estep) as (Htext & Hlevel & Hcl & _).
  assert (Hnd : NoDup (map s_cluster dfs)).
  { rewrite Hcl. apply RaptorFacts.unique_NoDup. }
  assert (Hsingle :
    forall d0 : results_dict, d0 = {[ lvl := (dfc, dfs) ]} ->
      (exists dfc0 dfs0, d0 !! lvl = Some (dfc0, dfs0) /\ map text dfc0 = texts)
      /\ (forall k, is_Some (d0 !! k) -> (lvl <= k)%Z)
      /\ chained n_levels d0).
  { intros d0 ->. split; [|split].
    - exists dfc, dfs. rewrite lookup_singleton_eq. auto.
    - intros k [v Hk]. apply lookup_singleton_Some in Hk as [<- _]. lia.
    - intros l a b Hl. apply lookup_singleton_Some in Hl as [<- Hab].
      inversion Hab; subst. split; [exact Hlevel|]. split; [exact Hnd|].
      intros a' b' Hnext. apply lookup_singleton_Some in Hnext as [Hk _]. lia. }
  destruct (lvl <? n_levels)%Z eqn:Elt; simpl.
  - destruct (1 <? nunique (map s_cluster dfs)) eqn:Eu.
    + destruct (recursive_embed_cluster_summarize_fuel fuel _ _ _ g1)
        as [[[t2 g2] r2]|] eqn:Erec; [|discriminate].
      destruct r2 as [next|e]; simpl; [|discriminate].
      intros H. inversion H; subst. clear H.
      destruct (IH _ _ _ _ _ _ _ Erec) as ((dfc1 & dfs1 & Hnext & Htext1) & Hlow & Hch).
      assert (Hnone : next !! lvl = None).
      { destruct (next !! lvl) as [v|] eqn:E; [|reflexivity].
        specialize (Hlow lvl (ex_intro _ v E)). lia. }
      unfold update. split; [|split].
      * exists dfc, dfs. rewrite lookup_union_r by exact Hnone.
        rewrite lookup_singleton_eq. auto.
      * intros k [v Hk]. apply lookup_union_Some_raw in Hk as [Hk|[_ Hk]].
        -- specialize (Hlow k (ex_intro _ _ Hk)). lia.
        -- apply lookup_singleton_Some in Hk as [<- _]. lia.
      * intros l a b Hl. apply lookup_union_Some_raw in Hl as [Hl|[_ Hl]].
        -- destruct (Hch l a b Hl) as (H1 & H2 & H3).
           split; [exact H1|]. split; [exact H2|].
           intros a' b' Hn. apply lookup_union_Some_raw in Hn as [Hn|[_ Hn]].
           ++ exact (H3 a' b' Hn).
           ++ apply lookup_singleton_Some in Hn as [Hk _].
              specialize (Hlow l (ex_intro _ _ Hl)). lia.
        -- apply lookup_singleton_Some in Hl as [<- Hab]. inversion Hab; subst.
           split; [exact Hlevel|]. split; [exact Hnd|].
           intros a' b' Hn. apply lookup_union_Some_raw in Hn as [Hn|[_ Hn]].
           ++ rewrite Hnext in Hn. inversion Hn; subst.
              split; [apply Z.ltb_lt, Elt|]. split; [apply Nat.ltb_lt, Eu|].
              exact Htext1.
           ++ apply lookup_singleton_Some in Hn as [Hk _]. lia.
    + intros H. inversion H; subst. apply Hsingle. reflexivity.
  - intros H. inversion H; subst. apply Hsingle. reflexivity.
Qed.

(** X4: in a dictionary returned by [recursive_embed_cluster_summarize]
    the entry of the starting level holds the given texts, every summary
    row carries the level of its key, the cluster ids of a level are
    distinct, and an entry one level up exists only below [n_levels] and
    after more than one cluster, with the summaries below as its texts. *)
Theorem levels_chain_summaries_to_texts (texts : list string) (lvl n_levels : Z)
    (g : rng_state) t g' d :
  recursive_embed_cluster_summarize texts lvl n_levels g = Some (t, g', Ok d) ->
  (exists dfc dfs, d !! lvl = Some (dfc, dfs) /\ map text dfc = texts)
  /\ chained n_levels d.
Proof.
  unfold recursive_embed_cluster_summarize. intros H.
  destruct (recursive_fuel_chained _ _ _ _ _ _ _ _ H) as (H1 & _ & H2). auto.
Qed.

Context {L : BackendLaws B}.

Lemma embed_cluster_texts_frame (texts : list string) (g : rng_state) :
  exists t_clustering g' df,
    embed_cluster_texts texts g = (EvEmbed texts :: t_clustering, g', Ok df)
    /\ perform_clustering (embed_documents texts) 10 (1 # 10) g
       = (t_clustering, g', Ok (map cluster df))
    /\ map text df = texts
    /\ map embd df = embed_documents texts
    /\ length df = length texts.
Proof.
  destruct (RaptorFacts.perform_clustering_total (embed_documents texts) 10 (1 # 10) g)
    as (t & g1 & labels & Hpc & Hlen).
  pose proof (embed_rows texts) as Hrows.
  destruct (RaptorFacts.zip_rows_columns texts (embed_documents texts) labels Hrows)
    as (Htext & Hembd & Hcluster); [lia|].
  exists t, g1, (zip_rows texts (embed_documents texts) labels).
  split; [|split; [rewrite Hcluster; exact Hpc|split; [exact Htext|split; [exact Hembd|]]]].
  - unfold embed_cluster_texts.
    eapply (RaptorFacts.bind_ok _ _ _ [EvEmbed texts] g); [reflexivity|].
    rewrite <- (app_nil_r t).
    eapply RaptorFacts.bind_ok; [exact Hpc|].
    unfold lift, make_frame. rewrite Hrows, Hlen, Hrows, Nat.eqb_refl. reflexivity.
  - rewrite <- (length_map text), Htext. reflexivity.
Qed.

(** X5: [embed_cluster_texts] makes one embedding call, then clusters, and
    its three column assignments never fail: the frame has one row per
    text, in order, with that text, its embedding and its labels. *)
Theorem embed_cluster_texts_one_row_per_text (texts : list string) (g : rng_state) :
  exists t_clustering g' df,
    embed_cluster_texts texts g = (EvEmbed texts :: t_clustering, g', Ok df)
    /\ perform_clustering (embed_documents texts) 10 (1 # 10) g
       = (t_clustering, g', Ok (map cluster df))
    /\ map text df = texts
    /\ map embd df = embed_documents texts
    /\ length df = length texts.
Proof. exact (embed_cluster_texts_frame texts g). Qed.

(** X6: without any text there is no cluster id, the expanded frame has no
    "cluster" column and, right after the embedding call, the step raises
    [KeyError]; the recursive function raises with it, at any level and
    for any depth limit. *)
Theorem no_texts_raise_KeyError (lvl n_levels : Z) (g : rng_state) :
  embed_cluster_summarize_texts [] lvl g = ([EvEmbed []], g, Raise KeyError)
  /\ recursive_embed_cluster_summarize [] lvl n_levels g
     = Some ([EvEmbed []], g, Raise KeyError).
Proof.
  assert (Hstep : embed_cluster_summarize_texts [] lvl g
                  = ([EvEmbed []], g, Raise KeyError)).
  { pose proof (embed_rows []) as Hrows. simpl in Hrows.
    assert (Hpc : perform_clustering (embed_documents []) 10 (1 # 10) g
                  = ([], g, Ok [])).
    { rewrite RaptorFacts.perform_clustering_small by lia.
      destruct (embed_documents []); [reflexivity | discriminate]. }
    assert (Hframe : embed_cluster_texts [] g = ([EvEmbed []], g, Ok [])).
    { unfold embed_cluster_texts.
      change [EvEmbed []] with ([EvEmbed []] ++ ([] ++ [])).
      eapply RaptorFacts.bind_ok; [reflexivity|].
      eapply RaptorFacts.bind_ok; [exact Hpc|].
      unfold lift, make_frame. rewrite Hrows. reflexivity. }
    rewrite (RaptorFacts.summarize_after_clustering [] lvl g _ _ _ Hframe).
    reflexivity. }
  split; [exact Hstep|].
  unfold recursive_embed_cluster_summarize. simpl. rewrite Hstep. reflexivity.
Qed.

Lemma expand_single_cluster (texts : list string) : forall df,
  map text df = texts ->
  map cluster df = map (fun _ => [0]) texts ->
  map x_cluster (flat_map expand df) = map (fun _ => 0) texts
  /\ map x_text (List.filter (fun r => x_cluster r =? 0) (flat_map expand df)) = texts.
Proof.
  induction texts as [|x texts IH]; intros [|row df] Ht Hc; simpl in *;
    try discriminate; auto.
  injection Ht as Hx Ht'. injection Hc as Hcx Hc'.
  destruct (IH df Ht' Hc') as (H1 & H2).
  unfold expand at 1 3. rewrite Hcx. simpl. rewrite H1, H2, Hx. auto.
Qed.

(** X7: from one to eleven texts are never clustered: no UMAP and no
    mixture is called, the summarizing chain is invoked exactly once, on
    all the texts joined by the delimiter, the summary frame has the single
    cluster 0, and the recursion stops at this level whatever the depth
    limit. *)
Theorem few_texts_one_summary (texts : list string) (lvl n_levels : Z)
    (g : rng_state) :
  texts <> [] -> length texts <= 11 ->
  let context := String.concat delimiter texts in
  let df_summary :=
    [{| summaries := summarize_chain context; level := lvl; s_cluster := 0 |}] in
  exists df_clusters,
    embed_cluster_summarize_texts texts lvl g
      = ([EvEmbed texts; EvLLM context], g, Ok (df_clusters, df_summary))
    /\ map text df_clusters = texts
    /\ map cluster df_clusters = map (fun _ => [0]) texts
    /\ recursive_embed_cluster_summarize texts lvl n_levels g
       = Some ([EvEmbed texts; EvLLM context], g,
               Ok {[ lvl := (df_clusters, df_summary) ]}).
Proof.
  intros Hne Hlen. cbn zeta.
  destruct (embed_cluster_texts_frame texts g)
    as (t & g1 & df & Hframe & Hpc & Htext & _ & _).
  rewrite RaptorFacts.perform_clustering_small in Hpc
    by (rewrite embed_rows; lia).
  inversion Hpc as [[Ht Hg Hlabels]]. subst t g1.
  assert (Hcl : map cluster df = map (fun _ => [0]) texts).
  { rewrite <- Hlabels. clear -L. generalize (embed_rows texts).
    generalize (embed_documents texts). induction texts as [|x xs IH];
      intros [|e X] Hl; simpl in *; try discriminate; auto.
    f_equal. apply IH. lia. }
  destruct (expand_single_cluster texts df Htext Hcl) as (Hcol & Hctx).
  assert (Hstep : embed_cluster_summarize_texts texts lvl g
            = ([EvEmbed texts; EvLLM (String.concat delimiter texts)], g,
               Ok (df, [{| summaries := summarize_chain (String.concat delimiter texts);
                           level := lvl; s_cluster := 0 |}]))).
  { rewrite (RaptorFacts.summarize_after_clustering texts lvl g _ _ _ Hframe).
    assert (Hu : unique (map x_cluster (flat_map expand df)) = [0]).
    { rewrite Hcol. destruct texts as [|x xs]; [congruence|]. simpl. f_equal.
      clear. induction xs as [|y ys IH]; simpl; [reflexivity|].
      rewrite IH. reflexivity. }
    destruct (flat_map expand df) as [|r rs] eqn:E.
    { destruct texts; [congruence | discriminate Hcol]. }
    cbn zeta. rewrite Hu. simpl. unfold context_of, fmt_txt. rewrite Hctx.
    reflexivity. }
  exists df. split; [exact Hstep|]. split; [exact Htext|]. split; [exact Hcl|].
  unfold recursive_embed_cluster_summarize. simpl. rewrite Hstep. simpl.
  rewrite andb_false_r. reflexivity.
Qed.
End Facts.

#[local] Existing Instance Sample.backend.

Lemma levels_chain_summaries_to_texts_witness :
  exists t d,
    recursive_embed_cluster_summarize (B := Sample.backend) Sample.twelve_texts 1 3 0%nat
      = Some (t, 1%nat, Ok d)
    /\ (exists dfc dfs, d !! 1%Z = Some (dfc, dfs) /\ map text dfc = Sample.twelve_texts)
    /\ chained 3 d.
Proof.
  eexists _, _.
  assert (H : recursive_embed_cluster_summarize (B := Sample.backend)
                Sample.twelve_texts 1 3 0%nat = Some (_, 1%nat, Ok _))
    by (vm_compute; reflexivity).
  split; [exact H|].
  exact (levels_chain_summaries_to_texts (B := Sample.backend) _ _ _ _ _ _ _ H).
Defined.

Lemma few_texts_one_summary_witness :
  two_texts <> [] /\ length two_texts <= 11
  /\ exists df_clusters,
      embed_cluster_summarize_texts (B := Sample.backend) two_texts 1 0%nat
        = ([EvEmbed two_texts; EvLLM (String.concat delimiter two_texts)], 0%nat,
           Ok (df_clusters,
               [{| summaries := String.concat delimiter two_texts;
                   level := 1; s_cluster := 0 |}]))
      /\ map text df_clusters = two_texts
      /\ map cluster df_clusters = map (fun _ => [0]) two_texts
      /\ recursive_embed_cluster_summarize (B := Sample.backend) two_texts 1 3 0%nat
         = Some ([EvEmbed two_texts; EvLLM (String.concat delimiter two_texts)], 0%nat,
                 Ok {[ 1%Z := (df_clusters,
                               [{| summaries := String.concat delimiter two_texts;
                                   level := 1; s_cluster := 0 |}]) ]}).
Proof.
  assert (H1 : two_texts <> []) by discriminate.
  assert (H2 : length two_texts <= 11) by (simpl; lia).
  split; [exact H1|]. split; [exact H2|].
  exact (few_texts_one_summary (L := RaptorFacts.sample_laws) two_texts 1 3 0%nat H1 H2).
Defined.

Lemma embed_cluster_texts_one_row_per_text_witness :
  BackendLaws Sample.backend
  /\ exists t_clustering g' df,
      embed_cluster_texts (B := Sample.backend) Sample.twelve_texts 0%nat
        = (EvEmbed Sample.twelve_texts :: t_clustering, g', Ok df)
      /\ perform_clustering (embed_documents Sample.twelve_texts) 10 (1 # 10) 0%nat
         = (t_clustering, g', Ok (map cluster df))
      /\ map text df = Sample.twelve_texts
      /\ map embd df = embed_documents Sample.twelve_texts
      /\ length df = length Sample.twelve_texts.
Proof.
  split; [exact RaptorFacts.sample_laws|].
  exact (embed_cluster_texts_one_row_per_text (L := RaptorFacts.sample_laws)
           Sample.twelve_texts 0%nat).
Defined.

Lemma no_texts_raise_KeyError_witness :
  BackendLaws Sample.backend
  /\ embed_cluster_summarize_texts (B := Sample.backend) [] 1 0%nat
     = ([EvEmbed []], 0%nat, Raise KeyError)
  /\ recursive_embed_cluster_summarize (B := Sample.backend) [] 1 3 0%nat
     = Some ([EvEmbed []], 0%nat, Raise KeyError).
Proof.
  split; [exact RaptorFacts.sample_laws|].
  exact (no_texts_raise_KeyError (L := RaptorFacts.sample_laws) 1 3 0%nat).
Defined.
End RaptorLevels.


(** ** RAPTOR: embeddings that are equal *)

Module RaptorEqualRows.
Import Raptor RaptorSpec.
Section Facts.
Context `{B : Backend} {L : BackendLaws B}.

Lemma row_eqb_sym (a : list Q) : forall b, row_eqb a b = true -> row_eqb b a = true.
Proof.
  unfold row_eqb. induction a as [|x a IH]; intros [|y b]; simpl; try discriminate; auto.
  intros H. apply andb_prop in H as [Hl H]. apply andb_prop in H as [Hxy H].
  specialize (IH b). rewrite Hl in IH. simpl in IH. specialize (IH H).
  apply andb_prop in IH as [Hl' IH]. rewrite Hl', IH, andb_true_r. simpl.
  apply Qeq_bool_iff. symmetry. apply Qeq_bool_iff, Hxy.
Qed.

Lemma row_eqb_trans (a : list Q) : forall b c,
  row_eqb a b = true -> row_eqb b c = true -> row_eqb a c = true.
Proof.
  unfold row_eqb. induction a as [|x a IH]; intros [|y b] [|z c]; simpl;
    try discriminate; auto.
  intros H1 H2.
  apply andb_prop in H1 as [Hl1 H1]. apply andb_prop in H1 as [Hxy H1].
  apply andb_prop in H2 as [Hl2 H2]. apply andb_prop in H2 as [Hyz H2].
  specialize (IH b c). rewrite Hl1, Hl2 in IH. simpl in IH. specialize (IH H1 H2).
  apply andb_prop in IH as [Hl IH]. rewrite Hl, IH, andb_true_r. simpl.
  apply Qeq_bool_iff. transitivity y; apply Qeq_bool_iff; assumption.
Qed.

Lemma labelled_equal_rows (X : matrix) runs i j ei ej c :
  X !! i = Some ei -> X !! j = Some ej -> row_eqb ei ej = true ->
  labelled X runs i c -> labelled X runs j c.
Proof.
  intros Hi Hj Heq (run & l & Hin & Hl & -> & k & r & ids & e & Hr & Hids & Hm & He & Hrow).
  exists run, l. split; [exact Hin|]. split; [exact Hl|]. split; [reflexivity|].
  exists k, r, ids, ej. repeat split; try assumption.
  rewrite Hi in He. inversion He; subst e.
  eapply row_eqb_trans; [apply row_eqb_sym, Heq | exact Hrow].
Qed.

(** X8: embeddings are matched to their clusters by value, so two
    embeddings with equal rows always end up with the same cluster ids. *)
Theorem equal_embeddings_share_cluster_ids (X : matrix) (dim : nat) (threshold : Q)
    (g : rng_state) t g' labels i j ei ej ids_i ids_j :
  perform_clustering X dim threshold g = (t, g', Ok labels) ->
  X !! i = Some ei -> X !! j = Some ej -> row_eqb ei ej = true ->
  labels !! i = Some ids_i -> labels !! j = Some ids_j ->
  forall c, c ∈ ids_i <-> c ∈ ids_j.
Proof.
  intros Hpc Hi Hj Heq Hli Hlj c.
  destruct (Nat.le_gt_cases (length X) (dim + 1)) as [Hsmall|Hbig].
  - rewrite RaptorFacts.perform_clustering_small in Hpc by exact Hsmall.
    injection Hpc as _ _ <-. rewrite lookup_map in Hli, Hlj.
    rewrite Hi in Hli. rewrite Hj in Hlj. simpl in Hli, Hlj.
    injection Hli as <-. injection Hlj as <-. reflexivity.
  - destruct (RaptorFacts.perform_clustering_run X dim threshold g Hbig)
      as (n & runs & g1 & labels1 & Hrun & _ & _ & _ & _ & _ & Hspec).
    cbn zeta in Hrun. rewrite Hrun in Hpc. injection Hpc as _ _ ->.
    destruct (Hspec i (lookup_lt_Some _ _ _ Hi)) as (a & Ha & Hia).
    destruct (Hspec j (lookup_lt_Some _ _ _ Hj)) as (b & Hb & Hjb).
    rewrite Hli in Ha. rewrite Hlj in Hb. injection Ha as <-. injection Hb as <-.
    rewrite Hia, Hjb. split.
    + apply (labelled_equal_rows X runs i j ei ej c Hi Hj Heq).
    + apply (labelled_equal_rows X runs j i ej ei c Hj Hi (row_eqb_sym _ _ Heq)).
Qed.
End Facts.

#[local] Existing Instance Sample.backend.

(** Rows 1 and 3 are equal: both get the id 1, and both get it twice, once
    for each of the two equal members of their cluster. *)
Example perform_clustering_five_rows :
  (perform_clustering (B := Sample.backend) five_rows 1 (1 # 10) 0%nat).2
  = Ok [[0]; [1; 1]; [1]; [1; 1]; [1]].
Proof. vm_compute. reflexivity. Qed.

Lemma equal_embeddings_share_cluster_ids_witness :
  exists t g' labels,
    perform_clustering (B := Sample.backend) five_rows 1 (1 # 10) 0%nat
      = (t, g', Ok labels)
    /\ five_rows !! 1 = Some [1%Q] /\ five_rows !! 3 = Some [1%Q]
    /\ row_eqb [1%Q] [1%Q] = true
    /\ labels !! 1 = Some [1; 1] /\ labels !! 3 = Some [1; 1]
    /\ forall c, c ∈ [1; 1] <-> c ∈ [1; 1].
Proof.
  eexists _, _, _.
  assert (H : perform_clustering (B := Sample.backend) five_rows 1 (1 # 10) 0%nat
              = (_, _, Ok _)) by (vm_compute; reflexivity).
  split; [exact H|]. split; [reflexivity|]. split; [reflexivity|].
  split; [reflexivity|]. split; [reflexivity|]. split; [reflexivity|].
  exact (equal_embeddings_share_cluster_ids (L := RaptorFacts.sample_laws)
           five_rows 1 (1 # 10) 0%nat _ _ _ 1 3 [1%Q] [1%Q] [1; 1] [1; 1]
           H eq_refl eq_refl eq_refl eq_refl eq_refl).
Defined.
End RaptorEqualRows.


(** ** The CRAG graph: state invariants and runs that cannot finish *)

Module CragMore.
Import Crag CragSpec.
Section Facts.
Context `{Sv : Services}.

Lemma path_map_generate (name : string) :
  name = "useful"%string \/ name = "notuseful"%string \/ name = "not supported"%string ->
  exists t, path_map generate_mapping name = Ok t.
Proof. intros [-> | [-> | ->]]; eexists; reflexivity. Qed.

Lemma step_ready (n : node) (state : GraphState) :
  ready (Node n) state ->
  exists state' t',
    run_node n state = Ok state' /\ next n state' = Ok t' /\ ready t' state'
    /\ question state' = question state.
Proof.
  destruct n; simpl; intros Hready.
  - eexists _, _. split; [reflexivity|]. split; [reflexivity|].
    split; [eexists; reflexivity | reflexivity].
  - eexists _, _. split; [reflexivity|]. split; [reflexivity|].
    split; [discriminate | reflexivity].
  - eexists _, _. split; [reflexivity|]. split; [reflexivity|].
    split; [exact I | reflexivity].
  - unfold generate_node. destruct (documents state) as [docs|] eqn:Ed; [|congruence].
    simpl.
    set (s1 := {| question := question state;
                  generation := Some (qa_chain (question state) docs);
                  documents := Some docs |}).
    assert (Hn : exists t', next generate s1 = Ok t' /\ ready t' s1).
    { simpl. unfold evaluate_response. simpl.
      destruct (String.eqb (hallucination_chain docs (qa_chain (question state) docs)) "yes");
        [destruct (String.eqb (answer_grader_chain (question state)
                                 (qa_chain (question state) docs)) "yes")|];
        simpl; eexists; (split; [reflexivity|]); simpl; try exact I; discriminate. }
    destruct Hn as (t' & Hn & Hr). exists s1, t'. auto.
  - destruct Hready as (docs & Hd). unfold grade_documents_node. rewrite Hd. simpl.
    set (s1 := {| question := question state; generation := generation state;
                  documents := Some (inl (filter_relevant (question state) docs)) |}).
    assert (Hn : exists t', next grade_documents s1 = Ok t' /\ ready t' s1).
    { simpl. unfold decide_to_generate. simpl.
      destruct (filter_relevant (question state) docs); simpl;
        eexists; (split; [reflexivity|]); simpl; try exact I; discriminate. }
    destruct Hn as (t' & Hn & Hr). exists s1, t'. auto.
Qed.

Lemma run_from_ready (recursion_limit : nat) :
  forall t state, ready t state ->
    (forall e, (run_from recursion_limit t state).2 <> Failed e)
    /\ forall final, (run_from recursion_limit t state).2 = Finished final ->
         question final = question state.
Proof.
  induction recursion_limit as [|limit IH]; intros [n|] state Hready; simpl;
    try (split; [discriminate | intros final H; inversion H; reflexivity]).
  destruct (step_ready n state Hready) as (state' & t' & Hrun & Hnext & Hr & Hq).
  rewrite Hrun, Hnext.
  destruct (IH t' state' Hr) as (Hno & Hfin).
  destruct (run_from limit t' state') as [path o]. simpl in *.
  split; [exact Hno|]. intros final Ho. rewrite (Hfin final Ho). exact Hq.
Qed.

Lemma entry_point_ready (state : GraphState) :
  exists t, entry_point state = Ok t /\ ready t state
    /\ (t = Node retrieve \/ t = Node web_search \/ t = Node fallback).
Proof.
  unfold entry_point, route_question.
  destruct (String.eqb _ "vectorstore"); [|destruct (String.eqb _ "web_search")];
    simpl; eexists; (split; [reflexivity|]); (split; [exact I|]); auto.
Qed.

Lemma run_pipeline_ready (recursion_limit : nat) (q : string) :
  (forall e, (run_pipeline recursion_limit q).2 <> Failed e)
  /\ forall final, (run_pipeline recursion_limit q).2 = Finished final ->
       question final = q.
Proof.
  unfold run_pipeline.
  destruct (entry_point_ready {| question := q; generation := None; documents := None |})
    as (t & Ht & Hr & _).
  rewrite Ht. exact (run_from_ready recursion_limit t _ Hr).
Qed.

(** X9: the graph never fails on its own state: [generate] always finds
    documents and [grade_documents] always finds a list, every name a
    routing function returns is in its path map, so a run either finishes
    or is stopped by the recursion limit; a finished run still carries the
    question it was asked. *)
Theorem run_pipeline_never_raises (recursion_limit : nat) (q : string) :
  (forall e, (run_pipeline recursion_limit q).2 <> Failed e)
  /\ forall final, (run_pipeline recursion_limit q).2 = Finished final ->
       question final = q.
Proof. exact (run_pipeline_ready recursion_limit q). Qed.

Lemma run_from_answer (recursion_limit : nat) :
  forall n state path final,
    run_from recursion_limit (Node n) state = (path, Finished final) ->
    (last path = Some fallback
     /\ generation final = Some (fallback_chain (question final)))
    \/ (last path = Some generate
        /\ exists docs,
             documents final = Some docs
             /\ generation final = Some (qa_chain (question final) docs)
             /\ hallucination_chain docs (qa_chain (question final) docs) = "yes"%string
             /\ answer_grader_chain (question final)
                  (qa_chain (question final) docs) = "yes"%string).
Proof.
  induction recursion_limit as [|limit IH]; intros n state path final; simpl;
    [discriminate|].
  destruct (run_node n state) as [state1|e] eqn:Erun; [|discriminate].
  destruct (next n state1) as [t'|e] eqn:En; [|discriminate].
  destruct t' as [n'|].
  - destruct (run_from limit (Node n') state1) as [p o] eqn:Er.
    intros H. injection H as <- ->.
    destruct (IH n' state1 p final Er) as [[Hl Hg]|[Hl Hg]];
      [left | right]; (split; [|exact Hg]);
      destruct p as [|x p]; try discriminate; exact Hl.
  - assert (Hend : (path, Finished final) = ([n], Finished state1) ->
             (last path = Some n /\ final = state1)).
    { intros H. injection H as -> ->. auto. }
    intros H. assert (H' : (path, Finished final) = ([n], Finished state1)).
    { destruct limit; simpl in H; [discriminate H | symmetry; exact H]. }
    destruct (Hend H') as (Hlast & ->). clear H H' Hend.
    apply CragFacts.next_END in En as [->|[-> Huse]].
    + left. split; [exact Hlast|]. simpl in Erun. unfold fallback_node in Erun.
      injection Erun as <-. reflexivity.
    + right. split; [exact Hlast|].
      simpl in Erun. unfold generate_node in Erun.
      destruct (documents state) as [docs|]; [|discriminate]. simpl in Erun.
      injection Erun as <-. simpl in *.
      apply CragFacts.evaluate_response_useful in Huse
        as (docs' & gen & Hd & Hg & Hh & Ha). simpl in *.
      injection Hd as <-. injection Hg as <-.
      exists docs. auto.
Qed.

(** X10: the answer of a finished run is either the fallback chain's, or
    the generation the question-answering chain made from the documents
    still in the state, and that generation was graded as grounded in
    these documents and as answering the question. *)
Theorem finished_run_answer (recursion_limit : nat) (q : string) path final :
  run_pipeline recursion_limit q = (path, Finished final) ->
  (last path = Some fallback /\ generation final = Some (fallback_chain q))
  \/ (last path = Some generate
      /\ exists docs,
           documents final = Some docs
           /\ generation final = Some (qa_chain q docs)
           /\ hallucination_chain docs (qa_chain q docs) = "yes"%string
           /\ answer_grader_chain q (qa_chain q docs) = "yes"%string).
Proof.
  intros H.
  assert (Hq : question final = q).
  { apply (proj2 (run_pipeline_ready recursion_limit q)). rewrite H. reflexivity. }
  unfold run_pipeline in H.
  destruct (entry_point _) as [t|e] eqn:E; [|discriminate].
  destruct t as [n|]; [|exfalso; exact (CragFacts.entry_point_not_END _ E)].
  rewrite <- Hq. exact (run_from_answer recursion_limit n _ path final H).
Qed.

Lemma filter_relevant_spec (q : string) (docs : list Document) :
  filter_relevant q docs `sublist_of` docs
  /\ forall doc, doc ∈ filter_relevant q docs
       <-> doc ∈ docs /\ grading_chain doc q = "yes"%string.
Proof.
  induction docs as [|d docs (Hsub & Hmem)]; simpl.
  - split; [constructor|]. intros doc. split; [intros H; inversion H | intros [H _]; inversion H].
  - destruct (String.eqb_spec (grading_chain d q) "yes") as [Hy|Hn].
    + split; [apply sublist_skip, Hsub|]. intros doc.
      rewrite !elem_of_cons, Hmem. split.
      * intros [->|[? ?]]; auto.
      * intros [[->|?] ?]; auto.
    + split; [apply sublist_cons, Hsub|]. intros doc.
      rewrite elem_of_cons, Hmem. split.
      * intros [? ?]; auto.
      * intros [[->|?] ?]; [congruence | auto].
Qed.

Lemma filter_relevant_fields_spec (q : string) (pairs : list Field) :
  filter_relevant_fields q pairs `sublist_of` pairs
  /\ forall doc, doc ∈ filter_relevant_fields q pairs
       <-> doc ∈ pairs /\ grading_chain_on_field doc q = "yes"%string.
Proof.
  induction pairs as [|d pairs (Hsub & Hmem)]; simpl.
  - split; [constructor|]. intros doc. split; [intros H; inversion H | intros [H _]; inversion H].
  - destruct (String.eqb_spec (grading_chain_on_field d q) "yes") as [Hy|Hn].
    + split; [apply sublist_skip, Hsub|]. intros doc.
      rewrite !elem_of_cons, Hmem. split.
      * intros [->|[? ?]]; auto.
      * intros [[->|?] ?]; auto.
    + split; [apply sublist_cons, Hsub|]. intros doc.
      rewrite elem_of_cons, Hmem. split.
      * intros [? ?]; auto.
      * intros [[->|?] ?]; [congruence | auto].
Qed.

(** X11: [grade_documents] keeps exactly the retrieved documents for
    which the grading chain's grade is the string 'yes', in their order,
    and changes neither the question nor the generation; on the single
    [Document] that [web_search] leaves, its loop goes over the document's
    [(name, value)] pairs and keeps, as a list, the pairs graded 'yes';
    without a "documents" key it raises [KeyError]. *)
Theorem grade_documents_keeps_relevant (state : GraphState) :
  (forall docs, documents state = Some (inl docs) ->
     exists kept,
       grade_documents_node state
         = Ok {| question := question state; generation := generation state;
                 documents := Some (inl kept) |}
       /\ kept `sublist_of` docs
       /\ forall doc, doc ∈ kept
            <-> doc ∈ docs /\ grading_chain doc (question state) = "yes"%string)
  /\ (forall document, documents state = Some (inr (inl document)) ->
     exists kept,
       grade_documents_node state
         = Ok {| question := question state; generation := generation state;
                 documents := Some (inr (inr kept)) |}
       /\ kept `sublist_of` fields document
       /\ forall doc, doc ∈ kept
            <-> doc ∈ fields document
                /\ grading_chain_on_field doc (question state) = "yes"%string)
  /\ (documents state = None -> grade_documents_node state = Raise KeyError).
Proof.
  split; [|split].
  - intros docs Hd. exists (filter_relevant (question state) docs).
    unfold grade_documents_node. rewrite Hd. simpl.
    split; [reflexivity | apply filter_relevant_spec].
  - intros document Hd.
    exists (filter_relevant_fields (question state) (fields document)).
    unfold grade_documents_node. rewrite Hd. simpl.
    split; [reflexivity | apply filter_relevant_fields_spec].
  - intros Hd. unfold grade_documents_node. rewrite Hd. reflexivity.
Qed.

(** X12: the graph has no way out of a generation that is not graded
    useful.  A generation graded as not grounded is made again from the
    same documents and graded the same, so from [generate] on the run only
    repeats [generate]; and when the generation made from the web results
    is not graded useful, a run that reaches [web_search] never finishes.
    For every recursion limit such a run ends with the limit reached. *)
Theorem ungraded_generation_never_finishes (q : string) :
  (forall docs,
      hallucination_chain docs (qa_chain q docs) <> "yes"%string ->
      forall recursion_limit state,
        question state = q -> documents state = Some docs ->
        run_from recursion_limit (Node generate) state
        = (repeat generate recursion_limit, GraphRecursionError))
  /\ ((hallucination_chain (web_documents q) (qa_chain q (web_documents q))
         <> "yes"%string
       \/ answer_grader_chain q (qa_chain q (web_documents q)) <> "yes"%string) ->
      forall recursion_limit state,
        question state = q ->
        (run_from recursion_limit (Node web_search) state).2 = GraphRecursionError).
Proof.
  split.
  - intros docs Hbad limit. induction limit as [|limit IH]; intros state Hq Hd;
      [reflexivity|].
    simpl. unfold generate_node. rewrite Hd. simpl.
    unfold evaluate_response. simpl. rewrite Hq.
    destruct (String.eqb_spec (hallucination_chain docs (qa_chain q docs)) "yes")
      as [Hy|_]; [congruence|].
    simpl. rewrite IH by reflexivity. reflexivity.
  - intros Hbad limit.
    assert (Hboth :
      (forall state, question state = q ->
         (run_from limit (Node web_search) state).2 = GraphRecursionError)
      /\ (forall state, question state = q ->
            documents state = Some (web_documents q) ->
            (run_from limit (Node generate) state).2 = GraphRecursionError)).
    { induction limit as [|limit (IHw & IHg)]; [split; reflexivity|]. split.
      - intros [qs gs ds] Hq. simpl in Hq. subst qs. simpl.
        specialize (IHg {| question := q; generation := gs;
                           documents := Some (web_documents q) |} eq_refl eq_refl).
        unfold web_documents in IHg at 1.
        destruct (run_from limit (Node generate) _) as [p o]. exact IHg.
      - intros [qs gs ds] Hq Hd. simpl in Hq, Hd. subst qs ds. simpl.
        unfold evaluate_response. simpl.
        destruct (String.eqb_spec
                    (hallucination_chain (web_documents q)
                       (qa_chain q (web_documents q))) "yes") as [Hy|Hn].
        + destruct (String.eqb_spec
                      (answer_grader_chain q (qa_chain q (web_documents q))) "yes")
            as [Ha|Hna]; [destruct Hbad; congruence|].
          simpl.
          specialize (IHw {| question := q;
                             generation := Some (qa_chain q (web_documents q));
                             documents := Some (web_documents q) |} eq_refl).
          destruct (run_from limit (Node web_search) _) as [p o]. exact IHw.
        + simpl.
          specialize (IHg {| question := q;
                             generation := Some (qa_chain q (web_documents q));
                             documents := Some (web_documents q) |} eq_refl eq_refl).
          destruct (run_from limit (Node generate) _) as [p o]. exact IHg. }
    exact (proj1 Hboth).
Qed.
End Facts.

#[local] Existing Instance CragSample.services.

Lemma finished_run_answer_witness :
  exists path final,
    run_pipeline (Sv := CragSample.services) default_recursion_limit "agents"
    = (path, Finished final)
    /\ ((last path = Some fallback
         /\ generation final
            = Some (fallback_chain (Services := CragSample.services) "agents"))
        \/ (last path = Some generate
            /\ exists docs,
                 documents final = Some docs
                 /\ generation final = Some (qa_chain "agents" docs)
                 /\ hallucination_chain docs (qa_chain "agents" docs) = "yes"%string
                 /\ answer_grader_chain "agents" (qa_chain "agents" docs)
                    = "yes"%string)).
Proof.
  eexists _, _.
  assert (H : run_pipeline (Sv := CragSample.services) default_recursion_limit "agents"
              = (_, Finished _)) by (vm_compute; reflexivity).
  split; [exact H|].
  exact (finished_run_answer (Sv := CragSample.services) _ _ _ _ H).
Defined.

Lemma run_pipeline_never_raises_witness :
  exists final,
    (run_pipeline (Sv := CragSample.services) default_recursion_limit "hello").2
    = Finished final
    /\ question final = "hello"%string.
Proof.
  eexists.
  assert (H : (run_pipeline (Sv := CragSample.services) default_recursion_limit
                 "hello").2 = Finished _) by reflexivity.
  split; [exact H|].
  exact (proj2 (run_pipeline_never_raises (Sv := CragSample.services)
                  default_recursion_limit "hello") _ H).
Defined.

Lemma grade_documents_keeps_relevant_witness :
  (documents retrieved = Some (inl ["agents"; "prompts"; "attacks"]%string)
   /\ exists kept,
       grade_documents_node retrieved
         = Ok {| question := "agents"; generation := None;
                 documents := Some (inl kept) |}
       /\ kept `sublist_of` ["agents"; "prompts"; "attacks"]%string
       /\ forall doc, doc ∈ kept
            <-> doc ∈ ["agents"; "prompts"; "attacks"]%string
                /\ grading_chain (Services := CragSample.services) doc "agents"
                   = "yes"%string)
  /\ (documents CragSample.agents_after_web = Some (inr (inl "web: agents"%string))
      /\ exists kept,
          grade_documents_node CragSample.agents_after_web
            = Ok {| question := "agents"; generation := Some "from the web"%string;
                    documents := Some (inr (inr kept)) |}
          /\ kept `sublist_of` fields (Services := CragSample.services) "web: agents"%string
          /\ forall doc, doc ∈ kept
               <-> doc ∈ fields (Services := CragSample.services) "web: agents"%string
                   /\ grading_chain_on_field (Services := CragSample.services) doc "agents"
                      = "yes"%string).
Proof.
  split.
  - split; [reflexivity|].
    exact (proj1 (grade_documents_keeps_relevant (Sv := CragSample.services) retrieved)
             _ eq_refl).
  - split; [reflexivity|].
    exact (proj1 (proj2 (grade_documents_keeps_relevant (Sv := CragSample.services)
                           CragSample.agents_after_web)) _ eq_refl).
Defined.

Lemma ungraded_generation_never_finishes_witness :
  answer_grader_chain (Services := never_satisfied) "why"
    (qa_chain (Services := never_satisfied) "why" (web_documents (Sv := never_satisfied) "why"))
  <> "yes"%string
  /\ (run_from (Sv := never_satisfied) default_recursion_limit (Node web_search)
        (asked "why")).2 = GraphRecursionError.
Proof.
  assert (H : answer_grader_chain (Services := never_satisfied) "why"
                (qa_chain (Services := never_satisfied) "why"
                   (web_documents (Sv := never_satisfied) "why"))
              <> "yes"%string) by discriminate.
  split; [exact H|].
  exact (proj2 (ungraded_generation_never_finishes (Sv := never_satisfied) "why")
           (or_intror H) default_recursion_limit (asked "why") eq_refl).
Defined.
End CragMore.

(** ** More about reciprocal rank fusion *)
Module RrfMore.
Import Rrf RrfSpec.
Section Facts.
Context {Document : Type}.
Variable dumps : Document -> string.
Variable loads : string -> Document.













Lemma ranked_keys (k : Q) (docs : list Document) : forall rank,
  (ranked dumps k rank docs).*1 = dumps <$> docs.
Proof.
  induction docs as [|doc rest IH]; intros rank; simpl; [reflexivity|].
  rewrite IH. reflexivity.
Qed.







End Facts.


(** A document repeated inside one list collects a term per repetition and
    can overtake the document ranked first. *)
Example repeated_document_overtakes :
  rrf (Document := string) id id [["a"; "b"; "b"]%string] 60
  = Ok [("b"%string, (0 + 1 / (inject_Z 1 + 60) + 1 / (inject_Z 2 + 60))%Q);
        ("a"%string, (0 + 1 / (inject_Z 0 + 60))%Q)].
Proof. reflexivity. Qed.
End RrfMore.

(** ** The fusion retrieval chain *)
Module FusionFacts.
Import MultiQuery Rrf Fusion.
Section Facts.
Context `{M : Llm} {Document : Type}.
Variable dumps : Document -> string.
Variable loads : string -> Document.
Variable retriever : string -> list Document.
Variable repr : string -> string.


End Facts.


(** On the sample, the document found for both queries comes first. *)
Example fusion_retrieval_chain_sample :
  fusion_retrieval_chain (M := MultiQuerySample.llm) id id
    FusionSample.retriever id "q" 0%nat
  = Ok [("x"%string, (0 + 1 / (inject_Z 0 + 60) + 1 / (inject_Z 0 + 60))%Q);
        ("y"%string, (0 + 1 / (inject_Z 1 + 60))%Q)].
Proof. reflexivity. Qed.
End FusionFacts.

(** ** The generated queries *)
Module MultiQueryMore.
Import MultiQuery MultiQuerySpec.

Lemma split_lines_count (x : string) :
  length (split_lines x) = S (count_char newline x).
Proof.
  induction x as [|c rest IH]; [reflexivity|]. simpl.
  destruct (Ascii.eqb c newline); simpl; [rewrite IH; reflexivity|].
  destruct (split_lines rest) as [|line lines]; simpl in *; [discriminate | exact IH].
Qed.

Lemma split_lines_no_newline (x : string) :
  Forall (fun line => has_char newline line = false) (split_lines x).
Proof.
  induction x as [|c rest IH]; simpl; [repeat constructor|].
  destruct (Ascii.eqb c newline) eqn:E; [constructor; [reflexivity | exact IH]|].
  destruct (split_lines rest) as [|line lines].
  - repeat constructor. simpl. rewrite E. reflexivity.
  - apply Forall_cons in IH as [Hline Hlines]. constructor; [|exact Hlines].
    simpl. rewrite E, Hline. reflexivity.
Qed.

(** X16: [generate_queries] returns one query more than the completion has
    newlines, whatever number the prompt asked for: never none, a blank
    line gives an empty query; no query contains a newline, and joining
    the queries with newlines gives the completion back. *)
Theorem generate_queries_one_per_line `{M : Llm} (question : string) (e : entropy) :
  let completion := ChatOpenAI "gpt-4" (7 # 10) (prompt question) e in
  length (generate_queries question e) = S (count_char newline completion)
  /\ Forall (fun query => has_char newline query = false) (generate_queries question e)
  /\ String.concat (String newline EmptyString) (generate_queries question e)
     = completion
  /\ (completion = EmptyString -> generate_queries question e = [EmptyString]).
Proof.
  intros completion. unfold generate_queries. fold completion.
  split; [apply split_lines_count|]. split; [apply split_lines_no_newline|].
  split; [apply NondeterminismFacts.concat_split_lines|].
  intros ->. reflexivity.
Qed.

Lemma generate_queries_one_per_line_witness :
  let completion :=
    ChatOpenAI (Llm := MultiQuerySample.llm) "gpt-4" (7 # 10) (prompt "q") 0%nat in
  length (generate_queries (M := MultiQuerySample.llm) "q" 0%nat)
  = S (count_char newline completion)
  /\ Forall (fun query => has_char newline query = false)
            (generate_queries (M := MultiQuerySample.llm) "q" 0%nat)
  /\ String.concat (String newline EmptyString)
       (generate_queries (M := MultiQuerySample.llm) "q" 0%nat)
     = completion
  /\ (completion = EmptyString ->
      generate_queries (M := MultiQuerySample.llm) "q" 0%nat = [EmptyString]).
Proof.
  exact (generate_queries_one_per_line (M := MultiQuerySample.llm) "q" 0%nat).
Defined.
End MultiQueryMore.

(** ** Multi-representation indexing *)
Module MultiVectorFacts.
Import MultiVector.
Section Facts.
Context {Document : Type}.
Variable uuid4 : nat -> string.

Lemma mset_lookup_other (pairs : list (string * Document)) : forall store key,
  (forall p, p ∈ pairs -> fst p <> key) ->
  mset pairs store !! key = store !! key.
Proof.
  induction pairs as [|p rest IH]; intros store key Hother; [reflexivity|].
  unfold mset. simpl. fold (mset rest (<[p.1:=p.2]> store)).
  rewrite IH.
  - apply lookup_insert_ne. apply Hother, elem_of_cons. auto.
  - intros q Hq. apply Hother, elem_of_cons. auto.
Qed.

(** The last pair stored under a key is the one found there. *)
Lemma mset_lookup_last (pairs : list (string * Document)) : forall store i key v,
  pairs !! i = Some (key, v) ->
  (forall j p, i < j -> pairs !! j = Some p -> fst p <> key) ->
  mset pairs store !! key = Some v.
Proof.
  induction pairs as [|p rest IH]; intros store i key v Hi Hlater; [discriminate|].
  unfold mset. simpl. fold (mset rest (<[p.1:=p.2]> store)).
  destruct i as [|i]; simpl in Hi.
  - inversion Hi; subst p. simpl. rewrite mset_lookup_other.
    + apply lookup_insert_eq.
    + intros q Hq. apply list_elem_of_lookup in Hq as [j Hj].
      apply (Hlater (S j)); [lia | exact Hj].
  - apply (IH _ i); [exact Hi|].
    intros j q Hj Hq. apply (Hlater (S j)); [lia | exact Hq].
Qed.

Lemma lookup_combine {A C} (l : list A) (k : list C) : forall i a c,
  combine l k !! i = Some (a, c) <-> l !! i = Some a /\ k !! i = Some c.
Proof.
  revert k. induction l as [|x l IH]; intros k i a c.
  - simpl. split; [discriminate | intros [H _]; discriminate].
  - destruct k as [|y k]; simpl.
    + split; [discriminate | intros [_ H]; discriminate].
    + destruct i as [|i]; simpl; [|apply IH].
      split; [intros [= -> ->]; auto | intros [[= ->] [= ->]]; reflexivity].
Qed.

Lemma doc_ids_lookup (docs : list Document) (i : nat) :
  i < length docs -> doc_ids uuid4 docs !! i = Some (uuid4 i).
Proof.
  intros Hi. unfold doc_ids. rewrite lookup_map, lookup_seq_lt by exact Hi.
  reflexivity.
Qed.

Lemma doc_ids_lookup_inv (docs : list Document) (i : nat) (key : string) :
  doc_ids uuid4 docs !! i = Some key -> i < length docs /\ key = uuid4 i.
Proof.
  unfold doc_ids. rewrite lookup_map. intros H.
  destruct (seq 0 (length docs) !! i) as [j|] eqn:E; [|discriminate].
  apply lookup_seq in E as [-> Hlt]. simpl in H. inversion H. auto.
Qed.

(** X17: the summary made from document [i] carries the identifier under
    which the document store returns document [i], unless a later document
    drew the same identifier, which then replaced it ([mset] keeps the
    last); summaries beyond the documents are dropped by [zip]. *)
Theorem summary_leads_to_its_document (docs : list Document)
    (summaries : list string) (i : nat) (s : string) (d : Document) :
  summaries !! i = Some s -> docs !! i = Some d ->
  (forall j, i < j < length docs -> uuid4 j <> uuid4 i) ->
  exists sd,
    summary_docs summaries (doc_ids uuid4 docs) !! i = Some sd
    /\ page_content sd = s
    /\ doc_id sd = uuid4 i
    /\ docstore uuid4 docs !! doc_id sd = Some d
    /\ length (summary_docs summaries (doc_ids uuid4 docs))
       = Nat.min (length summaries) (length docs).
Proof.
  intros Hs Hd Hlater.
  assert (Hi : i < length docs) by (apply lookup_lt_Some in Hd; exact Hd).
  exists {| page_content := s; doc_id := uuid4 i |}. simpl.
  split; [|split; [reflexivity|split; [reflexivity|split]]].
  - unfold summary_docs. rewrite lookup_map.
    assert (H : combine summaries (doc_ids uuid4 docs) !! i = Some (s, uuid4 i)).
    { apply lookup_combine. split; [exact Hs | apply doc_ids_lookup, Hi]. }
    rewrite H. reflexivity.
  - unfold docstore. apply (mset_lookup_last _ _ i).
    + apply lookup_combine. split; [apply doc_ids_lookup, Hi | exact Hd].
    + intros j [key v] Hj Hp. simpl. apply lookup_combine in Hp as [Hkey _].
      apply doc_ids_lookup_inv in Hkey as [Hlt ->]. apply Hlater. lia.
  - unfold summary_docs, doc_ids.
    rewrite length_map, length_combine, length_map, length_seq. reflexivity.
Qed.
End Facts.

Lemma summary_leads_to_its_document_witness :
  ["first"; "second"]%string !! 1 = Some "second"%string
  /\ ["doc 0"; "doc 1"]%string !! 1 = Some "doc 1"%string
  /\ (forall j, 1 < j < length ["doc 0"; "doc 1"]%string ->
        sample_uuid4 j <> sample_uuid4 1)
  /\ exists sd,
      summary_docs ["first"; "second"]%string
                   (doc_ids sample_uuid4 ["doc 0"; "doc 1"]%string) !! 1 = Some sd
      /\ page_content sd = "second"%string
      /\ doc_id sd = sample_uuid4 1
      /\ docstore sample_uuid4 ["doc 0"; "doc 1"]%string !! doc_id sd
         = Some "doc 1"%string
      /\ length (summary_docs ["first"; "second"]%string
                              (doc_ids sample_uuid4 ["doc 0"; "doc 1"]%string))
         = Nat.min (length ["first"; "second"]%string)
                   (length ["doc 0"; "doc 1"]%string).
Proof.
  assert (H1 : ["first"; "second"]%string !! 1 = Some "second"%string) by reflexivity.
  assert (H2 : ["doc 0"; "doc 1"]%string !! 1 = Some "doc 1"%string) by reflexivity.
  assert (H3 : forall j, 1 < j < length ["doc 0"; "doc 1"]%string ->
                 sample_uuid4 j <> sample_uuid4 1) by (simpl; lia).
  split; [exact H1|]. split; [exact H2|]. split; [exact H3|].
  exact (summary_leads_to_its_document sample_uuid4 _ _ 1 _ _ H1 H2 H3).
Defined.

(** With a repeated identifier the earlier document is no longer found:
    the fourth identifier of the sample equals the third. *)
Example repeated_identifier_replaces_document :
  docstore sample_uuid4 ["doc 0"; "doc 1"; "doc 2"; "doc 3"]%string
    !! sample_uuid4 2
  = Some "doc 3"%string.
Proof. vm_compute. reflexivity. Qed.
End MultiVectorFacts.

(** ** The texts indexed after the RAPTOR run *)
Module AllTextsFacts.
Import Raptor AllTexts.

Lemma extend_all (f : Z -> list string) (levels : list Z) : forall acc,
  fold_left (fun all_texts level => all_texts ++ f level) levels acc
  = acc ++ concat (map f levels).
Proof.
  induction levels as [|l levels IH]; intros acc; simpl.
  - rewrite app_nil_r. reflexivity.
  - rewrite IH, app_assoc. reflexivity.
Qed.

Lemma seqZ_sorted (m n : Z) : StronglySorted Z.le (seqZ m n).
Proof.
  unfold seqZ. apply (StronglySorted_fmap _ le); [intros x y Hxy; lia|].
  generalize 0 as a. induction (Z.to_nat n) as [|k IH]; intros a; simpl.
  - constructor.
  - constructor; [apply IH|]. apply Forall_forall. intros x Hx.
    apply elem_of_seq in Hx. lia.
Qed.

Lemma sorted_keys_consecutive (d : results_dict) (lvl top : Z) :
  (forall k : Z, k ∈ dom d <-> (lvl <= k <= top)%Z) ->
  sorted_keys d = seqZ lvl (top - lvl + 1).
Proof.
  intros Hdom. unfold sorted_keys.
  apply (StronglySorted_unique Z.le).
  - apply StronglySorted_merge_sort; apply _.
  - apply seqZ_sorted.
  - rewrite merge_sort_Permutation. apply NoDup_Permutation.
    + apply NoDup_fst_map_to_list.
    + apply NoDup_seqZ.
    + intros k. rewrite elem_of_seqZ.
      assert (E : (lvl <= k < lvl + (top - lvl + 1))%Z <-> k ∈ dom d)
        by (rewrite (Hdom k); lia).
      rewrite E, elem_of_dom. split.
      * intros H. apply list_elem_of_fmap in H as ([k' v] & -> & H).
        apply elem_of_map_to_list in H. simpl. eauto.
      * intros [v H]. apply list_elem_of_fmap. exists (k, v).
        split; [reflexivity | apply elem_of_map_to_list, H].
Qed.

Section Facts.
Context {B : Backend}.

(** X18: after a run that returned, [all_texts] is the leaf texts followed
    by the summaries of the first level, then those of the next, up to the
    last level the run reached, and nothing else. *)
Theorem all_texts_leaves_then_levels (texts : list string) (lvl n_levels : Z)
    (g : rng_state) t g' (d : results_dict) :
  recursive_embed_cluster_summarize texts lvl n_levels g = Some (t, g', Ok d) ->
  exists top : Z,
    (lvl <= top)%Z /\ (top <= n_levels \/ top = lvl)%Z
    /\ (forall k : Z, is_Some (d !! k) <-> (lvl <= k <= top)%Z)
    /\ all_texts texts d
       = texts ++ concat (map (summaries_at d) (seqZ lvl (top - lvl + 1))).
Proof.
  intros Hrun. unfold recursive_embed_cluster_summarize in Hrun.
  destruct (RaptorFacts.recursive_fuel_enough (S (Z.to_nat (n_levels - lvl)))
              texts lvl n_levels g) as (t0 & g0 & r & Hrun' & Hkeys & _); [lia|].
  rewrite Hrun in Hrun'. inversion Hrun'; subst t0 g0 r.
  destruct (Hkeys d eq_refl) as (top & Hle & Hbound & Hdom).
  exists top. split; [exact Hle|]. split; [exact Hbound|]. split.
  - intros k. rewrite <- elem_of_dom. apply Hdom.
  - unfold all_texts. rewrite extend_all, (sorted_keys_consecutive d lvl top Hdom).
    reflexivity.
Qed.
End Facts.

#[local] Existing Instance Sample.backend.

Lemma all_texts_leaves_then_levels_witness :
  exists t d,
    recursive_embed_cluster_summarize (B := Sample.backend) Sample.twelve_texts 1 3 0%nat
      = Some (t, 1%nat, Ok d)
    /\ exists top : Z,
        (1 <= top)%Z /\ (top <= 3 \/ top = 1)%Z
        /\ (forall k : Z, is_Some (d !! k) <-> (1 <= k <= top)%Z)
        /\ all_texts Sample.twelve_texts d
           = Sample.twelve_texts
             ++ concat (map (summaries_at d) (seqZ 1 (top - 1 + 1))).
Proof.
  eexists _, _.
  assert (H : recursive_embed_cluster_summarize (B := Sample.backend)
                Sample.twelve_texts 1 3 0%nat = Some (_, 1%nat, Ok _))
    by (vm_compute; reflexivity).
  split; [exact H|].
  exact (all_texts_leaves_then_levels (B := Sample.backend) _ _ _ _ _ _ _ H).
Defined.
End AllTextsFacts.

(** ** More about the fused scores in binary64 *)
Module Rrf64More.
Import Rrf64.
Section Facts.
Context {Document : Type}.
Variable dumps : Document -> string.
Variable loads : string -> Document.

Lemma signed_not_below_zero (x : float) :
  signed false x -> SFleb (of_int 0) x = true.
Proof.
  destruct x as [s|s| |s m e]; simpl; intros H; try contradiction; subst; reflexivity.
Qed.

(** X13: for an int [k > 0], [rrf] returns, every returned document is
    [loads] of a serialized document that occurs in the lists, and every
    score [s] satisfies [0.0 <= s] as Python compares floats: no score is
    NaN and none is negative. *)
Theorem fused_scores_never_negative (results : list (list Document)) (k : Z) :
  (0 < k)%Z ->
  exists out,
    rrf dumps loads results k = Ok out
    /\ forall doc score, (doc, score) ∈ out ->
         SFleb (of_int 0) score = true
         /\ exists s, doc = loads s /\ occurs dumps s results.
Proof.
  intros Hk.
  destruct (Rrf64Facts.rrf_results_scores dumps loads results k
              (Rrf64Facts.positive_k_no_zero_divisor results k Hk))
    as (d & Hrun & _ & Hkeys & Hv).
  unfold rrf. rewrite Hrun. simpl. eexists. split; [reflexivity|].
  intros doc score Hin. apply elem_of_map in Hin as ([s v] & Heq & Hin).
  simpl in Heq. inversion Heq; subst doc score. clear Heq.
  rewrite Rrf64Facts.sorted_desc_permutes in Hin.
  destruct (Hv s v Hin) as [_ Hs].
  assert (Hpos : (k <? 0)%Z = false) by (apply Z.ltb_ge; lia).
  rewrite Hpos in Hs. split; [apply signed_not_below_zero, Hs|].
  exists s. split; [reflexivity|]. apply Hkeys.
  apply (list_elem_of_fmap_2 fst) in Hin. exact Hin.
Qed.
End Facts.

Lemma fused_scores_never_negative_witness :
  (0 < 60)%Z
  /\ exists out,
      rrf id id Rrf.sample_results 60 = Ok out
      /\ forall doc score, (doc, score) ∈ out ->
           SFleb (of_int 0) score = true
           /\ exists s, doc = id s /\ occurs id s Rrf.sample_results.
Proof.
  assert (H : (0 < 60)%Z) by reflexivity.
  split; [exact H|].
  exact (fused_scores_never_negative id id Rrf.sample_results 60 H).
Defined.

(** The bound [n / k] of exact arithmetic is not kept: a document ranked
    first by three retrievers with [k = 10] scores 0.1 + 0.1 + 0.1, which
    in binary64 is 0.30000000000000004, above the float [3 / 10]. *)
Example three_firsts_above_exact_bound :
  rrf id id three_firsts 10
  = Ok [("a"%string, S754_finite false 5404319552844596 (-54))]
  /\ SFdiv prec emax (of_int 3) (of_int 10)
     = S754_finite false 5404319552844595 (-54)
  /\ SFltb (SFdiv prec emax (of_int 3) (of_int 10))
           (S754_finite false 5404319552844596 (-54)) = true.
Proof. vm_compute. auto. Qed.
End Rrf64More.
